(** * terra_package: trade-network metrics and CES shock simulation

    A shallow embedding of [terra_package/core.py], [terra_package/metrics.py]
    and the part of [terra_package/utils.py] that [core.py] reads, with its
    conversion of a trade file to a network table.

    Numbers.  pandas and numpy compute on IEEE doubles.  A double is modelled
    as an exact rational or one of the three special values (+inf, -inf, NaN):
    the special-value rules of IEEE arithmetic are kept, rounding is not
    modelled.  Signed zeros are identified (a zero divisor counts as +0).

    Tables.  A pandas DataFrame is its list of column names and its list of
    rows; a row has one field per column the package names.

    Errors.  A Python exception is an [Err] result carrying the exception.
    The public functions take a [TerraDataset], so their [isinstance] test
    passes and is not written. *)

From Stdlib Require Import ZArith QArith Qabs Qpower Field List String Bool.
From Stdlib Require Import Lia Sorted OrderedTypeEx Setoid.
Import ListNotations.

Open Scope string_scope.
Open Scope list_scope.

(** ** Exceptions *)

Inductive error : Type :=
| TypeError (msg : string)
| ValueError (msg : string)
| AttributeError (msg : string)
| KeyError (key : string)
| ZeroDivisionError (msg : string).

Inductive result (A : Type) : Type :=
| Ok (a : A)
| Err (e : error).

Arguments Ok {A} a.
Arguments Err {A} e.

Definition bind {A B : Type} (m : result A) (k : A -> result B) : result B :=
  match m with
  | Ok a => k a
  | Err e => Err e
  end.

Notation "x <- m ;; k" := (bind m (fun x => k))
  (at level 61, m at next level, right associativity).

Definition is_ok {A : Type} (m : result A) : bool :=
  match m with Ok _ => true | Err _ => false end.

Definition is_value_error {A : Type} (m : result A) : bool :=
  match m with Err (ValueError _) => true | _ => false end.

(** ** Doubles: exact rationals and the IEEE special values *)

Inductive float : Type :=
| Fin (q : Q)
| PInf
| NInf
| NaN.

Definition is_nan (x : float) : bool :=
  match x with NaN => true | _ => false end.

Definition is_finite (x : float) : bool :=
  match x with Fin _ => true | _ => false end.

Definition fneg (x : float) : float :=
  match x with
  | Fin q => Fin (- q)
  | PInf => NInf
  | NInf => PInf
  | NaN => NaN
  end.

Definition fadd (x y : float) : float :=
  match x, y with
  | NaN, _ | _, NaN => NaN
  | Fin a, Fin b => Fin (a + b)
  | PInf, NInf | NInf, PInf => NaN
  | PInf, _ | _, PInf => PInf
  | NInf, _ | _, NInf => NInf
  end.

Definition fsub (x y : float) : float := fadd x (fneg y).

(** The sign of an infinity scaled by a rational: NaN for zero. *)
Definition scale_inf (positive : bool) (q : Q) : float :=
  match (0 ?= q)%Q with
  | Eq => NaN
  | Lt => if positive then PInf else NInf
  | Gt => if positive then NInf else PInf
  end.

Definition fmul (x y : float) : float :=
  match x, y with
  | NaN, _ | _, NaN => NaN
  | Fin a, Fin b => Fin (a * b)
  | PInf, Fin b => scale_inf true b
  | NInf, Fin b => scale_inf false b
  | Fin a, PInf => scale_inf true a
  | Fin a, NInf => scale_inf false a
  | PInf, PInf | NInf, NInf => PInf
  | PInf, NInf | NInf, PInf => NInf
  end.

(** numpy's true division: a zero divisor gives an infinity or NaN, and
    nothing is raised. *)
Definition fdiv (x y : float) : float :=
  match x, y with
  | NaN, _ | _, NaN => NaN
  | Fin a, Fin b =>
      if Qeq_bool b 0 then
        match (0 ?= a)%Q with
        | Eq => NaN
        | Lt => PInf
        | Gt => NInf
        end
      else Fin (a / b)
  | Fin _, PInf | Fin _, NInf => Fin 0
  | PInf, Fin b => if Qle_bool 0 b then PInf else NInf
  | NInf, Fin b => if Qle_bool 0 b then NInf else PInf
  | PInf, PInf | PInf, NInf | NInf, PInf | NInf, NInf => NaN
  end.

(** Python's [/] on two Python numbers: a zero divisor raises. *)
Definition py_div (x y : float) : result float :=
  match y with
  | Fin b =>
      if Qeq_bool b 0 then Err (ZeroDivisionError "division by zero")
      else Ok (fdiv x y)
  | _ => Ok (fdiv x y)
  end.

(** [x ** n] for an integer [n] (IEEE pow at an integral exponent). *)
Definition fpowZ (x : float) (n : Z) : float :=
  if (n =? 0)%Z then Fin 1
  else
    match x with
    | NaN => NaN
    | Fin q =>
        if Qeq_bool q 0 then (if (0 <? n)%Z then Fin 0 else PInf)
        else Fin (Qpower q n)
    | PInf => if (0 <? n)%Z then PInf else Fin 0
    | NInf =>
        if (0 <? n)%Z then (if Z.odd n then NInf else PInf) else Fin 0
    end.

(** [x != 0], [x == 0] and [x > 0] on doubles: NaN differs from everything
    and is ordered with nothing. *)
Definition fne0 (x : float) : bool :=
  match x with
  | Fin q => negb (Qeq_bool q 0)
  | _ => true
  end.

Definition fgt0 (x : float) : bool :=
  match x with
  | Fin q => negb (Qle_bool q 0)
  | PInf => true
  | _ => false
  end.

(** The same value: rationals up to [Qeq], special values by name. *)
Definition feq (x y : float) : Prop :=
  match x, y with
  | Fin a, Fin b => (a == b)%Q
  | PInf, PInf | NInf, NInf | NaN, NaN => True
  | _, _ => False
  end.

Definition feqb (x y : float) : bool :=
  match x, y with
  | Fin a, Fin b => Qeq_bool a b
  | PInf, PInf | NInf, NInf | NaN, NaN => true
  | _, _ => false
  end.

(** A decimal literal too large for a double reads as an infinity: values
    of magnitude at least [2^1024 - 2^970] round to infinity. *)
Definition double_overflow : Q := inject_Z (2 ^ 1024 - 2 ^ 970).

Definition float_literal (mantissa : Z) (exp10 : Z) : float :=
  let q := (inject_Z mantissa * Qpower 10 exp10)%Q in
  if Qle_bool double_overflow (Qabs q)
  then (if Qle_bool 0 q then PInf else NInf)
  else Fin q.

(** Python's builtin [sum]: left to right from the integer 0. *)
Definition py_sum (l : list float) : float := fold_left fadd l (Fin 0).

(** pandas' [Series.sum()]: NaN entries are skipped (skipna=True). *)
Definition series_sum (l : list float) : float :=
  py_sum (filter (fun x => negb (is_nan x)) l).

(** The rational sum of a list, for stating what the sums compute. *)
Fixpoint Qsum (l : list Q) : Q :=
  match l with
  | [] => 0
  | q :: l' => q + Qsum l'
  end.

(** ** Tables *)

Definition truthy (s : option string) : bool :=
  match s with
  | Some s' => negb (s' =? "")
  | None => false
  end.

(** How an f-string prints an optional argument. *)
Definition fmt (s : option string) : string :=
  match s with
  | Some s' => s'
  | None => "None"
  end.

Definition is_empty {A : Type} (l : list A) : bool :=
  match l with [] => true | _ => false end.

(** One trade record.  [value2] and [weight] are read only when the frame
    has the column. *)
Module Row.
Record t : Type := mk {
  source : string;
  target : string;
  period : string;
  product : string;
  value : float;
  value2 : float;
  weight : float
}.
End Row.

Record DataFrame : Type := mkFrame {
  columns : list string;
  rows : list Row.t
}.

Definition has_column (c : string) (d : DataFrame) : bool :=
  existsb (String.eqb c) (columns d).

Definition select (f : Row.t -> bool) (d : DataFrame) : DataFrame :=
  mkFrame (columns d) (filter f (rows d)).

Definition empty (d : DataFrame) : bool := is_empty (rows d).

(** [df.loc[:, ['source', 'target']] = df[['target', 'source']].values] *)
Definition swap_row (r : Row.t) : Row.t :=
  Row.mk (Row.target r) (Row.source r) (Row.period r) (Row.product r)
         (Row.value r) (Row.value2 r) (Row.weight r).

Definition swap_source_target (d : DataFrame) : DataFrame :=
  mkFrame (columns d) (map swap_row (rows d)).

(** Sorted distinct keys, as [sorted(col.unique())] and as the group keys of
    [groupby] (sort=True). *)
Section Keys.
Context {K : Type} (cmp : K -> K -> comparison).

Fixpoint insert_key (k : K) (l : list K) : list K :=
  match l with
  | [] => [k]
  | x :: l' =>
      match cmp k x with
      | Lt => k :: l
      | Eq => l
      | Gt => x :: insert_key k l'
      end
  end.

Definition sorted_unique (l : list K) : list K :=
  fold_right insert_key [] l.

Definition key_eqb (a b : K) : bool :=
  match cmp a b with Eq => true | _ => false end.
End Keys.

(** [df.groupby(['period'], as_index=False)['weight'].sum()] on the
    (period, weight) columns. *)
Definition groupby_period_sum (t : list (string * float))
  : list (string * float) :=
  map (fun k =>
         (k, series_sum (map snd (filter (fun pw => fst pw =? k) t))))
      (sorted_unique String.compare (map fst t)).

(** [sort_values(by=['period'], ascending=True)] *)
Fixpoint insert_by_period (x : string * float) (l : list (string * float))
  : list (string * float) :=
  match l with
  | [] => [x]
  | y :: l' =>
      match String.compare (fst x) (fst y) with
      | Gt => y :: insert_by_period x l'
      | _ => x :: l
      end
  end.

Definition sort_values_period (t : list (string * float))
  : list (string * float) :=
  fold_right insert_by_period [] t.

(** [Series.shift(1)]: the first entry becomes missing (NaN). *)
Definition shift1 (l : list float) : list float :=
  match l with
  | [] => []
  | _ => NaN :: removelast l
  end.

Fixpoint zip_with {A B C : Type} (f : A -> B -> C) (l : list A) (m : list B)
  : list C :=
  match l, m with
  | a :: l', b :: m' => f a b :: zip_with f l' m'
  | _, _ => []
  end.

(** [(df["weight"] - df["weight_lag"]) / df["weight_lag"]] *)
Definition variation (w lag : float) : float := fdiv (fsub w lag) lag.

Definition lag_variation (t : list (string * float))
  : list (string * float) :=
  let weight_lag := shift1 (map snd t) in
  zip_with (fun pw lag => (fst pw, variation (snd pw) lag)) t weight_lag.

(** ** The dataset object ([utils.TerraDataset]) *)

(** One row of the simulation table: the six columns kept from the input
    row, then the computed ones. *)
Record ShockRow : Type := mkShockRow {
  base : Row.t;
  price : float;
  alpha : float;
  share_base : float;
  share_post : float;
  q_base : float;
  q_new : float;
  q_delta : float
}.

Record TerraDataset : Type := mkDataset {
  data : DataFrame;
  simulation : option (list ShockRow)
}.

(** What attribute lookup on a TerraDataset finds: the attributes set by
    [__init__], the class attribute and the methods, and [simulation] once
    [simulate_shock] has set it. *)
Inductive attr_value : Type :=
| AttrFrame (d : DataFrame)
| AttrSimulation (s : list ShockRow)
| AttrOther.

Definition other_attributes : list string :=
  ["trade_to_network"; "mode"; "imp_exp"; "two_values"; "cols_map"; "sep";
   "encoding"; "required_keys"; "_required_cols"; "_check";
   "_rename_columns"; "_base_checks"; "_trade_to_network"].

Definition no_attribute (name : string) : error :=
  AttributeError ("'TerraDataset' object has no attribute '" ++ name ++ "'").

Definition getattr (df : TerraDataset) (name : string) : result attr_value :=
  if name =? "data" then Ok (AttrFrame (data df))
  else if name =? "simulation" then
    match simulation df with
    | Some s => Ok (AttrSimulation s)
    | None => Err (no_attribute name)
    end
  else if existsb (String.eqb name) other_attributes then Ok AttrOther
  else Err (no_attribute name).

(** The truth value of an attribute in an [if]. *)
Definition attr_truthy (v : attr_value) : result bool :=
  match v with
  | AttrFrame _ | AttrSimulation _ =>
      Err (ValueError "The truth value of a DataFrame is ambiguous.")
  | AttrOther => Ok true
  end.

(** ** core.analyze_basket *)

Definition BasketTable : Type := list (string * float).

Definition not_present (what val direction : string) : error :=
  ValueError (what ++ " " ++ val ++ " in direction " ++ direction
              ++ " is not present in the dataset.").

(** The (period, weight) columns of a frame; [weight] must be a column. *)
Definition period_weight (df : DataFrame) : result (list (string * float)) :=
  if has_column "weight" df
  then Ok (map (fun r => (Row.period r, Row.weight r)) (rows df))
  else Err (KeyError "weight").

(** Lines 100-118 of [analyze_basket]: from the filter on [source] on, the
    function only reads the frame [df] it was left with. *)
Definition basket_of (df : DataFrame) (country : string)
    (partner product : option string) (var : bool) (direction : string)
  : result BasketTable :=
  let df := select (fun r => Row.source r =? country) df in
  if empty df then Err (not_present "Country" country direction) else
  let df := if truthy product
            then select (fun r => Row.product r =? fmt product) df
            else df in
  if empty df then Err (not_present "Product" (fmt product) direction) else
  let df := if truthy partner
            then select (fun r => Row.target r =? fmt partner) df
            else df in
  if empty df then Err (not_present "Partner" (fmt partner) direction) else
  t <- period_weight df ;;
  let t := groupby_period_sum t in
  if var
  then Ok (lag_variation (sort_values_period (groupby_period_sum t)))
  else Ok t.

(** [analyze_basket] returns its table (or raises) and leaves the dataset
    object in a state: [df = df.data] binds the stored frame itself, so the
    column assignment of line 99 writes into the dataset. *)
Definition analyze_basket (df : TerraDataset) (country : string)
    (partner product : option string) (var : bool) (direction : string)
  : result BasketTable * TerraDataset :=
  if negb (existsb (String.eqb direction) ["E"; "I"]) then
    (Err (ValueError "Direction must be 'E' for exports or 'I' for imports."),
     df)
  else
    let df' :=
      if existsb (String.eqb direction) ["I"]
      then mkDataset (swap_source_target (data df)) (simulation df)
      else df in
    (basket_of (data df') country partner product var direction, df').

(** ** core.simulate_shock *)

Definition flow_key : Type := (string * string * string)%type.

Definition compare_flow (a b : flow_key) : comparison :=
  let '(a1, a2, a3) := a in
  let '(b1, b2, b3) := b in
  match String.compare a1 b1 with
  | Eq =>
      match String.compare a2 b2 with
      | Eq => String.compare a3 b3
      | c => c
      end
  | c => c
  end.

Definition key_of (r : Row.t) : flow_key :=
  (Row.source r, Row.target r, Row.product r).

(** [data.groupby(["source","target","product"], as_index=False)
        [["value", "value2"]].sum()] *)
Definition groupby_flow_sum (d : DataFrame)
  : result (list (flow_key * (float * float))) :=
  if has_column "value2" d then
    Ok (map (fun k =>
               let g := filter (fun r => key_eqb compare_flow (key_of r) k)
                               (rows d) in
               (k, (series_sum (map Row.value g),
                    series_sum (map Row.value2 g))))
            (sorted_unique compare_flow (map key_of (rows d))))
  else Err (KeyError "value2").

Section Shock.

(** The C library's [pow] on doubles, which numpy calls for [**]: taken as
    given at the exponents that are not integers. *)
Variable libm_pow : float -> float -> float.

(** [x ** y] for a double [y]. *)
Definition fpow (x y : float) : float :=
  match y with
  | Fin e =>
      let e' := Qred e in
      if (Zpos (Qden e') =? 1)%Z then fpowZ x (Qnum e') else libm_pow x y
  | _ => libm_pow x y
  end.

Section CES.
Variable sigma : Z.
Variable country_from : string.
(** [1 / (1 - sigma)], once Python has computed it. *)
Variable inv_exp : float.
(** [df_shock]: the importer's basket. *)
Variable df_shock : list Row.t.

(** line 183 *)
Definition price_of (r : Row.t) : float :=
  fdiv (Row.value r) (Row.value2 r).

(** line 184 *)
Definition alpha_raw (r : Row.t) : float :=
  fmul (Row.value2 r) (fpowZ (price_of r) (sigma - 1)).

(** line 185 *)
Definition alpha_base (r : Row.t) : float :=
  fdiv (alpha_raw r) (series_sum (map alpha_raw df_shock)).

(** line 187 *)
Definition Q_tot : float := series_sum (map Row.value2 df_shock).

(** line 188 *)
Definition weight_base (r : Row.t) : float :=
  fmul (alpha_base r) (fpowZ (price_of r) (1 - sigma)).

(** line 189 *)
Definition share_base_of (r : Row.t) : float :=
  fdiv (weight_base r) (series_sum (map weight_base df_shock)).

(** lines 190-191 *)
Definition P : float :=
  fpow (series_sum
          (map (fun r => fmul (alpha_base r)
                              (fpowZ (price_of r) (1 - sigma)))
               df_shock))
       inv_exp.

Definition E : float := fmul P Q_tot.

(** line 192 *)
Definition q_base_of (r : Row.t) : float :=
  fdiv (fmul (share_base_of r) E) (price_of r).

(** line 194 *)
Definition alpha_post (r : Row.t) : float :=
  if Row.source r =? country_from then Fin 0 else alpha_base r.

(** line 196 *)
Definition weight_post (r : Row.t) : float :=
  fmul (alpha_post r) (fpowZ (price_of r) (1 - sigma)).

(** lines 197-200 *)
Definition share_post_of (r : Row.t) : float :=
  let total := series_sum (map weight_post df_shock) in
  if fne0 total then fdiv (weight_post r) total else Fin 0.

(** lines 202-203 *)
Definition P_new : float :=
  fpow (series_sum
          (map (fun r => fmul (alpha_post r)
                              (fpowZ (price_of r) (1 - sigma)))
               df_shock))
       inv_exp.

Definition E_new : float := fmul P_new Q_tot.

(** line 205 *)
Definition q_new_of (r : Row.t) : float :=
  if fne0 (price_of r)
  then fdiv (fmul (share_post_of r) E_new) (price_of r)
  else Fin 0.

(** lines 206-207 *)
Definition shock_row (r : Row.t) : ShockRow :=
  mkShockRow r (price_of r) (alpha_post r) (share_base_of r)
             (share_post_of r) (q_base_of r) (q_new_of r)
             (fsub (q_new_of r) (q_base_of r)).

Definition shock_table : list ShockRow := map shock_row df_shock.
End CES.

Definition simulate_shock (df : TerraDataset)
    (country_from country_to period : string) (product : option string)
    (sigma : Z) : result TerraDataset :=
  let data0 := select (fun r => Row.period r =? period) (data df) in
  if empty data0 then
    Err (ValueError ("Period " ++ period
                     ++ " is not present in the dataset."))
  else
    data1 <-
      (if truthy product then
         let data1 :=
           select (fun r => Row.product r =? fmt product) data0 in
         (* [if df.empty:] looks the attribute up on the dataset object *)
         e <- getattr df "empty" ;;
         b <- attr_truthy e ;;
         if b then
           Err (ValueError ("No data found for product " ++ fmt product
                            ++ " trade by " ++ country_from ++ "."))
         else Ok data1
       else
         (* the aggregate is computed and dropped *)
         _ <- groupby_flow_sum data0 ;;
         Ok data0) ;;
    if empty (select (fun r => negb (Row.source r =? country_from)
                               && (Row.target r =? country_to)) data1)
    then
      Err (ValueError ("Simulation not applicable, since there is only "
                       ++ country_from ++ " as supplier for "
                       ++ country_to ++ "."))
    else
      let df_shock := select (fun r => Row.target r =? country_to) data1 in
      if negb (has_column "value2" df_shock) then Err (KeyError "value2")
      else
        inv_exp <- py_div (Fin 1) (Fin (inject_Z (1 - sigma))) ;;
        Ok (mkDataset (data df)
              (Some (shock_table sigma country_from inv_exp
                                 (rows df_shock)))).

End Shock.

(** The rows [simulate_shock] selects: those of the period, among them the
    importer's basket, and among the period's rows those that make the shock
    applicable. *)
Definition period_rows (df : TerraDataset) (p : string) : list Row.t :=
  filter (fun r => Row.period r =? p) (rows (data df)).

Definition basket (df : TerraDataset) (country_to p : string) : list Row.t :=
  filter (fun r => Row.target r =? country_to) (period_rows df p).

Definition other_suppliers (df : TerraDataset)
    (country_from country_to p : string) : list Row.t :=
  filter (fun r => negb (Row.source r =? country_from)
                   && (Row.target r =? country_to))
         (period_rows df p).

(** [1 / (1 - sigma)] as a double, for [sigma] other than 1. *)
Definition inv_exp_of (sigma : Z) : float :=
  Fin (1 / inject_Z (1 - sigma)).

(** ** Graphs (the part of networkx the package uses) *)

Definition node : Type := string.

(** The attribute dictionary of an edge: the keys the package reads or
    writes. *)
Module Edge.
Record t : Type := mk {
  qty : option float;
  weight : option float;
  inv_weight : option float
}.
End Edge.

Definition edge : Type := (node * node * Edge.t)%type.

(** A graph: directed or not, its nodes in insertion order, its edges in
    insertion order (one per ordered pair when directed, one per unordered
    pair when not; the endpoints of an edge are nodes). *)
Record Graph : Type := mkGraph {
  directed : bool;
  nodes : list node;
  adj : list edge
}.

Definition mem (n : node) (l : list node) : bool := existsb (String.eqb n) l.

Definition edge_src (e : edge) : node := fst (fst e).
Definition edge_dst (e : edge) : node := snd (fst e).
Definition edge_data (e : edge) : Edge.t := snd e.

(** The neighbours of [n] in an undirected graph, with the edge data. *)
Definition incident (n : node) (e : edge) : list (node * Edge.t) :=
  if edge_src e =? n then [(edge_dst e, edge_data e)]
  else if edge_dst e =? n then [(edge_src e, edge_data e)]
  else [].

Fixpoint undirected_edges (ns seen : list node) (es : list edge)
  : list edge :=
  match ns with
  | [] => []
  | n :: ns' =>
      map (fun nd => (n, fst nd, snd nd))
          (filter (fun nd => negb (mem (fst nd) seen))
                  (flat_map (incident n) es))
      ++ undirected_edges ns' (n :: seen) es
  end.

(** [G.edges(data=True)]: node by node, the edges leaving the node; an
    undirected edge is reported once, from its first endpoint met. *)
Definition edges (G : Graph) : list edge :=
  if directed G
  then flat_map (fun n => filter (fun e => edge_src e =? n) (adj G)) (nodes G)
  else undirected_edges (nodes G) [] (adj G).

(** [d.get("qty", 0)] and [d.get("weight", default)] *)
Definition get_qty (d : Edge.t) : float :=
  match Edge.qty d with Some q => q | None => Fin 0 end.

Definition get_weight (default : float) (d : Edge.t) : float :=
  match Edge.weight d with Some w => w | None => default end.

(** Weighted degrees ([weight="weight"], a missing attribute counts 1). *)
Definition out_degree (G : Graph) (n : node) : float :=
  py_sum (map (fun e => get_weight (Fin 1) (edge_data e))
              (filter (fun e => edge_src e =? n) (adj G))).

Definition in_degree (G : Graph) (n : node) : float :=
  py_sum (map (fun e => get_weight (Fin 1) (edge_data e))
              (filter (fun e => edge_dst e =? n) (adj G))).

(** Undirected: the sum over the neighbours, a self-loop counted twice. *)
Definition undirected_degree (G : Graph) (n : node) : float :=
  let nbrs := flat_map (incident n) (adj G) in
  fadd (py_sum (map (fun nd => get_weight (Fin 1) (snd nd)) nbrs))
       (py_sum (map (fun nd => get_weight (Fin 1) (snd nd))
                    (filter (fun nd => fst nd =? n) nbrs))).

Definition degree (G : Graph) (n : node) : float :=
  if directed G then fadd (out_degree G n) (in_degree G n)
  else undirected_degree G n.

(** [G.add_edge(u, v)] followed by [G[u][v].update({"weight": w})] when an
    edge attribute is asked for, on a DiGraph. *)
Definition add_node (n : node) (ns : list node) : list node :=
  if mem n ns then ns else ns ++ [n].

Definition same_edge (u v : node) (e : edge) : bool :=
  (edge_src e =? u) && (edge_dst e =? v).

Definition update_weight (w : option float) (d : Edge.t) : Edge.t :=
  match w with
  | Some _ => Edge.mk (Edge.qty d) w (Edge.inv_weight d)
  | None => d
  end.

Definition add_edge (G : Graph) (u v : node) (w : option float) : Graph :=
  mkGraph (directed G) (add_node v (add_node u (nodes G)))
    (if existsb (same_edge u v) (adj G)
     then map (fun e => if same_edge u v e
                        then (u, v, update_weight w (edge_data e)) else e)
              (adj G)
     else adj G ++ [(u, v, update_weight w (Edge.mk None None None))]).

(** [nx.from_pandas_edgelist(df_p, 'source', 'target', edge_attr=edge_attr,
       create_using=nx.DiGraph())] *)
Definition from_pandas_edgelist (df_p : DataFrame) (edge_attr : bool)
  : Graph :=
  fold_left
    (fun G r =>
       add_edge G (Row.source r) (Row.target r)
                (if edge_attr then Some (Row.weight r) else None))
    (rows df_p) (mkGraph true [] []).

(** ** metrics.calculate_node_metrics *)

Record MetricsRow : Type := mkMetrics {
  Period : string;
  Node : node;
  Degree : float;
  Out_Degree : option float;
  In_Degree : option float;
  Vulnerability : float;
  Closeness : float;
  Betweenness : float;
  Distinctiveness : float
}.

(** The literal [1e9999] of line 79. *)
Definition sentinel : float := float_literal 1 9999.

(** lines 64-66 *)
Definition total_weight (G : Graph) : float :=
  py_sum (map (fun e => get_qty (edge_data e)) (edges G)).

Definition normalized_weight (total : float) (d : Edge.t) : result float :=
  if fgt0 total then py_div (get_qty d) total else Ok (Fin 0).

Fixpoint map_result {A B : Type} (f : A -> result B) (l : list A)
  : result (list B) :=
  match l with
  | [] => Ok []
  | a :: l' =>
      b <- f a ;;
      bs <- map_result f l' ;;
      Ok (b :: bs)
  end.

Definition set_weight (total : float) (e : edge) : result edge :=
  w <- normalized_weight total (edge_data e) ;;
  Ok (edge_src e, edge_dst e,
      Edge.mk (Edge.qty (edge_data e)) (Some w)
              (Edge.inv_weight (edge_data e))).

Definition set_weights (G : Graph) : result Graph :=
  es <- map_result (set_weight (total_weight G)) (adj G) ;;
  Ok (mkGraph (directed G) (nodes G) es).

(** lines 72-77, on one entry of [in_deg] *)
Definition vulnerability_of (v : option float) : result float :=
  match v with
  | Some x => if fne0 x then Ok (fsub (Fin 1) x) else Ok (Fin 0)
  | None =>
      (* [None != 0] holds, and [1 - None] is not defined *)
      Err (TypeError "unsupported operand type(s) for -: 'int' and 'NoneType'")
  end.

(** lines 79-81 *)
Definition inverse_weight (d : Edge.t) : result float :=
  if fgt0 (get_weight (Fin 0) d)
  then py_div (Fin 1) (get_weight (Fin 0) d)
  else Ok sentinel.

Definition set_inv_weight (e : edge) : result edge :=
  w <- inverse_weight (edge_data e) ;;
  Ok (edge_src e, edge_dst e,
      Edge.mk (Edge.qty (edge_data e)) (Edge.weight (edge_data e)) (Some w)).

Definition set_inv_weights (G : Graph) : result Graph :=
  es <- map_result set_inv_weight (adj G) ;;
  Ok (mkGraph (directed G) (nodes G) es).

Section Metrics.

(** The collaborators, as functions of the graph they are called on:
    [nx.closeness_centrality(G, distance="inv_weight")],
    [nx.betweenness_centrality(G, weight="inv_weight")] and
    [distinctiveness(G.to_undirected(), alpha=1, normalize=True,
                     measures=["D1"])["D1"]].
    They are library calls and are taken here in the calls in which they
    return: an exception raised inside one of them (the distinctiveness
    package raises on a graph of fewer than three nodes) is outside the
    model.  What is stated of the table is therefore stated of the calls
    that return. *)
Variable closeness_centrality : Graph -> node -> float.
Variable betweenness_centrality : Graph -> node -> float.
Variable distinctiveness_D1 : Graph -> node -> float.

(** The function returns the metrics table and leaves its argument [G]
    with the edge attributes it wrote. *)
Definition calculate_node_metrics (G : Graph) (period : string)
  : result (list MetricsRow * Graph) :=
  G1 <- set_weights G ;;
  let deg := degree G1 in
  let out_deg n :=
    if directed G1 then Some (out_degree G1 n) else None in
  let in_deg n :=
    if directed G1 then Some (in_degree G1 n) else None in
  vulnerability <- map_result (fun n => vulnerability_of (in_deg n))
                              (nodes G1) ;;
  G2 <- set_inv_weights G1 ;;
  let clos := closeness_centrality G2 in
  let betw := betweenness_centrality G2 in
  let disti := distinctiveness_D1 G2 in
  Ok (zip_with
        (fun n vul =>
           mkMetrics period n (deg n) (out_deg n) (in_deg n) vul
                     (clos n) (betw n) (disti n))
        (nodes G2) vulnerability,
      G2).

(** ** core.analyze_network *)

Definition analyze_network (df : TerraDataset) : result (list MetricsRow) :=
  let df := data df in
  let period := sorted_unique String.compare (map Row.period (rows df)) in
  all_metrics <-
    map_result
      (fun p =>
         let df_p := select (fun r => Row.period r =? p) df in
         let edge_attr := has_column "weight" df_p in
         let G_p := from_pandas_edgelist df_p edge_attr in
         m <- calculate_node_metrics G_p p ;;
         Ok (fst m))
      period ;;
  if is_empty all_metrics
  then Err (ValueError "No objects to concatenate")
  else Ok (List.concat all_metrics).

End Metrics.

(** ** utils.TerraDataset._trade_to_network *)

(** The exceptions of the conversion: those of the analyses, and the
    IndexError of a label list that is too short. *)
Inductive exception : Type :=
| Builtin (e : error)
| IndexError (msg : string).

Inductive outcome (A : Type) : Type :=
| Return (a : A)
| Raise (e : exception).

Arguments Return {A} a.
Arguments Raise {A} e.

Definition and_then {A B : Type} (m : outcome A) (k : A -> outcome B)
  : outcome B :=
  match m with
  | Return a => k a
  | Raise e => Raise e
  end.

Notation "x <~ m ;; k" := (and_then m (fun x => k))
  (at level 61, m at next level, right associativity).

(** One record of the trade file: its flow label and the other cells. *)
Module Trade.
Record t : Type := mk {
  flow : string;
  row : Row.t
}.
End Trade.

Record TradeFrame : Type := mkTrade {
  trade_columns : list string;
  trade_rows : list Trade.t
}.

Definition has_trade_column (c : string) (df : TradeFrame) : bool :=
  existsb (String.eqb c) (trade_columns df).

(** The attributes of the object that the conversion reads. *)
Record Loader : Type := mkLoader {
  trade_to_network : bool;
  mode : string;
  imp_exp : list string;
  two_values : bool
}.

(** lines 53 and 188 *)
Definition required_keys (s : Loader) : list string :=
  (["source"; "target"; "period"; "product"; "value"]
   ++ (if trade_to_network s then ["flow"] else []))
  ++ (if two_values s then ["value2"] else []).

(** line 178 *)
Definition group_cols (s : Loader) : list string :=
  filter (fun c => negb (existsb (String.eqb c) ["value"; "flow"; "value2"]))
         (required_keys s).

(** Lexicographic comparison, as Python compares tuples. *)
Definition compare_pair {A B : Type} (cmpA : A -> A -> comparison)
    (cmpB : B -> B -> comparison) (a b : A * B) : comparison :=
  match cmpA (fst a) (fst b) with
  | Eq => cmpB (snd a) (snd b)
  | c => c
  end.

(** The group key (source, target, period, product). *)
Definition trade_key : Type := (string * string * string * string)%type.

Definition compare_key : trade_key -> trade_key -> comparison :=
  compare_pair
    (compare_pair (compare_pair String.compare String.compare)
                  String.compare)
    String.compare.

Definition row_key (r : Row.t) : trade_key :=
  (Row.source r, Row.target r, Row.period r, Row.product r).

Definition key_of_trade (r : Trade.t) : trade_key := row_key (Trade.row r).

(** pandas' group [mean()]: missing values are skipped; a group without
    values has none. *)
Definition mean (l : list float) : float :=
  let xs := filter (fun x => negb (is_nan x)) l in
  if is_empty xs then NaN
  else fdiv (py_sum xs) (Fin (inject_Z (Z.of_nat (List.length xs)))).

(** [df.loc[:, ['source', 'target']] = df[['target', 'source']].values] *)
Definition swap_trade (r : Trade.t) : Trade.t :=
  Trade.mk (Trade.flow r) (swap_row (Trade.row r)).

Definition swap_frame (df : TradeFrame) : TradeFrame :=
  mkTrade (trade_columns df) (map swap_trade (trade_rows df)).

(** [df.groupby(cols, as_index=False)['value'].mean()], and with
    [.agg({'value':'mean','value2':'mean'})] when there are two values;
    [cols] is source, target, period and product.  The cells of the
    columns the result does not have are blank. *)
Definition groupby_mean (two : bool) (l : list Trade.t) : list Trade.t :=
  map (fun k =>
         let g := filter (fun r => key_eqb compare_key (key_of_trade r) k) l in
         let '(s, t, p, prod) := k in
         Trade.mk ""
           (Row.mk s t p prod
              (mean (map (fun r => Row.value (Trade.row r)) g))
              (if two then mean (map (fun r => Row.value2 (Trade.row r)) g)
               else NaN)
              NaN))
      (sorted_unique compare_key (map key_of_trade l)).

(** The rows the modes select: those labelled [imp_exp[i]]. *)
Definition labelled (x : string) (l : list Trade.t) : list Trade.t :=
  filter (fun r => Trade.flow r =? x) l.

Section Conversion.

(** The text pandas gives the KeyError of [df[keys]] when a key is not a
    column, from the keys and the columns. *)
Variable not_in_index : list string -> list string -> string.

(** [df[c]] and [df[keys]] *)
Definition getitem (c : string) (df : TradeFrame) : outcome unit :=
  if has_trade_column c df then Return tt
  else Raise (Builtin (KeyError c)).

Definition getitem_list (keys : list string) (df : TradeFrame)
  : outcome TradeFrame :=
  if forallb (fun k => has_trade_column k df) keys
  then Return (mkTrade keys (trade_rows df))
  else Raise (Builtin (KeyError (not_in_index keys (trade_columns df)))).

(** [self.imp_exp[i]] *)
Definition imp_exp_item (s : Loader) (i : nat) : outcome string :=
  match nth_error (imp_exp s) i with
  | Some x => Return x
  | None => Raise (IndexError "list index out of range")
  end.

(** [df[df['flow'] == self.imp_exp[i]][self.required_keys]] *)
Definition flows_of (s : Loader) (i : nat) (df : TradeFrame)
  : outcome TradeFrame :=
  _ <~ getitem "flow" df ;;
  x <~ imp_exp_item s i ;;
  getitem_list (required_keys s)
    (mkTrade (trade_columns df) (labelled x (trade_rows df))).

Definition _trade_to_network (s : Loader) (df : TradeFrame)
  : outcome TradeFrame :=
  df <~ (if mode s =? "import" then
           df <~ flows_of s 0 df ;;
           Return (swap_frame df)
         else if mode s =? "export" then
           flows_of s 1 df
         else if mode s =? "both" then
           df_imp <~ flows_of s 0 df ;;
           let df := swap_frame df in
           df_exp <~ flows_of s 1 df ;;
           let df := trade_rows df_imp ++ trade_rows df_exp in
           Return (mkTrade
                     (group_cols s ++ ["value"]
                      ++ (if two_values s then ["value2"] else []))
                     (groupby_mean (two_values s) df))
         else
           Raise (Builtin (ValueError
                   "mode must be 'import', 'export' or 'both'."))) ;;
  if is_empty (trade_rows df)
  then Raise (Builtin (ValueError
         "The dataframe is empty after trade to network conversion. Check 'mode' and 'imp_exp' parameters."))
  else Return df.

End Conversion.

(** ** Vocabulary of the statements *)

(** The error of line 180. *)
Definition not_applicable (country_from country_to : string) : error :=
  ValueError ("Simulation not applicable, since there is only "
              ++ country_from ++ " as supplier for " ++ country_to ++ ".").

(** The post-shock weight column, recomputed from the columns of the
    simulation table ([alpha] there is the post-shock one). *)
Definition post_weight (sigma : Z) (x : ShockRow) : float :=
  fmul (alpha x) (fpowZ (price x) (1 - sigma)).

(** The sum of a column of the simulation table a call returned. *)
Definition column_sum (f : ShockRow -> float) (r : result TerraDataset)
  : float :=
  match r with
  | Ok d =>
      match simulation d with
      | Some sim => series_sum (map f sim)
      | None => NaN
      end
  | Err _ => NaN
  end.

(** A finite double above 0, and the rows with such a value and quantity. *)
Definition positive_double (x : float) : bool :=
  match x with
  | Fin q => negb (Qle_bool q 0)
  | _ => false
  end.

Definition positive_row (r : Row.t) : bool :=
  positive_double (Row.value r) && positive_double (Row.value2 r).

Definition fpos (x : float) : Prop := exists q, x = Fin q /\ (0 < q)%Q.
Definition fnonneg (x : float) : Prop := exists q, x = Fin q /\ (0 <= q)%Q.

(** The rational a finite double stands for. *)
Definition rational (x : float) : Q :=
  match x with Fin q => q | _ => 0%Q end.

(** What lines 64-66 and 79-81 write on an edge: an update of the
    attributes, which keeps the endpoints. *)
Definition update_edge (upd : Edge.t -> Edge.t) (e : edge) : edge :=
  (edge_src e, edge_dst e, upd (edge_data e)).

Definition normalize (total : float) (d : Edge.t) : float :=
  if fgt0 total then fdiv (get_qty d) total else Fin 0.

Definition weight_update (total : float) (d : Edge.t) : Edge.t :=
  Edge.mk (Edge.qty d) (Some (normalize total d)) (Edge.inv_weight d).

Definition with_weight (total : float) : edge -> edge :=
  update_edge (weight_update total).

Definition invert (d : Edge.t) : float :=
  if fgt0 (get_weight (Fin 0) d)
  then fdiv (Fin 1) (get_weight (Fin 0) d)
  else sentinel.

Definition inv_weight_update (d : Edge.t) : Edge.t :=
  Edge.mk (Edge.qty d) (Edge.weight d) (Some (invert d)).

Definition with_inv_weight : edge -> edge := update_edge inv_weight_update.

(** The graph after lines 64-66, and the graph the function leaves. *)
Definition normalized (G : Graph) : Graph :=
  mkGraph (directed G) (nodes G) (map (with_weight (total_weight G)) (adj G)).

Definition annotated (G : Graph) : Graph :=
  mkGraph (directed G) (nodes G)
    (map with_inv_weight (map (with_weight (total_weight G)) (adj G))).

(** The (weight, inv_weight) attributes the call left on the edges. *)
Definition distances_written (r : result (list MetricsRow * Graph))
  : list (option float * option float) :=
  match r with
  | Ok (_, G2) =>
      map (fun e => (Edge.weight (edge_data e),
                     Edge.inv_weight (edge_data e)))
          (adj G2)
  | Err _ => []
  end.

(** Lines 74-77 on a number. *)
Definition vulnerability_formula (in_deg : float) : float :=
  if fne0 in_deg then fsub (Fin 1) in_deg else Fin 0.

(** Periods in strictly ascending order. *)
Definition ascending (l : list string) : Prop :=
  StronglySorted String_as_OT.lt l.

(** The variation series by recursion: each weight against the one before
    it, the first against a missing value. *)
Fixpoint variation_from (prev : float) (t : list (string * float))
  : list (string * float) :=
  match t with
  | [] => []
  | pw :: t' => (fst pw, variation (snd pw) prev) :: variation_from (snd pw) t'
  end.

(** What summing a one-row group again gives (line 115). *)
Definition resum (pw : string * float) : string * float :=
  (fst pw, series_sum [snd pw]).

(** ** Example data *)

(** A stand-in for [pow] at exponents that are not integers, for the
    examples: what they show does not depend on it. *)
Definition no_libm (x y : float) : float := NaN.

(** Stand-ins for the centrality collaborators, for the examples. *)
Definition no_centrality (G : Graph) (n : node) : float := NaN.

Definition flow (s t p prod : string) (v v2 : Q) : Row.t :=
  Row.mk s t p prod (Fin v) (Fin v2) (Fin v).

Definition two_values_columns : list string :=
  ["source"; "target"; "period"; "product"; "value"; "value2"].

Definition weight_columns : list string :=
  ["source"; "target"; "period"; "product"; "value"; "weight"].

(** Three suppliers of B at different unit prices (4, 2 and 1). *)
Definition three_suppliers : TerraDataset :=
  mkDataset
    (mkFrame two_values_columns
       [flow "A" "B" "2020" "P1" 4 1;
        flow "C" "B" "2020" "P1" 2 1;
        flow "D" "B" "2020" "P1" 2 2])
    None.

(** Two suppliers of B; A carries all of [value2]. *)
Definition sole_quantity_supplier : TerraDataset :=
  mkDataset
    (mkFrame two_values_columns
       [flow "A" "B" "2020" "P1" 10 10;
        flow "C" "B" "2020" "P1" 5 0])
    None.

(** A is the only supplier of B. *)
Definition only_supplier : TerraDataset :=
  mkDataset
    (mkFrame two_values_columns
       [flow "A" "B" "2020" "P1" 10 10;
        flow "A" "C" "2020" "P1" 5 1])
    None.

(** A exports to B, with a weight column. *)
Definition one_export : TerraDataset :=
  mkDataset (mkFrame weight_columns [flow "A" "B" "2020" "P1" 10 10]) None.

(** A exports to B and C in 2020, to B in 2021. *)
Definition two_periods : TerraDataset :=
  mkDataset
    (mkFrame weight_columns
       [flow "A" "B" "2021" "P1" 45 45;
        flow "A" "B" "2020" "P1" 10 10;
        flow "A" "C" "2020" "P1" 20 20])
    None.

Definition qty_edge (u v : node) (q : Q) : edge :=
  (u, v, Edge.mk (Some (Fin q)) None None).

(** A directed graph whose only edge carries no quantity. *)
Definition zero_digraph : Graph :=
  mkGraph true ["A"; "B"] [qty_edge "A" "B" 0].

(** The same graph, undirected. *)
Definition zero_graph : Graph :=
  mkGraph false ["A"; "B"] [qty_edge "A" "B" 0].

(** Two reciprocal flows of 10 and 5. *)
Definition reciprocal_digraph : Graph :=
  mkGraph true ["A"; "B"] [qty_edge "A" "B" 10; qty_edge "B" "A" 5].

(** ** Vocabulary of the further properties *)

(** [x <= y] on finite doubles. *)
Definition fle (x y : float) : Prop :=
  match x, y with
  | Fin a, Fin b => (a <= b)%Q
  | _, _ => False
  end.

(** The table [analyze_basket] works on (swapped for "I"), and the rows left
    by its three filters (lines 100, 104 and 108). *)
Definition working_frame (df : TerraDataset) (direction : string)
  : DataFrame :=
  if existsb (String.eqb direction) ["I"]
  then swap_source_target (data df)
  else data df.

Definition keep_if (arg : option string) (col : Row.t -> string)
    (l : list Row.t) : list Row.t :=
  if truthy arg then filter (fun r => col r =? fmt arg) l else l.

Definition basket_rows (d : DataFrame) (country : string)
    (partner product : option string) : list Row.t :=
  keep_if partner Row.target
    (keep_if product Row.product
       (filter (fun r => Row.source r =? country) (rows d))).

(** The ordered pair an edge joins. *)
Definition edge_key (e : edge) : node * node := (edge_src e, edge_dst e).

(** The step of [from_pandas_edgelist] on one row. *)
Definition add_row (edge_attr : bool) (G : Graph) (r : Row.t) : Graph :=
  add_edge G (Row.source r) (Row.target r)
           (if edge_attr then Some (Row.weight r) else None).

(** The weight attribute of the edge from [u] to [v], if there is one. *)
Definition edge_weight (G : Graph) (u v : node) : option float :=
  match find (same_edge u v) (adj G) with
  | Some e => Edge.weight (edge_data e)
  | None => None
  end.

(** The last row of a table from [u] to [v]. *)
Definition last_row (u v : node) (l : list Row.t) : option Row.t :=
  find (fun r => (Row.source r =? u) && (Row.target r =? v)) (rev l).

(** What holds of the graph after any number of rows. *)
Record built (G : Graph) : Prop := {
  built_directed : directed G = true;
  built_nodes : NoDup (nodes G);
  built_keys : NoDup (map edge_key (adj G));
  built_ends : forall u v, In (u, v) (map edge_key (adj G)) ->
                           In u (nodes G) /\ In v (nodes G)
}.

(** The graph [analyze_network] builds for a period. *)
Definition period_graph (df : TerraDataset) (p : string) : Graph :=
  let df_p := select (fun r => Row.period r =? p) (data df) in
  from_pandas_edgelist df_p (has_column "weight" df_p).

(** The (Period, Node) columns of a metrics table. *)
Definition table_keys (t : list MetricsRow) : list (string * node) :=
  map (fun row => (Period row, Node row)) t.

(** Periods in ascending order, repeats allowed. *)
Definition period_le (a b : string) : Prop := a = b \/ String_as_OT.lt a b.

(** The table of a directed graph, row by row. *)
Definition metrics_rows (clos betw dist : Graph -> node -> float)
    (G : Graph) (p : string) : list MetricsRow :=
  map (fun n =>
         mkMetrics p n (degree (normalized G) n)
           (Some (out_degree (normalized G) n))
           (Some (in_degree (normalized G) n))
           (vulnerability_formula (in_degree (normalized G) n))
           (clos (annotated G) n) (betw (annotated G) n)
           (dist (annotated G) n))
      (nodes G).

(** A graph with the attributes of every edge rewritten by [upd]. *)
Definition updated (upd : Edge.t -> Edge.t) (G : Graph) : Graph :=
  mkGraph (directed G) (nodes G) (map (update_edge upd) (adj G)).

(** A degree column as numbers (None reads as missing). *)
Definition degree_value (o : option float) : float :=
  match o with Some x => x | None => NaN end.

(** The quantity of an edge as a rational. *)
Definition qty_q (e : edge) : Q := rational (get_qty (edge_data e)).

(** Every edge carries a finite, non-negative quantity. *)
Definition quantities (G : Graph) : Prop :=
  Forall (fun e => fnonneg (get_qty (edge_data e))) (adj G).

(** The share of the total leaving and entering a node. *)
Definition out_share (G : Graph) (t : Q) (n : node) : Q :=
  Qsum (map (fun e => qty_q e / t)
            (filter (fun e => edge_src e =? n) (adj G))).

Definition in_share (G : Graph) (t : Q) (n : node) : Q :=
  Qsum (map (fun e => qty_q e / t)
            (filter (fun e => edge_dst e =? n) (adj G))).

Definition key_lt (a b : trade_key) : Prop := compare_key a b = Lt.

Definition reverse_key (k : trade_key) : trade_key :=
  let '(s, t, p, prod) := k in (t, s, p, prod).

(** The table as the analyses read it. *)
Definition as_data (df : TradeFrame) : DataFrame :=
  mkFrame (trade_columns df) (map Trade.row (trade_rows df)).

Definition with_mode (m : string) (s : Loader) : Loader :=
  mkLoader (trade_to_network s) m (imp_exp s) (two_values s).

(** The import records as reported, then the export records with source
    and target exchanged. *)
Definition mirrored (imp exp : string) (l : list Trade.t) : list Trade.t :=
  labelled imp l ++ map swap_trade (labelled exp l).

(** The records of a group. *)
Definition group (k : trade_key) (l : list Trade.t) : list Trade.t :=
  filter (fun r => key_eqb compare_key (key_of_trade r) k) l.

(** The columns the conversion needs of the file. *)
Definition convertible (s : Loader) (df : TradeFrame) : bool :=
  has_trade_column "flow" df
  && forallb (fun k => has_trade_column k df) (required_keys s).

(** The columns of the converted table. *)
Definition network_columns (s : Loader) : list string :=
  if mode s =? "both"
  then ["source"; "target"; "period"; "product"; "value"]
       ++ (if two_values s then ["value2"] else [])
  else required_keys s.

(** A comparison that decides equality and orders the keys. *)
Record cmp_order {K : Type} (cmp : K -> K -> comparison) : Prop := {
  cmp_eq : forall a b, cmp a b = Eq <-> a = b;
  cmp_lt_trans : forall a b c, cmp a b = Lt -> cmp b c = Lt -> cmp a c = Lt;
  cmp_gt_lt : forall a b, cmp a b = Gt -> cmp b a = Lt
}.

(** ** Further example data *)

(** Example: A reports an import from B, B reports the mirror export, and
    A reports an export to C. *)
Definition flow_columns : list string :=
  ["source"; "target"; "period"; "product"; "value"; "flow"].

Definition mirror_flows : TradeFrame :=
  mkTrade flow_columns
    [Trade.mk "I" (flow "A" "B" "2020" "P1" 10 10);
     Trade.mk "E" (flow "B" "A" "2020" "P1" 14 14);
     Trade.mk "E" (flow "A" "C" "2020" "P1" 5 5)].

Definition network_loader (m : string) : Loader :=
  mkLoader true m ["I"; "E"] false.

Definition no_message (keys cols : list string) : string := "not in index".

(** The dataset [three_suppliers] after the removal of A at sigma = 2. *)
Definition three_suppliers_shocked : TerraDataset :=
  mkDataset (data three_suppliers)
    (Some (shock_table no_libm 2 "A" (inv_exp_of 2)
             (basket three_suppliers "B" "2020"))).

(** An update that overwrites the weight and drops the distance. *)
Definition overwrite_weight (d : Edge.t) : Edge.t :=
  Edge.mk (Edge.qty d) (Some (Fin 7)) None.

(** Two suppliers of B; the one that stays, C, delivers at value 0 (price
    0): after the removal of A the post-shock weights sum to zero. *)
Definition zero_price_supplier : TerraDataset :=
  mkDataset
    (mkFrame two_values_columns
       [flow "A" "B" "2020" "P1" 10 10;
        flow "C" "B" "2020" "P1" 0 5])
    None.

(** A dataset without rows. *)
Definition no_rows : TerraDataset := mkDataset (mkFrame weight_columns []) None.

(** Three nodes: B receives from A and C, A receives from B, C receives
    nothing. *)
Definition three_node_digraph : Graph :=
  mkGraph true ["A"; "B"; "C"]
    [qty_edge "A" "B" 10; qty_edge "C" "B" 5; qty_edge "B" "A" 5].

(** * Properties *)

(** ** The dataset object across calls *)

Lemma analyze_basket_import_state df country partner product var :
  snd (analyze_basket df country partner product var "I")
  = mkDataset (swap_source_target (data df)) (simulation df).
Proof. reflexivity. Qed.

Lemma analyze_basket_export_state df country partner product var :
  snd (analyze_basket df country partner product var "E") = df.
Proof. reflexivity. Qed.

(** C3 (fails on the code): after [analyze_basket(ds, "B", direction="I")]
    the dataset object holds the swapped table, so the swap is observable
    after the call: the same call made again no longer finds the country. *)
Theorem analyze_basket_swap_persists :
  let first := analyze_basket one_export "B" None None false "I" in
  fst first = Ok [("2020", Fin (0 + 10))]
  /\ rows (data (snd first)) = [flow "B" "A" "2020" "P1" 10 10]
  /\ rows (data (snd first)) <> rows (data one_export)
  /\ fst (analyze_basket (snd first) "B" None None false "I")
     = Err (not_present "Country" "B" "I").
Proof.
  repeat split; try reflexivity.
  discriminate.
Qed.

Lemma getattr_empty df : getattr df "empty" = Err (no_attribute "empty").
Proof. reflexivity. Qed.

(** What a successful [simulate_shock] went through, and what it built. *)
Lemma inv_exp_value sigma :
  sigma <> 1%Z ->
  py_div (Fin 1) (Fin (inject_Z (1 - sigma))) = Ok (inv_exp_of sigma).
Proof.
  intros Hs. unfold py_div, inv_exp_of, fdiv.
  destruct (Qeq_bool (inject_Z (1 - sigma)) 0) eqn:Hz; [|reflexivity].
  apply Qeq_bool_eq in Hz. unfold Qeq, inject_Z, Qnum, Qden in Hz. lia.
Qed.

Lemma inv_exp_singular :
  py_div (Fin 1) (Fin (inject_Z (1 - 1)))
  = Err (ZeroDivisionError "division by zero").
Proof. reflexivity. Qed.

Lemma rows_select f d : rows (select f d) = filter f (rows d).
Proof. reflexivity. Qed.

Lemma has_column_select c f d : has_column c (select f d) = has_column c d.
Proof. reflexivity. Qed.

Lemma empty_select f d : empty (select f d) = is_empty (filter f (rows d)).
Proof. reflexivity. Qed.

Lemma simulate_shock_ok_inv pw df cf ct p product sigma df' :
  simulate_shock pw df cf ct p product sigma = Ok df' ->
  truthy product = false
  /\ sigma <> 1%Z
  /\ has_column "value2" (data df) = true
  /\ is_empty (period_rows df p) = false
  /\ is_empty (other_suppliers df cf ct p) = false
  /\ df' = mkDataset (data df)
             (Some (shock_table pw sigma cf (inv_exp_of sigma)
                                (basket df ct p))).
Proof.
  unfold simulate_shock, other_suppliers, basket, period_rows.
  rewrite empty_select.
  destruct (is_empty (filter (fun r => Row.period r =? p) (rows (data df))))
    eqn:Hperiod; [discriminate|].
  destruct (truthy product) eqn:Hprod.
  { rewrite getattr_empty. discriminate. }
  unfold groupby_flow_sum. rewrite !has_column_select.
  destruct (has_column "value2" (data df)) eqn:Hcol; [|discriminate].
  cbn [bind]. rewrite empty_select, !rows_select.
  destruct (is_empty (filter _ (filter _ _))) eqn:Hother; [discriminate|].
  rewrite !has_column_select, Hcol. cbn [negb].
  destruct (Z.eq_dec sigma 1) as [->|Hs];
    [rewrite inv_exp_singular; discriminate|].
  rewrite (inv_exp_value sigma Hs). cbn [bind].
  intros H. injection H as <-. repeat split; auto.
Qed.

Lemma simulate_shock_ok pw df cf ct p product sigma :
  truthy product = false ->
  sigma <> 1%Z ->
  has_column "value2" (data df) = true ->
  is_empty (other_suppliers df cf ct p) = false ->
  simulate_shock pw df cf ct p product sigma
  = Ok (mkDataset (data df)
          (Some (shock_table pw sigma cf (inv_exp_of sigma)
                             (basket df ct p)))).
Proof.
  intros Hprod Hs Hcol Hother.
  assert (Hperiod : is_empty (period_rows df p) = false).
  { unfold other_suppliers in Hother.
    destruct (period_rows df p); [discriminate|reflexivity]. }
  revert Hperiod Hother.
  unfold simulate_shock, other_suppliers, basket, period_rows, groupby_flow_sum.
  rewrite !empty_select, !has_column_select, !rows_select, Hcol, Hprod.
  intros -> Hother. cbn [bind]. rewrite empty_select, !rows_select, Hother.
  rewrite !has_column_select, Hcol.
  cbn [negb]. rewrite (inv_exp_value sigma Hs). reflexivity.
Qed.

(** [simulate_shock] works on a copy: the returned dataset has the table it
    was given. *)
Lemma simulate_shock_keeps_data pw df cf ct p product sigma df' :
  simulate_shock pw df cf ct p product sigma = Ok df' ->
  data df' = data df.
Proof.
  intros H. apply simulate_shock_ok_inv in H.
  destruct H as (_ & _ & _ & _ & _ & ->). reflexivity.
Qed.

(** ** The product filter of simulate_shock *)

(** C4 (fails on the code): with a product given and rows in the period, the
    emptiness test of line 174 reads [df.empty] on the dataset object, which
    has no such attribute: the call raises AttributeError, whether or not the
    product is present, and never the ValueError naming the product. *)
Theorem simulate_shock_product_attribute_error
    pw df cf ct p product sigma :
  truthy product = true ->
  empty (select (fun r => Row.period r =? p) (data df)) = false ->
  simulate_shock pw df cf ct p product sigma
  = Err (no_attribute "empty").
Proof.
  intros Hp Hperiod. unfold simulate_shock.
  rewrite Hperiod, Hp, getattr_empty. reflexivity.
Qed.

Lemma simulate_shock_product_attribute_error_witness :
  simulate_shock no_libm three_suppliers "A" "B" "2020" (Some "P2") 5
  = Err (AttributeError "'TerraDataset' object has no attribute 'empty'").
Proof.
  apply (simulate_shock_product_attribute_error
           no_libm three_suppliers "A" "B" "2020" (Some "P2") 5);
    reflexivity.
Defined.

Lemma simulate_shock_period_missing pw df cf ct p product sigma :
  empty (select (fun r => Row.period r =? p) (data df)) = true ->
  simulate_shock pw df cf ct p product sigma
  = Err (ValueError ("Period " ++ p ++ " is not present in the dataset.")).
Proof.
  intros H. unfold simulate_shock. rewrite H. reflexivity.
Qed.

(** ** The sole-supplier check *)

(** C6 (as amended): with the product omitted, on a table that has the period
    and the [value2] column, the call raises the not-applicable ValueError
    exactly when no row of the period has the importer as target and another
    source; when there is such a row (and sigma is not 1) it returns a
    result, whatever the quantities are. *)
Theorem simulate_shock_sole_supplier pw df cf ct p product sigma :
  truthy product = false ->
  has_column "value2" (data df) = true ->
  is_empty (period_rows df p) = false ->
  (is_empty (other_suppliers df cf ct p) = true ->
   simulate_shock pw df cf ct p product sigma = Err (not_applicable cf ct))
  /\ (is_empty (other_suppliers df cf ct p) = false ->
      sigma <> 1%Z ->
      is_ok (simulate_shock pw df cf ct p product sigma) = true
      /\ simulate_shock pw df cf ct p product sigma
         <> Err (not_applicable cf ct)).
Proof.
  intros Hprod Hcol Hperiod. split; intros Hother.
  - revert Hperiod Hother.
    unfold simulate_shock, other_suppliers, period_rows, groupby_flow_sum.
    rewrite !empty_select, !has_column_select, Hcol, Hprod.
    intros -> Hother. cbn [bind]. rewrite empty_select, !rows_select, Hother.
    reflexivity.
  - intros Hs.
    rewrite (simulate_shock_ok pw df cf ct p product sigma); auto.
    split; [reflexivity|discriminate].
Qed.

Lemma simulate_shock_sole_supplier_witness :
  simulate_shock no_libm only_supplier "A" "B" "2020" None 5
  = Err (ValueError
           "Simulation not applicable, since there is only A as supplier for B.").
Proof.
  apply (simulate_shock_sole_supplier
           no_libm only_supplier "A" "B" "2020" None 5);
    reflexivity.
Defined.

(** C6 (as stated, fails): A carries all of [value2] among the two suppliers
    of B, and removing A is not rejected: the row of C is there, so the call
    returns a table. *)
Lemma sole_quantity_supplier_not_rejected :
  series_sum (map Row.value2 (basket sole_quantity_supplier "B" "2020"))
     = Fin (0 + 10 + 0)
  /\ is_value_error
       (simulate_shock no_libm sole_quantity_supplier "A" "B" "2020" None 5)
     = false
  /\ is_ok
       (simulate_shock no_libm sole_quantity_supplier "A" "B" "2020" None 5)
     = true.
Proof. repeat split. Qed.

(** The same for every [pow]. *)
Lemma sole_quantity_supplier_returns pw :
  is_ok (simulate_shock pw sole_quantity_supplier "A" "B" "2020" None 5)
  = true.
Proof.
  rewrite (simulate_shock_ok pw sole_quantity_supplier "A" "B" "2020" None 5);
    try reflexivity.
  lia.
Qed.

(** ** The degenerate numeric branches *)

Lemma post_weight_shock_row pw sigma cf inv rs r :
  post_weight sigma (shock_row pw sigma cf inv rs r)
  = weight_post sigma cf rs r.
Proof. reflexivity. Qed.

Lemma post_weights_table pw sigma cf inv rs :
  map (post_weight sigma) (shock_table pw sigma cf inv rs)
  = map (weight_post sigma cf rs) rs.
Proof.
  unfold shock_table. rewrite map_map. apply map_ext. intros r.
  apply post_weight_shock_row.
Qed.

(** C7: once the checks pass (product omitted, [value2] present, another
    supplier in the period, sigma not 1) the call returns a table.  In it
    every [share_post] is 0 when the post-shock weights sum to exactly zero
    and is the quotient by that sum only when the sum is not zero; [q_new]
    is 0 on every row whose price is 0 and is the quotient by the price only
    when the price is not zero. *)
Theorem simulate_shock_degenerate_branches pw df cf ct p product sigma :
  truthy product = false ->
  has_column "value2" (data df) = true ->
  is_empty (other_suppliers df cf ct p) = false ->
  sigma <> 1%Z ->
  exists sim,
    simulate_shock pw df cf ct p product sigma
    = Ok (mkDataset (data df) (Some sim))
    /\ (fne0 (series_sum (map (post_weight sigma) sim)) = false ->
        Forall (fun x => share_post x = Fin 0) sim)
    /\ (fne0 (series_sum (map (post_weight sigma) sim)) = true ->
        Forall (fun x =>
                  share_post x
                  = fdiv (post_weight sigma x)
                         (series_sum (map (post_weight sigma) sim)))
               sim)
    /\ Forall (fun x => fne0 (price x) = false -> q_new x = Fin 0) sim
    /\ Forall (fun x =>
                 fne0 (price x) = true ->
                 q_new x
                 = fdiv (fmul (share_post x)
                              (E_new pw sigma cf (inv_exp_of sigma)
                                     (basket df ct p)))
                        (price x))
              sim.
Proof.
  intros Hprod Hcol Hother Hs.
  eexists. split; [apply simulate_shock_ok; assumption|].
  rewrite post_weights_table. unfold shock_table.
  split; [|split; [|split]].
  - intros Hzero. apply Forall_forall. intros x Hx.
    apply in_map_iff in Hx. destruct Hx as (r & <- & _).
    cbn [share_post shock_row]. unfold share_post_of. rewrite Hzero.
    reflexivity.
  - intros Hnz. apply Forall_forall. intros x Hx.
    apply in_map_iff in Hx. destruct Hx as (r & <- & _).
    rewrite post_weight_shock_row.
    cbn [share_post shock_row]. unfold share_post_of. rewrite Hnz.
    reflexivity.
  - apply Forall_forall. intros x Hx.
    apply in_map_iff in Hx. destruct Hx as (r & <- & _).
    cbn [price q_new shock_row]. unfold q_new_of. intros ->. reflexivity.
  - apply Forall_forall. intros x Hx.
    apply in_map_iff in Hx. destruct Hx as (r & <- & _).
    cbn [price q_new share_post shock_row]. unfold q_new_of. intros ->.
    reflexivity.
Qed.

(** ** The aggregate that is dropped *)

(** C10: with the product omitted, a call that returns has computed the
    per-(source, target, product) sums, and its table is the CES table of the
    rows of the period with the importer as target, one row each, as they
    stand in the dataset: the sums are not used. *)
Theorem simulate_shock_ignores_aggregate pw df cf ct p sigma df' :
  simulate_shock pw df cf ct p None sigma = Ok df' ->
  (exists agg,
      groupby_flow_sum (select (fun r => Row.period r =? p) (data df))
      = Ok agg)
  /\ exists sim,
      simulation df' = Some sim
      /\ map base sim
         = filter (fun r => Row.target r =? ct)
             (filter (fun r => Row.period r =? p) (rows (data df)))
      /\ sim = shock_table pw sigma cf (inv_exp_of sigma)
                 (filter (fun r => Row.target r =? ct)
                    (filter (fun r => Row.period r =? p) (rows (data df)))).
Proof.
  intros H. apply simulate_shock_ok_inv in H.
  destruct H as (_ & _ & Hcol & _ & _ & ->). split.
  - unfold groupby_flow_sum. rewrite has_column_select, Hcol. eauto.
  - eexists. split; [reflexivity|]. split; [|reflexivity].
    unfold basket, period_rows, shock_table. rewrite map_map.
    cbn [base shock_row]. apply map_id.
Qed.

Lemma simulate_shock_degenerate_branches_witness :
  exists sim,
    simulate_shock no_libm zero_price_supplier "A" "B" "2020" None 2
    = Ok (mkDataset (data zero_price_supplier) (Some sim))
    /\ map (fun x => Row.source (base x)) sim = ["A"; "C"]
    /\ fne0 (series_sum (map (post_weight 2) sim)) = false
    /\ map share_post sim = [Fin 0; Fin 0]
    /\ map (fun x => fne0 (price x)) sim = [true; false]
    /\ (forall x, nth_error sim 1 = Some x -> q_new x = Fin 0).
Proof.
  destruct (simulate_shock_degenerate_branches
              no_libm zero_price_supplier "A" "B" "2020" None 2)
    as (sim & Hsim & Hzero & _ & Hprice & _);
    try reflexivity.
  - lia.
  - exists sim. split; [exact Hsim|].
    assert (Hrows : map (fun x => Row.source (base x)) sim = ["A"; "C"]
                    /\ fne0 (series_sum (map (post_weight 2) sim)) = false
                    /\ map (fun x => fne0 (price x)) sim = [true; false]).
    { vm_compute in Hsim. injection Hsim as <-.
      repeat split; vm_compute; reflexivity. }
    destruct Hrows as (Hsrc & Hsum & Hpr).
    split; [exact Hsrc|]. split; [exact Hsum|].
    specialize (Hzero Hsum).
    destruct sim as [|a [|c [|z sim]]]; try discriminate.
    inversion Hzero as [|? ? Ha Hzero']; subst.
    inversion Hzero' as [|? ? Hc _]; subst.
    inversion Hprice as [|? ? _ Hprice']; subst.
    inversion Hprice' as [|? ? Hqc _]; subst.
    cbn [map] in *. rewrite Ha, Hc.
    split; [reflexivity|]. split; [exact Hpr|].
    intros x [= <-]. apply Hqc. injection Hpr as _ Hpc. exact Hpc.
Defined.

Lemma simulate_shock_ignores_aggregate_witness :
  exists sim,
    simulation (mkDataset (data three_suppliers)
                  (Some (shock_table no_libm 2 "A" (inv_exp_of 2)
                           (basket three_suppliers "B" "2020"))))
    = Some sim
    /\ map base sim = rows (data three_suppliers).
Proof.
  destruct (simulate_shock_ignores_aggregate
              no_libm three_suppliers "A" "B" "2020" 2
              (mkDataset (data three_suppliers)
                 (Some (shock_table no_libm 2 "A" (inv_exp_of 2)
                          (basket three_suppliers "B" "2020")))))
    as (_ & sim & Hsim & Hbase & _).
  - vm_compute. reflexivity.
  - exists sim. split; [exact Hsim|exact Hbase].
Defined.

(** ** Sequencing of fallible steps *)

Lemma map_result_total {A B : Type} (f : A -> result B) (g : A -> B) l :
  (forall a, In a l -> f a = Ok (g a)) ->
  map_result f l = Ok (map g l).
Proof.
  induction l as [|a l IH]; intros H; [reflexivity|].
  cbn [map_result map]. rewrite (H a (or_introl eq_refl)). cbn [bind].
  rewrite IH; [reflexivity|]. intros b Hb. apply H. right. exact Hb.
Qed.

Lemma map_result_inv {A B : Type} (f : A -> result B) l bs :
  map_result f l = Ok bs -> Forall2 (fun a b => f a = Ok b) l bs.
Proof.
  revert bs. induction l as [|a l IH]; intros bs H.
  - injection H as <-. constructor.
  - cbn [map_result] in H. destruct (f a) as [b|e] eqn:Hf; [|discriminate].
    cbn [bind] in H. destruct (map_result f l) as [bs'|e]; [|discriminate].
    injection H as <-. constructor; auto.
Qed.

Lemma zip_with_map_r {A B C : Type} (f : A -> B -> C) (g : A -> B) l :
  zip_with f l (map g l) = map (fun a => f a (g a)) l.
Proof.
  induction l as [|a l IH]; [reflexivity|].
  cbn [map zip_with]. f_equal. exact IH.
Qed.

(** ** Doubles *)

Lemma fgt0_divisor x total :
  fgt0 total = true -> py_div x total = Ok (fdiv x total).
Proof.
  destruct total as [t| | |]; try discriminate; [|reflexivity].
  unfold fgt0, py_div. intros H.
  destruct (Qeq_bool t 0) eqn:Hz; [|reflexivity].
  apply Qeq_bool_eq in Hz. apply negb_true_iff in H.
  assert (Hle : Qle_bool t 0 = true)
    by (apply Qle_bool_iff; rewrite Hz; apply Qle_refl).
  congruence.
Qed.

Lemma sentinel_is_infinite : sentinel = PInf.
Proof. vm_compute. reflexivity. Qed.

(** ** Normalisation and the distance attribute never raise *)

Lemma normalized_weight_ok total d :
  normalized_weight total d = Ok (normalize total d).
Proof.
  unfold normalized_weight, normalize.
  destruct (fgt0 total) eqn:H; [|reflexivity].
  apply fgt0_divisor. exact H.
Qed.

Lemma set_weights_ok G :
  set_weights G
  = Ok (mkGraph (directed G) (nodes G)
          (map (with_weight (total_weight G)) (adj G))).
Proof.
  unfold set_weights.
  rewrite (map_result_total _ (with_weight (total_weight G))).
  - reflexivity.
  - intros e _. unfold set_weight. rewrite normalized_weight_ok. reflexivity.
Qed.

Lemma inverse_weight_ok d : inverse_weight d = Ok (invert d).
Proof.
  unfold inverse_weight, invert.
  destruct (fgt0 (get_weight (Fin 0) d)) eqn:H; [|reflexivity].
  apply fgt0_divisor. exact H.
Qed.

Lemma set_inv_weights_ok G :
  set_inv_weights G
  = Ok (mkGraph (directed G) (nodes G) (map with_inv_weight (adj G))).
Proof.
  unfold set_inv_weights. rewrite (map_result_total _ with_inv_weight).
  - reflexivity.
  - intros e _. unfold set_inv_weight. rewrite inverse_weight_ok. reflexivity.
Qed.

Section MetricsFacts.
Variables clos betw dist : Graph -> node -> float.

Lemma calculate_node_metrics_inv G p rows G2 :
  calculate_node_metrics clos betw dist G p = Ok (rows, G2) ->
  G2 = annotated G
  /\ exists vul,
      Forall2 (fun n v =>
                 vulnerability_of
                   (if directed G then Some (in_degree (normalized G) n)
                    else None) = Ok v)
              (nodes G) vul
      /\ rows = zip_with
                  (fun n v =>
                     mkMetrics p n (degree (normalized G) n)
                       (if directed G then Some (out_degree (normalized G) n)
                        else None)
                       (if directed G then Some (in_degree (normalized G) n)
                        else None)
                       v (clos (annotated G) n) (betw (annotated G) n)
                       (dist (annotated G) n))
                  (nodes G) vul.
Proof.
  unfold calculate_node_metrics. rewrite set_weights_ok. cbn [bind].
  fold (normalized G). cbn [directed nodes normalized].
  destruct (map_result _ (nodes G)) as [vul|e] eqn:Hvul; [|discriminate].
  cbn [bind]. rewrite set_inv_weights_ok. cbn [bind].
  change (mkGraph (directed (normalized G)) (nodes (normalized G))
            (map with_inv_weight (adj (normalized G))))
    with (annotated G).
  intros H. injection H as <- <-. split; [reflexivity|].
  exists vul. split; [|reflexivity].
  apply map_result_inv in Hvul. exact Hvul.
Qed.

Lemma calculate_node_metrics_directed G p :
  directed G = true ->
  exists rows,
    calculate_node_metrics clos betw dist G p = Ok (rows, annotated G)
    /\ map Node rows = nodes G.
Proof.
  intros Hd. unfold calculate_node_metrics. rewrite set_weights_ok.
  cbn [bind]. fold (normalized G). cbn [directed nodes normalized].
  rewrite Hd.
  rewrite (map_result_total _
             (fun n => vulnerability_formula (in_degree (normalized G) n))).
  2:{ intros n _. unfold vulnerability_of, vulnerability_formula.
      destruct (fne0 _); reflexivity. }
  cbn [bind]. rewrite set_inv_weights_ok. cbn [bind].
  eexists. split; [reflexivity|].
  cbn [nodes]. rewrite zip_with_map_r, map_map. cbn [Node]. apply map_id.
Qed.
End MetricsFacts.

(** ** Lists of edges under the attribute updates *)

Lemma filter_map_comm {A B : Type} (f : A -> B) (q : B -> bool) l :
  filter q (map f l) = map f (filter (fun a => q (f a)) l).
Proof.
  induction l as [|a l IH]; [reflexivity|].
  cbn [map filter]. destruct (q (f a)); cbn [map]; rewrite IH; reflexivity.
Qed.

Lemma flat_map_map_comm {A B C : Type} (f : B -> C) (g : A -> list B) l :
  flat_map (fun a => map f (g a)) l = map f (flat_map g l).
Proof.
  induction l as [|a l IH]; [reflexivity|].
  cbn [flat_map]. rewrite map_app, IH. reflexivity.
Qed.

Section EdgeUpdate.
(** An update of the attributes that keeps the endpoints. *)
Variable upd : Edge.t -> Edge.t.

Lemma incident_update n es :
  flat_map (incident n) (map (update_edge upd) es)
  = map (fun nd => (fst nd, upd (snd nd))) (flat_map (incident n) es).
Proof.
  induction es as [|e es IH]; [reflexivity|].
  cbn [map flat_map]. rewrite map_app, IH. f_equal.
  unfold incident, update_edge, edge_src, edge_dst, edge_data.
  cbn [fst snd].
  destruct (fst (fst e) =? n); [reflexivity|].
  destruct (snd (fst e) =? n); reflexivity.
Qed.

Lemma undirected_edges_update ns seen es :
  undirected_edges ns seen (map (update_edge upd) es)
  = map (update_edge upd) (undirected_edges ns seen es).
Proof.
  revert seen. induction ns as [|n ns IH]; intros seen; [reflexivity|].
  cbn [undirected_edges]. rewrite map_app, IH, incident_update. f_equal.
  rewrite filter_map_comm, !map_map. reflexivity.
Qed.

Lemma edges_update G :
  edges (mkGraph (directed G) (nodes G) (map (update_edge upd) (adj G)))
  = map (update_edge upd) (edges G).
Proof.
  unfold edges. cbn [directed nodes adj]. destruct (directed G).
  - rewrite <- flat_map_map_comm. apply flat_map_ext. intros n.
    rewrite filter_map_comm. reflexivity.
  - apply undirected_edges_update.
Qed.

Lemma in_edges_update (q : edge -> bool) (h : Edge.t -> float) es :
  (forall e, q ((update_edge upd) e) = q e) ->
  map (fun e => h (edge_data e)) (filter q (map (update_edge upd) es))
  = map (fun e => h (upd (edge_data e))) (filter q es).
Proof.
  intros Hq. rewrite filter_map_comm, map_map.
  rewrite (filter_ext _ q) by exact Hq. reflexivity.
Qed.
End EdgeUpdate.

Lemma edges_normalized G :
  edges (normalized G) = map (with_weight (total_weight G)) (edges G).
Proof. apply (edges_update (weight_update (total_weight G))). Qed.

Lemma in_degree_annotated G n :
  in_degree (annotated G) n = in_degree (normalized G) n.
Proof.
  unfold in_degree, annotated, normalized. cbn [adj]. f_equal.
  apply (in_edges_update inv_weight_update
           (fun e => edge_dst e =? n) (get_weight (Fin 1))).
  reflexivity.
Qed.

(** ** Sums of finite doubles *)

Lemma fold_fadd_fin (l : list Q) (a : Q) :
  fold_left fadd (map Fin l) (Fin a) = Fin (fold_left Qplus l a).
Proof.
  revert a. induction l as [|q l IH]; intros a; [reflexivity|].
  cbn [map fold_left fadd]. apply IH.
Qed.

Lemma fold_Qplus_Qsum (l : list Q) (a : Q) :
  (fold_left Qplus l a == a + Qsum l)%Q.
Proof.
  revert a. induction l as [|q l IH]; intros a; cbn [fold_left Qsum].
  - ring.
  - rewrite IH. ring.
Qed.

Lemma py_sum_fin (l : list Q) :
  exists s, py_sum (map Fin l) = Fin s /\ (s == Qsum l)%Q.
Proof.
  exists (fold_left Qplus l 0). split.
  - apply fold_fadd_fin.
  - rewrite fold_Qplus_Qsum. ring.
Qed.

(** A list of doubles that are all finite is the image of its rationals. *)
Lemma finite_as_rationals (l : list float) :
  Forall (fun x => is_finite x = true) l -> l = map Fin (map rational l).
Proof.
  induction 1 as [|x l Hx _ IH]; [reflexivity|].
  cbn [map]. rewrite <- IH. destruct x; try discriminate. reflexivity.
Qed.

Lemma series_sum_fin (l : list Q) : series_sum (map Fin l) = py_sum (map Fin l).
Proof.
  unfold series_sum. f_equal. induction l as [|q l IH]; [reflexivity|].
  cbn [map filter is_nan negb]. rewrite IH. reflexivity.
Qed.

Lemma Qsum_scale (l : list Q) (t : Q) :
  (Qsum (map (fun q => q / t) l) == Qsum l / t)%Q.
Proof.
  induction l as [|q l IH]; cbn [map Qsum].
  - unfold Qdiv. ring.
  - rewrite IH. unfold Qdiv. ring.
Qed.

Lemma fgt0_fin t : fgt0 (Fin t) = true -> (0 < t)%Q.
Proof.
  unfold fgt0. intros H. apply negb_true_iff in H.
  destruct (Qlt_le_dec 0 t) as [Hlt|Hle]; [exact Hlt|].
  apply Qle_bool_iff in Hle. congruence.
Qed.

Lemma fdiv_fin a t : (0 < t)%Q -> fdiv (Fin a) (Fin t) = Fin (a / t).
Proof.
  intros Ht. unfold fdiv. destruct (Qeq_bool t 0) eqn:Hz; [|reflexivity].
  apply Qeq_bool_eq in Hz. rewrite Hz in Ht. discriminate.
Qed.

(** ** Normalised weights *)

Lemma normalize_positive t d :
  fgt0 (Fin t) = true -> normalize (Fin t) d = fdiv (get_qty d) (Fin t).
Proof. unfold normalize. intros ->. reflexivity. Qed.

(** When the quantities are finite and their total is positive, the weights
    written on the edges sum to 1. *)
Lemma weights_sum_to_one G :
  Forall (fun e => is_finite (get_qty (edge_data e)) = true) (edges G) ->
  fgt0 (total_weight G) = true ->
  feq (py_sum (map (fun e => get_weight (Fin 0) (edge_data e))
                   (edges (normalized G))))
      (Fin 1).
Proof.
  intros Hfin Hpos. rewrite edges_normalized, map_map.
  rewrite (map_ext _ (fun e => normalize (total_weight G) (edge_data e)))
    by reflexivity.
  unfold total_weight in *.
  assert (Hq : map (fun e => get_qty (edge_data e)) (edges G)
               = map Fin (map rational
                            (map (fun e => get_qty (edge_data e)) (edges G)))).
  { apply finite_as_rationals. apply Forall_map. exact Hfin. }
  set (qs := map rational (map (fun e => get_qty (edge_data e)) (edges G)))
    in *.
  destruct (py_sum_fin qs) as (t & Ht & Hsum).
  rewrite Hq, Ht in Hpos.
  replace (py_sum (map (fun e => get_qty (edge_data e)) (edges G)))
    with (Fin t) by (rewrite Hq; symmetry; exact Ht).
  apply fgt0_fin in Hpos as Htpos.
  rewrite (map_ext _ (fun e => fdiv (get_qty (edge_data e)) (Fin t)))
    by (intros e; apply normalize_positive; exact Hpos).
  rewrite <- (map_map (fun e => get_qty (edge_data e))
                      (fun x => fdiv x (Fin t))).
  rewrite Hq, map_map.
  rewrite (map_ext _ (fun q => Fin (q / t)))
    by (intros q; apply fdiv_fin; exact Htpos).
  rewrite <- (map_map (fun q => (q / t)%Q) Fin).
  destruct (py_sum_fin (map (fun q => (q / t)%Q) qs)) as (s & -> & Hs).
  cbn [feq]. rewrite Hs, Qsum_scale, <- Hsum.
  field. intros Hz. rewrite Hz in Htpos. discriminate.
Qed.

(** Otherwise every weight is 0. *)
Lemma weights_all_zero G :
  fgt0 (total_weight G) = false ->
  Forall (fun e => Edge.weight (edge_data e) = Some (Fin 0))
         (adj (normalized G)).
Proof.
  intros Hz. apply Forall_forall. intros e He.
  unfold normalized in He. cbn [adj] in He. apply in_map_iff in He.
  destruct He as (e0 & <- & _).
  cbn [with_weight update_edge weight_update edge_data snd Edge.weight].
  unfold normalize.
  rewrite Hz. reflexivity.
Qed.

(** Each weight is the quantity over the total when the total is positive. *)
Lemma weights_are_shares G :
  fgt0 (total_weight G) = true ->
  Forall2 (fun e0 e =>
             Edge.weight (edge_data e)
             = Some (fdiv (get_qty (edge_data e0)) (total_weight G)))
          (adj G) (adj (normalized G)).
Proof.
  intros Hpos. unfold normalized. cbn [adj].
  induction (adj G) as [|e es IH]; constructor; [|exact IH].
  cbn [with_weight update_edge weight_update edge_data snd Edge.weight].
  unfold normalize.
  rewrite Hpos. reflexivity.
Qed.

(** ** Vulnerability *)

Lemma vulnerability_of_inv o v :
  vulnerability_of o = Ok v ->
  exists x, o = Some x /\ v = vulnerability_formula x.
Proof.
  destruct o as [x|]; [|discriminate].
  unfold vulnerability_of, vulnerability_formula. intros H. exists x.
  split; [reflexivity|]. destruct (fne0 x); congruence.
Qed.

Lemma Forall_zip_with {A B C : Type} (f : A -> B -> C) (R : A -> B -> Prop)
    (P : C -> Prop) l m :
  Forall2 R l m ->
  (forall a b, R a b -> P (f a b)) ->
  Forall P (zip_with f l m).
Proof.
  intros H HP. induction H; cbn [zip_with]; constructor; auto.
Qed.

Section MetricsTable.
Variables clos betw dist : Graph -> node -> float.

Lemma metrics_rows_vulnerability G p rows G2 :
  calculate_node_metrics clos betw dist G p = Ok (rows, G2) ->
  map Node rows = nodes G
  /\ Forall (fun row =>
              exists v,
                In_Degree row = Some v
                /\ v = in_degree G2 (Node row)
                /\ Vulnerability row = vulnerability_formula v)
           rows.
Proof.
  intros H. apply calculate_node_metrics_inv in H.
  destruct H as (-> & vul & Hvul & ->). split.
  - clear -Hvul. induction Hvul; [reflexivity|].
    cbn [zip_with map Node]. f_equal. assumption.
  - eapply Forall_zip_with; [exact Hvul|].
    intros n v Hv. apply vulnerability_of_inv in Hv.
    destruct Hv as (x & Hx & ->). cbn [In_Degree Vulnerability Node].
    exists x. rewrite Hx. rewrite in_degree_annotated.
    destruct (directed G); [|discriminate].
    injection Hx as <-. repeat split.
Qed.

(** C8: whenever a metrics table is produced, it has one row per node of
    the graph, in order, and on every row the in-degree is a number (the
    weighted in-degree of the node in the normalised graph) and
    Vulnerability is 1 minus it when it is not 0, and 0 when it is 0. *)
Theorem vulnerability_from_in_degree G p rows G2 :
  calculate_node_metrics clos betw dist G p = Ok (rows, G2) ->
  map Node rows = nodes G
  /\ Forall (fun row =>
              exists v,
                In_Degree row = Some v
                /\ v = in_degree G2 (Node row)
                /\ Vulnerability row
                   = (if fne0 v then fsub (Fin 1) v else Fin 0))
           rows.
Proof. apply metrics_rows_vulnerability. Qed.

(** C5 (as amended): on every edge of the graph the function leaves, the
    distance attribute is 1/weight when the weight is positive, and
    otherwise the value of the literal 1e9999, which is +infinity. *)
Theorem inverse_weight_written G p rows G2 :
  calculate_node_metrics clos betw dist G p = Ok (rows, G2) ->
  Forall (fun e =>
            exists w,
              Edge.weight (edge_data e) = Some w
              /\ Edge.inv_weight (edge_data e)
                 = Some (if fgt0 w then fdiv (Fin 1) w else PInf))
         (adj G2).
Proof.
  intros H. apply calculate_node_metrics_inv in H. destruct H as (-> & _).
  unfold annotated. cbn [adj]. rewrite map_map.
  apply Forall_forall. intros e He. apply in_map_iff in He.
  destruct He as (e0 & <- & _).
  exists (normalize (total_weight G) (edge_data e0)). split; [reflexivity|].
  cbn [with_inv_weight with_weight update_edge inv_weight_update
       weight_update edge_data snd Edge.inv_weight].
  unfold invert. cbn [get_weight Edge.weight].
  rewrite sentinel_is_infinite. reflexivity.
Qed.

(** C2 (fails on the code): on an undirected graph that has a node the
    in-degrees are None and the vulnerability loop subtracts None from 1:
    the call raises TypeError, whatever the quantities are. *)
Theorem calculate_node_metrics_undirected G p :
  directed G = false ->
  nodes G <> [] ->
  calculate_node_metrics clos betw dist G p
  = Err (TypeError
           "unsupported operand type(s) for -: 'int' and 'NoneType'").
Proof.
  intros Hd Hn. unfold calculate_node_metrics. rewrite set_weights_ok.
  cbn [bind directed nodes]. rewrite Hd.
  destruct (nodes G) as [|n l]; [contradiction|]. reflexivity.
Qed.

Lemma in_degree_zero_total G n :
  fgt0 (total_weight G) = false ->
  feq (in_degree (normalized G) n) (Fin 0).
Proof.
  intros Hz. unfold in_degree, normalized. cbn [adj].
  rewrite (in_edges_update (weight_update (total_weight G))
             (fun e => edge_dst e =? n) (get_weight (Fin 1)))
    by reflexivity.
  rewrite (map_ext _ (fun _ => Fin 0)).
  2:{ intros e. cbn [weight_update get_weight Edge.weight].
      unfold normalize. rewrite Hz. reflexivity. }
  rewrite <- (map_map (fun _ => 0%Q) Fin).
  destruct (py_sum_fin (map (fun _ : edge => 0%Q)
              (filter (fun e => edge_dst e =? n) (adj G))))
    as (s & -> & Hs).
  cbn [feq]. rewrite Hs. clear. induction (filter _ _) as [|e l IH].
  - reflexivity.
  - cbn [map Qsum]. rewrite IH. reflexivity.
Qed.

(** On a directed graph whose total is not positive the call returns, with
    in-degree 0 and Vulnerability 0 on every row. *)
Lemma zero_total_metrics G p :
  directed G = true ->
  fgt0 (total_weight G) = false ->
  exists rows,
    calculate_node_metrics clos betw dist G p = Ok (rows, annotated G)
    /\ Forall (fun row =>
                 Vulnerability row = Fin 0
                 /\ exists v, In_Degree row = Some v /\ feq v (Fin 0))
              rows.
Proof.
  intros Hd Hz.
  destruct (calculate_node_metrics_directed clos betw dist G p Hd)
    as (rows & Hrows & _).
  exists rows. split; [exact Hrows|].
  apply calculate_node_metrics_inv in Hrows.
  destruct Hrows as (_ & vul & Hvul & ->).
  eapply Forall_zip_with; [exact Hvul|].
  intros n v Hv. apply vulnerability_of_inv in Hv.
  destruct Hv as (x & Hx & ->). rewrite Hd in Hx. injection Hx as <-.
  cbn [Vulnerability In_Degree]. rewrite Hd.
  pose proof (in_degree_zero_total G n Hz) as H0. split.
  - unfold vulnerability_formula.
    destruct (in_degree (normalized G) n) as [q| | |]; try contradiction.
    cbn [feq] in H0. unfold fne0.
    apply Qeq_bool_iff in H0. rewrite H0. reflexivity.
  - eexists. split; [reflexivity|exact H0].
Qed.

(** The same on every row of [analyze_network]. *)
Lemma analyze_network_vulnerability df table :
  analyze_network clos betw dist df = Ok table ->
  Forall (fun row =>
            exists v,
              In_Degree row = Some v
              /\ Vulnerability row = vulnerability_formula v)
         table.
Proof.
  unfold analyze_network.
  destruct (map_result _ _) as [all|e] eqn:Hall; [|discriminate].
  cbn [bind]. destruct (is_empty all); [discriminate|].
  intros H. injection H as <-.
  apply map_result_inv in Hall. apply Forall_concat.
  induction Hall as [|p m ps ms Hm _ IH]; constructor; [|exact IH].
  destruct (calculate_node_metrics clos betw dist _ p) as [[rows G2]|e]
    eqn:Hc; [|discriminate].
  cbn [bind fst] in Hm. injection Hm as <-.
  apply metrics_rows_vulnerability in Hc. destruct Hc as (_ & Hc).
  eapply Forall_impl; [|exact Hc].
  intros row (v & Hin & _ & Hv). exists v. split; assumption.
Qed.
End MetricsTable.

Lemma vulnerability_from_in_degree_witness :
  exists rows,
    calculate_node_metrics no_centrality no_centrality no_centrality
      reciprocal_digraph "2020"
    = Ok (rows, annotated reciprocal_digraph)
    /\ map Node rows = ["A"; "B"]
    /\ map Vulnerability rows = [Fin (1 + - (0 + 5 / (0 + 10 + 5)));
                                 Fin (1 + - (0 + 10 / (0 + 10 + 5)))].
Proof.
  eexists. split; [vm_compute; reflexivity|].
  destruct (vulnerability_from_in_degree
              no_centrality no_centrality no_centrality
              reciprocal_digraph "2020" _ (annotated reciprocal_digraph)
              eq_refl) as (Hn & _).
  split; [exact Hn|]. vm_compute. reflexivity.
Defined.

Lemma inverse_weight_written_witness :
  Forall (fun e =>
            exists w,
              Edge.weight (edge_data e) = Some w
              /\ Edge.inv_weight (edge_data e)
                 = Some (if fgt0 w then fdiv (Fin 1) w else PInf))
         (adj (annotated zero_digraph)).
Proof.
  eapply (inverse_weight_written no_centrality no_centrality no_centrality
            zero_digraph "2020").
  vm_compute. reflexivity.
Defined.

(** C5 (as stated, fails): an edge of weight 0 gets the distance +infinity,
    which is what the literal 1e9999 denotes; it is not a finite number. *)
Lemma zero_weight_distance_is_infinite :
  float_literal 1 9999 = PInf
  /\ distances_written
       (calculate_node_metrics no_centrality no_centrality no_centrality
          zero_digraph "2020")
     = [(Some (Fin 0), Some PInf)]
  /\ is_finite PInf = false.
Proof. repeat split; vm_compute; reflexivity. Qed.

Lemma calculate_node_metrics_undirected_witness :
  total_weight zero_graph = Fin (0 + 0)
  /\ calculate_node_metrics no_centrality no_centrality no_centrality
       zero_graph "2020"
     = Err (TypeError
              "unsupported operand type(s) for -: 'int' and 'NoneType'").
Proof.
  split; [reflexivity|].
  apply (calculate_node_metrics_undirected
           no_centrality no_centrality no_centrality zero_graph "2020").
  - reflexivity.
  - discriminate.
Defined.

(** ** The graphs analyze_network builds *)

Lemma add_edge_no_qty G u v w :
  Forall (fun e => Edge.qty (edge_data e) = None) (adj G) ->
  Forall (fun e => Edge.qty (edge_data e) = None) (adj (add_edge G u v w)).
Proof.
  intros H. unfold add_edge. cbn [adj].
  destruct (existsb (same_edge u v) (adj G)).
  - apply Forall_forall. intros e He. apply in_map_iff in He.
    destruct He as (e0 & <- & He0). rewrite Forall_forall in H.
    specialize (H e0 He0). destruct (same_edge u v e0); [|exact H].
    destruct w; exact H.
  - apply Forall_app. split; [exact H|]. constructor; [|constructor].
    destruct w; reflexivity.
Qed.

Lemma from_pandas_edgelist_shape df_p edge_attr :
  directed (from_pandas_edgelist df_p edge_attr) = true
  /\ Forall (fun e => Edge.qty (edge_data e) = None)
            (adj (from_pandas_edgelist df_p edge_attr)).
Proof.
  unfold from_pandas_edgelist.
  assert (H : directed (mkGraph true [] []) = true
              /\ Forall (fun e => Edge.qty (edge_data e) = None)
                        (adj (mkGraph true [] []))).
  { split; [reflexivity|constructor]. }
  revert H. generalize (mkGraph true [] []).
  induction (rows df_p) as [|r l IH]; intros G H; [exact H|].
  cbn [fold_left]. apply IH. destruct H as (Hd & Hq). split.
  - exact Hd.
  - apply add_edge_no_qty. exact Hq.
Qed.

Lemma directed_edges_in G e :
  directed G = true -> In e (edges G) -> In e (adj G).
Proof.
  unfold edges. intros ->. rewrite in_flat_map. intros (n & _ & He).
  apply filter_In in He. apply He.
Qed.

Lemma py_sum_zeros {A : Type} (f : A -> float) (l : list A) :
  (forall a, In a l -> f a = Fin 0) -> feq (py_sum (map f l)) (Fin 0).
Proof.
  intros H. rewrite (map_ext_in _ (fun _ => Fin 0) l H).
  rewrite <- (map_map (fun _ => 0%Q) Fin).
  destruct (py_sum_fin (map (fun _ : A => 0%Q) l)) as (s & -> & Hs).
  cbn [feq]. rewrite Hs. clear. induction l as [|a l IH]; [reflexivity|].
  cbn [map Qsum]. rewrite IH. reflexivity.
Qed.

Lemma no_qty_total G :
  directed G = true ->
  Forall (fun e => Edge.qty (edge_data e) = None) (adj G) ->
  fgt0 (total_weight G) = false.
Proof.
  intros Hd Hq. unfold total_weight.
  pose proof (py_sum_zeros (fun e => get_qty (edge_data e)) (edges G)) as H.
  destruct (py_sum _) as [s| | |].
  - cbn [feq] in H. unfold fgt0. apply negb_false_iff, Qle_bool_iff.
    rewrite H; [apply Qle_refl|].
    intros e He. apply (directed_edges_in G e Hd) in He.
    rewrite Forall_forall in Hq. unfold get_qty. rewrite (Hq e He).
    reflexivity.
  - exfalso. apply H. intros e He. apply (directed_edges_in G e Hd) in He.
    rewrite Forall_forall in Hq. unfold get_qty. rewrite (Hq e He).
    reflexivity.
  - reflexivity.
  - reflexivity.
Qed.

Section Network.
Variables clos betw dist : Graph -> node -> float.

(** The edge list carries the column under the key "weight" (or no
    attribute), never under "qty": every graph has total 0, and every row of
    the table has in-degree 0 and Vulnerability 0. *)
Lemma analyze_network_degenerate df table :
  analyze_network clos betw dist df = Ok table ->
  Forall (fun row =>
            Vulnerability row = Fin 0
            /\ exists v, In_Degree row = Some v /\ feq v (Fin 0))
         table.
Proof.
  unfold analyze_network.
  destruct (map_result _ _) as [all|e] eqn:Hall; [|discriminate].
  cbn [bind]. destruct (is_empty all); [discriminate|].
  intros H. injection H as <-.
  apply map_result_inv in Hall. apply Forall_concat.
  induction Hall as [|p m ps ms Hm _ IH]; constructor; [|exact IH].
  set (G := from_pandas_edgelist _ _) in Hm.
  destruct (from_pandas_edgelist_shape
              (select (fun r => Row.period r =? p) (data df))
              (has_column "weight"
                 (select (fun r => Row.period r =? p) (data df))))
    as (Hd & Hq).
  fold G in Hd, Hq.
  destruct (zero_total_metrics clos betw dist G p Hd (no_qty_total G Hd Hq))
    as (rows & Hrows & Hzero).
  rewrite Hrows in Hm. cbn [bind fst] in Hm. injection Hm as <-.
  exact Hzero.
Qed.
End Network.

(** ** Periods in ascending order *)

Lemma compare_lt a b : String.compare a b = Lt <-> String_as_OT.lt a b.
Proof. apply String_as_OT.cmp_lt. Qed.

Lemma compare_gt a b : String.compare a b = Gt -> String_as_OT.lt b a.
Proof.
  intros H. apply compare_lt. rewrite String.compare_antisym, H. reflexivity.
Qed.

Lemma insert_key_in k x l :
  In x (insert_key String.compare k l) -> x = k \/ In x l.
Proof.
  induction l as [|y l IH]; cbn [insert_key].
  - intros [<-|[]]. left. reflexivity.
  - destruct (String.compare k y).
    + intros H. right. exact H.
    + intros [<-|H]; [left; reflexivity|right; exact H].
    + intros [<-|H]; [right; left; reflexivity|].
      destruct (IH H) as [->|Hin]; [left; reflexivity|right; right; exact Hin].
Qed.

Lemma insert_key_ascending k l :
  ascending l -> ascending (insert_key String.compare k l).
Proof.
  unfold ascending. induction 1 as [|y l Hl IH Hy]; cbn [insert_key].
  - constructor; constructor.
  - destruct (String.compare k y) eqn:Hc.
    + constructor; assumption.
    + apply compare_lt in Hc. constructor; [constructor; assumption|].
      constructor; [exact Hc|].
      eapply Forall_impl; [|exact Hy]. intros z Hz.
      eapply String_as_OT.lt_trans; eassumption.
    + apply compare_gt in Hc. constructor; [exact IH|].
      apply Forall_forall. intros z Hz. apply insert_key_in in Hz.
      destruct Hz as [->|Hz]; [exact Hc|].
      rewrite Forall_forall in Hy. apply Hy. exact Hz.
Qed.

Lemma sorted_unique_ascending l : ascending (sorted_unique String.compare l).
Proof.
  induction l as [|k l IH]; [constructor|].
  cbn [sorted_unique fold_right]. apply insert_key_ascending. exact IH.
Qed.

Lemma sorted_unique_ascending_id l :
  ascending l -> sorted_unique String.compare l = l.
Proof.
  unfold ascending. induction 1 as [|k l Hl IH Hk]; [reflexivity|].
  cbn [sorted_unique fold_right]. fold (sorted_unique String.compare l).
  rewrite IH. destruct l as [|y l]; [reflexivity|].
  cbn [insert_key]. inversion Hk as [|? ? Hky _]; subst.
  apply compare_lt in Hky. rewrite Hky. reflexivity.
Qed.

Lemma ascending_NoDup l : ascending l -> NoDup l.
Proof.
  unfold ascending. induction 1 as [|k l Hl IH Hk]; constructor; [|exact IH].
  intros Hin. rewrite Forall_forall in Hk.
  apply (String_as_OT.lt_not_eq k k (Hk k Hin)). reflexivity.
Qed.

Lemma sort_values_ascending_id t :
  ascending (map fst t) -> sort_values_period t = t.
Proof.
  unfold ascending. induction t as [|x t IH]; [reflexivity|].
  cbn [map]. intros H. inversion H as [|? ? Ht Hx]; subst.
  cbn [sort_values_period fold_right]. fold (sort_values_period t).
  rewrite (IH Ht). destruct t as [|y t]; [reflexivity|].
  cbn [insert_by_period]. cbn [map] in Hx.
  inversion Hx as [|? ? Hxy _]; subst.
  apply compare_lt in Hxy. rewrite Hxy. reflexivity.
Qed.

(** ** Grouping by period *)

Lemma groupby_periods t :
  map fst (groupby_period_sum t)
  = sorted_unique String.compare (map fst t).
Proof.
  unfold groupby_period_sum. rewrite map_map. cbn [fst]. apply map_id.
Qed.

Lemma groupby_ascending t : ascending (map fst (groupby_period_sum t)).
Proof. rewrite groupby_periods. apply sorted_unique_ascending. Qed.

Lemma filter_none {A : Type} (f : A -> bool) l :
  (forall x, In x l -> f x = false) -> filter f l = [].
Proof.
  induction l as [|a l IH]; intros H; [reflexivity|].
  cbn [filter]. rewrite (H a (or_introl eq_refl)). apply IH.
  intros x Hx. apply H. right. exact Hx.
Qed.

Lemma single_group (t : list (string * float)) x :
  NoDup (map fst t) -> In x t ->
  filter (fun pw => fst pw =? fst x) t = [x].
Proof.
  induction t as [|y t IH]; [intros _ []|].
  cbn [map]. intros Hnd Hin. inversion Hnd as [|? ? Hy Ht]; subst.
  cbn [filter]. destruct Hin as [->|Hin].
  - rewrite String.eqb_refl. f_equal.
    apply filter_none. intros z Hz.
    apply String.eqb_neq. intros Heq. apply Hy. rewrite <- Heq.
    apply in_map. exact Hz.
  - destruct (fst y =? fst x) eqn:Heq.
    + apply String.eqb_eq in Heq. exfalso. apply Hy. rewrite Heq.
      apply in_map. exact Hin.
    + apply IH; assumption.
Qed.

(** Grouping a table that has one row per period, in ascending order, sums
    each row on its own. *)
Lemma groupby_grouped t :
  ascending (map fst t) -> groupby_period_sum t = map resum t.
Proof.
  intros Hasc. unfold groupby_period_sum.
  rewrite (sorted_unique_ascending_id _ Hasc), map_map.
  apply map_ext_in. intros x Hx. unfold resum. f_equal. f_equal.
  rewrite (single_group t x); [reflexivity| |exact Hx].
  apply ascending_NoDup. exact Hasc.
Qed.

Lemma map_fst_resum t : map fst (map resum t) = map fst t.
Proof. rewrite map_map. reflexivity. Qed.

(** A finite weight summed again is the same number. *)
Lemma resum_finite p q : feq (snd (resum (p, Fin q))) (Fin q).
Proof. cbn. ring. Qed.

(** ** The variation column *)

Lemma zip_shift (t : list (string * float)) prev :
  zip_with (fun pw lag => (fst pw, variation (snd pw) lag)) t
           (match t with [] => [] | _ => prev :: removelast (map snd t) end)
  = variation_from prev t.
Proof.
  revert prev. induction t as [|x t IH]; intros prev; [reflexivity|].
  cbn [zip_with variation_from map]. f_equal.
  rewrite <- IH. destruct t as [|y t]; reflexivity.
Qed.

Lemma lag_variation_from t : lag_variation t = variation_from NaN t.
Proof.
  unfold lag_variation, shift1. rewrite <- zip_shift.
  destruct t; reflexivity.
Qed.

Lemma variation_from_periods prev t :
  map fst (variation_from prev t) = map fst t.
Proof.
  revert prev. induction t as [|x t IH]; intros prev; [reflexivity|].
  cbn [variation_from map fst]. f_equal. apply IH.
Qed.

Lemma variation_from_next prev t i a b :
  nth_error t i = Some a ->
  nth_error t (S i) = Some b ->
  nth_error (variation_from prev t) (S i)
  = Some (fst b, variation (snd b) (snd a)).
Proof.
  revert prev i. induction t as [|x t IH]; intros prev i Ha Hb.
  - destruct i; discriminate.
  - destruct i as [|i].
    + cbn in Ha. injection Ha as ->. cbn [nth_error] in Hb.
      cbn [variation_from nth_error]. destruct t as [|y t]; [discriminate|].
      cbn in Hb. injection Hb as ->. reflexivity.
    + cbn [nth_error] in Ha. change (nth_error t (S i) = Some b) in Hb.
      cbn [variation_from].
      change (nth_error (variation_from (snd x) t) (S i)
              = Some (fst b, variation (snd b) (snd a))).
      apply IH; assumption.
Qed.

Lemma variation_missing w : variation w NaN = NaN.
Proof. destruct w; reflexivity. Qed.

Lemma basket_of_variation df country partner product direction agg :
  basket_of df country partner product false direction = Ok agg ->
  ascending (map fst agg)
  /\ basket_of df country partner product true direction
     = Ok (variation_from NaN (map resum agg)).
Proof.
  unfold basket_of.
  destruct (empty _); [discriminate|].
  destruct (empty _); [discriminate|].
  destruct (empty _); [discriminate|].
  destruct (period_weight _) as [t|e]; [|discriminate].
  cbn [bind]. intros H. injection H as <-.
  split; [apply groupby_ascending|].
  rewrite (groupby_grouped _ (groupby_ascending t)).
  rewrite sort_values_ascending_id
    by (rewrite map_fst_resum; apply groupby_ascending).
  rewrite lag_variation_from. reflexivity.
Qed.

(** C9: when the plain call returns the per-period sums, the call with
    var=True returns too, from the same state; its periods are those of the
    sums, in ascending order; the value of the first period is the missing
    value NaN; and the value of every later period is (w - w_prev) / w_prev
    on the re-aggregated sums of the period and of the one before it. *)
Theorem basket_variation df country partner product direction agg st :
  analyze_basket df country partner product false direction = (Ok agg, st) ->
  exists out,
    analyze_basket df country partner product true direction = (Ok out, st)
    /\ ascending (map fst agg)
    /\ map fst out = map fst agg
    /\ (forall x, hd_error out = Some x -> snd x = NaN)
    /\ forall i a b,
        nth_error (map resum agg) i = Some a ->
        nth_error (map resum agg) (S i) = Some b ->
        nth_error out (S i)
        = Some (fst b, fdiv (fsub (snd b) (snd a)) (snd a)).
Proof.
  unfold analyze_basket.
  destruct (negb (existsb (String.eqb direction) ["E"; "I"]));
    [discriminate|].
  set (df' := if existsb (String.eqb direction) ["I"] then _ else _).
  intros H. injection H as Hagg <-.
  apply basket_of_variation in Hagg. destruct Hagg as (Hasc & ->).
  eexists. split; [reflexivity|]. split; [exact Hasc|]. split.
  - rewrite variation_from_periods. apply map_fst_resum.
  - split.
    + destruct agg as [|y agg']; [discriminate|].
      cbn [map variation_from hd_error]. intros x Hx. injection Hx as <-.
      apply variation_missing.
    + intros i a b Ha Hb. apply variation_from_next; assumption.
Qed.

Lemma basket_variation_witness :
  exists out,
    analyze_basket two_periods "A" None None true "E" = (Ok out, two_periods)
    /\ map fst out = ["2020"; "2021"]
    /\ map (fun x => feqb (snd x) (Fin (1 # 2))) out = [false; true].
Proof.
  destruct (basket_variation two_periods "A" None None "E"
              [("2020", Fin (0 + 10 + 20)); ("2021", Fin (0 + 45))]
              two_periods eq_refl)
    as (out & Hout & _ & Hperiods & Hfirst & Hnext).
  exists out. split; [exact Hout|]. split; [exact Hperiods|].
  destruct out as [|x [|y [|z out]]]; try discriminate.
  specialize (Hfirst x eq_refl).
  specialize (Hnext 0%nat _ _ eq_refl eq_refl). cbn [nth_error] in Hnext.
  injection Hnext as ->. destruct x as [p w]. cbn [snd] in Hfirst.
  rewrite Hfirst. reflexivity.
Defined.

(** ** Positive finite doubles *)

Lemma positive_double_fpos x : positive_double x = true -> fpos x.
Proof.
  destruct x as [q| | |]; try discriminate. intros H. exists q.
  split; [reflexivity|]. apply fgt0_fin. exact H.
Qed.

Lemma fpos_fnonneg x : fpos x -> fnonneg x.
Proof.
  intros (q & -> & Hq). exists q. split; [reflexivity|].
  apply Qlt_le_weak, Hq.
Qed.

Lemma Qpos_neq q : (0 < q)%Q -> Qeq_bool q 0 = false.
Proof.
  intros Hq. destruct (Qeq_bool q 0) eqn:Hz; [|reflexivity].
  apply Qeq_bool_eq in Hz. rewrite Hz in Hq. discriminate.
Qed.

Lemma fmul_fpos x y : fpos x -> fpos y -> fpos (fmul x y).
Proof.
  intros (a & -> & Ha) (b & -> & Hb). exists (a * b)%Q.
  split; [reflexivity|]. apply Qmult_lt_0_compat; assumption.
Qed.

Lemma fmul_fnonneg x y : fnonneg x -> fpos y -> fnonneg (fmul x y).
Proof.
  intros (a & -> & Ha) (b & -> & Hb). exists (a * b)%Q.
  split; [reflexivity|]. apply Qmult_le_0_compat; [exact Ha|].
  apply Qlt_le_weak, Hb.
Qed.

Lemma fdiv_fpos x y : fpos x -> fpos y -> fpos (fdiv x y).
Proof.
  intros (a & -> & Ha) (b & -> & Hb). exists (a / b)%Q.
  split; [apply fdiv_fin; exact Hb|].
  apply Qmult_lt_0_compat; [exact Ha|]. apply Qinv_lt_0_compat. exact Hb.
Qed.

Lemma fpowZ_fpos x n : fpos x -> fpos (fpowZ x n).
Proof.
  intros (a & -> & Ha). unfold fpowZ. destruct (n =? 0)%Z.
  - exists 1%Q. split; [reflexivity|]. reflexivity.
  - rewrite (Qpos_neq a Ha). exists (a ^ n)%Q. split; [reflexivity|].
    apply Qpower_0_lt. exact Ha.
Qed.

Lemma fne0_fpos x : fpos x -> fne0 x = true.
Proof.
  intros (q & -> & Hq). unfold fne0. rewrite (Qpos_neq q Hq). reflexivity.
Qed.

(** ** Sums of columns *)

Lemma series_sum_rational {A : Type} (f : A -> float) (l : list A) :
  (forall a, In a l -> is_finite (f a) = true) ->
  exists s,
    series_sum (map f l) = Fin s
    /\ (s == Qsum (map (fun a => rational (f a)) l))%Q.
Proof.
  intros Hfin.
  assert (H : map f l = map Fin (map (fun a => rational (f a)) l)).
  { rewrite map_map. apply map_ext_in. intros a Ha.
    specialize (Hfin a Ha). destruct (f a); try discriminate. reflexivity. }
  rewrite H, series_sum_fin. apply py_sum_fin.
Qed.

Lemma Qsum_nonneg {A : Type} (g : A -> Q) (l : list A) :
  (forall a, In a l -> 0 <= g a)%Q -> (0 <= Qsum (map g l))%Q.
Proof.
  induction l as [|a l IH]; intros H; cbn [map Qsum].
  - apply Qle_refl.
  - rewrite <- (Qplus_0_r 0). apply Qplus_le_compat.
    + apply H. left. reflexivity.
    + apply IH. intros b Hb. apply H. right. exact Hb.
Qed.

Lemma Qsum_pos {A : Type} (g : A -> Q) (l : list A) a :
  (forall b, In b l -> 0 <= g b)%Q -> In a l -> (0 < g a)%Q ->
  (0 < Qsum (map g l))%Q.
Proof.
  induction l as [|b l IH]; intros H Hin Ha; [destruct Hin|].
  cbn [map Qsum]. destruct Hin as [->|Hin].
  - rewrite <- (Qplus_0_r 0). apply Qplus_lt_le_compat; [exact Ha|].
    apply Qsum_nonneg. intros c Hc. apply H. right. exact Hc.
  - rewrite Qplus_comm, <- (Qplus_0_r 0). apply Qplus_lt_le_compat.
    + apply IH; auto. intros c Hc. apply H. right. exact Hc.
    + apply H. left. reflexivity.
Qed.

Lemma series_sum_fpos {A : Type} (f : A -> float) (l : list A) a :
  (forall b, In b l -> fnonneg (f b)) -> In a l -> fpos (f a) ->
  fpos (series_sum (map f l)).
Proof.
  intros Hnn Hin Ha.
  destruct (series_sum_rational f l) as (s & Hs & Hsum).
  { intros b Hb. destruct (Hnn b Hb) as (q & -> & _). reflexivity. }
  exists s. split; [exact Hs|]. rewrite Hsum.
  apply (Qsum_pos _ l a).
  - intros b Hb. destruct (Hnn b Hb) as (q & -> & Hq). exact Hq.
  - exact Hin.
  - destruct Ha as (q & -> & Hq). exact Hq.
Qed.

(** Shares of a total, valued at an expenditure and divided by the price,
    add up in value to the expenditure. *)
Lemma shares_exhaust {A : Type} (pr wt : A -> float) (l : list A) (w e : Q) :
  (forall a, In a l -> fpos (pr a)) ->
  (forall a, In a l -> is_finite (wt a) = true) ->
  series_sum (map wt l) = Fin w ->
  ~ (w == 0)%Q ->
  feq (series_sum
         (map (fun a =>
                 fmul (pr a)
                      (fdiv (fmul (fdiv (wt a) (Fin w)) (Fin e)) (pr a)))
              l))
      (Fin e).
Proof.
  intros Hpr Hwt Hw Hw0.
  destruct (series_sum_rational wt l Hwt) as (w' & Hw' & Hsum).
  rewrite Hw in Hw'. injection Hw' as <-.
  assert (Hz : Qeq_bool w 0 = false).
  { destruct (Qeq_bool w 0) eqn:Hz; [|reflexivity].
    apply Qeq_bool_eq in Hz. contradiction. }
  set (g := fun a => (rational (pr a)
                      * (rational (wt a) / w * e / rational (pr a)))%Q).
  assert (Hg : forall a, In a l ->
             fmul (pr a) (fdiv (fmul (fdiv (wt a) (Fin w)) (Fin e)) (pr a))
             = Fin (g a)).
  { intros a Ha. destruct (Hpr a Ha) as (p & Hp & Hppos).
    specialize (Hwt a Ha). unfold g. rewrite Hp.
    destruct (wt a) as [x| | |]; try discriminate.
    cbn [rational]. unfold fdiv at 2. rewrite Hz. cbn [fmul].
    rewrite (fdiv_fin _ p Hppos). reflexivity. }
  rewrite (map_ext_in _ (fun a => Fin (g a)) l Hg).
  rewrite <- (map_map g Fin), series_sum_fin.
  destruct (py_sum_fin (map g l)) as (s & -> & Hs).
  cbn [feq]. rewrite Hs.
  assert (Hgsum : (Qsum (map g l)
                   == Qsum (map (fun a => rational (wt a)) l) / w * e)%Q).
  { clear -Hpr Hw0. induction l as [|a l IH]; cbn [map Qsum].
    - field. exact Hw0.
    - rewrite IH by (intros b Hb; apply Hpr; right; exact Hb).
      destruct (Hpr a (or_introl eq_refl)) as (p & Hp & Hppos).
      unfold g. rewrite Hp. cbn [rational]. field. split; [exact Hw0|].
      intros Hp0. rewrite Hp0 in Hppos. discriminate. }
  rewrite Hgsum, <- Hsum. field. exact Hw0.
Qed.

(** ** The CES table on positive data *)

Section PositiveBasket.
Variable pw : float -> float -> float.
Variable sigma : Z.
Variable cf : string.
Variable e : Q.
Variable rs : list Row.t.
Hypothesis rows_positive : forall r, In r rs -> positive_row r = true.
Variable r0 : Row.t.
Hypothesis r0_in : In r0 rs.
Hypothesis r0_other : (Row.source r0 =? cf) = false.

Lemma price_fpos r : In r rs -> fpos (price_of r).
Proof.
  intros Hr. specialize (rows_positive r Hr). unfold positive_row in *.
  apply andb_true_iff in rows_positive. destruct rows_positive as (Hv & Hq).
  apply fdiv_fpos; apply positive_double_fpos; assumption.
Qed.

Lemma alpha_raw_fpos r : In r rs -> fpos (alpha_raw sigma r).
Proof.
  intros Hr. unfold alpha_raw. apply fmul_fpos.
  - specialize (rows_positive r Hr). unfold positive_row in *.
    apply andb_true_iff in rows_positive.
    apply positive_double_fpos, rows_positive.
  - apply fpowZ_fpos, price_fpos, Hr.
Qed.

Lemma alpha_base_fpos r : In r rs -> fpos (alpha_base sigma rs r).
Proof.
  intros Hr. unfold alpha_base. apply fdiv_fpos.
  - apply alpha_raw_fpos, Hr.
  - apply (series_sum_fpos _ rs r0).
    + intros b Hb. apply fpos_fnonneg, alpha_raw_fpos, Hb.
    + exact r0_in.
    + apply alpha_raw_fpos, r0_in.
Qed.

Lemma weight_base_fpos r : In r rs -> fpos (weight_base sigma rs r).
Proof.
  intros Hr. unfold weight_base. apply fmul_fpos.
  - apply alpha_base_fpos, Hr.
  - apply fpowZ_fpos, price_fpos, Hr.
Qed.

Lemma total_weight_base_fpos :
  fpos (series_sum (map (weight_base sigma rs) rs)).
Proof.
  apply (series_sum_fpos _ rs r0).
  - intros b Hb. apply fpos_fnonneg, weight_base_fpos, Hb.
  - exact r0_in.
  - apply weight_base_fpos, r0_in.
Qed.

Lemma Q_tot_fpos : fpos (Q_tot rs).
Proof.
  unfold Q_tot. apply (series_sum_fpos _ rs r0).
  - intros b Hb. specialize (rows_positive b Hb). unfold positive_row in *.
    apply andb_true_iff in rows_positive.
    apply fpos_fnonneg, positive_double_fpos, rows_positive.
  - exact r0_in.
  - specialize (rows_positive r0 r0_in). unfold positive_row in *.
    apply andb_true_iff in rows_positive.
    apply positive_double_fpos, rows_positive.
Qed.

Lemma E_finite :
  is_finite (P pw sigma (Fin e) rs) = true ->
  is_finite (E pw sigma (Fin e) rs) = true.
Proof.
  intros HP. unfold E. destruct (P pw sigma (Fin e) rs); try discriminate.
  destruct Q_tot_fpos as (qt & -> & _). reflexivity.
Qed.

(** Baseline: the quantities, valued at their prices, add up to [E]. *)
Lemma baseline_exhausts_expenditure :
  is_finite (P pw sigma (Fin e) rs) = true ->
  feq (series_sum
         (map (fun r => fmul (price_of r) (q_base_of pw sigma (Fin e) rs r))
              rs))
      (E pw sigma (Fin e) rs).
Proof.
  intros HP. pose proof (E_finite HP) as HE.
  destruct (E pw sigma (Fin e) rs) as [x| | |] eqn:HEx; try discriminate.
  destruct total_weight_base_fpos as (w & Hw & Hwpos).
  unfold q_base_of, share_base_of. rewrite HEx, Hw.
  apply shares_exhaust.
  - apply price_fpos.
  - intros r Hr. destruct (weight_base_fpos r Hr) as (q & -> & _).
    reflexivity.
  - exact Hw.
  - intros Hz. rewrite Hz in Hwpos. discriminate.
Qed.

Lemma weight_post_fnonneg r : In r rs -> fnonneg (weight_post sigma cf rs r).
Proof.
  intros Hr. unfold weight_post. apply fmul_fnonneg.
  - unfold alpha_post. destruct (Row.source r =? cf).
    + exists 0%Q. split; [reflexivity|apply Qle_refl].
    + apply fpos_fnonneg, alpha_base_fpos, Hr.
  - apply fpowZ_fpos, price_fpos, Hr.
Qed.

Lemma total_weight_post_fpos :
  fpos (series_sum (map (weight_post sigma cf rs) rs)).
Proof.
  apply (series_sum_fpos _ rs r0).
  - apply weight_post_fnonneg.
  - exact r0_in.
  - unfold weight_post, alpha_post. rewrite r0_other. apply fmul_fpos.
    + apply alpha_base_fpos, r0_in.
    + apply fpowZ_fpos, price_fpos, r0_in.
Qed.

Lemma E_new_finite :
  is_finite (P_new pw sigma cf (Fin e) rs) = true ->
  is_finite (E_new pw sigma cf (Fin e) rs) = true.
Proof.
  intros HP. unfold E_new.
  destruct (P_new pw sigma cf (Fin e) rs); try discriminate.
  destruct Q_tot_fpos as (qt & -> & _). reflexivity.
Qed.

(** After the shock: the new quantities, valued at the prices, add up to
    [E_new]. *)
Lemma shock_exhausts_expenditure :
  is_finite (P_new pw sigma cf (Fin e) rs) = true ->
  feq (series_sum
         (map (fun r =>
                 fmul (price_of r) (q_new_of pw sigma cf (Fin e) rs r))
              rs))
      (E_new pw sigma cf (Fin e) rs).
Proof.
  intros HP. pose proof (E_new_finite HP) as HE.
  destruct (E_new pw sigma cf (Fin e) rs) as [x| | |] eqn:HEx;
    try discriminate.
  destruct total_weight_post_fpos as (w & Hw & Hwpos).
  rewrite (map_ext_in _
             (fun r => fmul (price_of r)
                         (fdiv (fmul (fdiv (weight_post sigma cf rs r)
                                           (Fin w)) (Fin x))
                               (price_of r)))).
  - apply shares_exhaust.
    + apply price_fpos.
    + intros r Hr. destruct (weight_post_fnonneg r Hr) as (q & -> & _).
      reflexivity.
    + exact Hw.
    + intros Hz. rewrite Hz in Hwpos. discriminate.
  - intros r Hr. unfold q_new_of, share_post_of.
    rewrite (fne0_fpos _ (price_fpos r Hr)), HEx, Hw.
    rewrite (fne0_fpos (Fin w)) by (exists w; split; [reflexivity|exact Hwpos]).
    reflexivity.
Qed.
End PositiveBasket.

Lemma other_suppliers_basket df cf ct p r :
  In r (other_suppliers df cf ct p) ->
  In r (basket df ct p) /\ (Row.source r =? cf) = false.
Proof.
  unfold other_suppliers, basket. rewrite !filter_In, andb_true_iff.
  rewrite negb_true_iff. tauto.
Qed.

(** C1 (as amended): on a basket of positive values and quantities, with
    finite price indices, a call that returns has a table whose baseline
    quantities, valued at their prices, add up to the expenditure
    E = P * Q_total, and whose new quantities add up in the same way to
    E_new = P_new * Q_total, where Q_total is the sum of [value2] over the
    basket in both. *)
Theorem simulate_shock_exhausts_expenditure
    pw df cf ct p product sigma df' :
  Forall (fun r => positive_row r = true) (basket df ct p) ->
  is_finite (P pw sigma (inv_exp_of sigma) (basket df ct p)) = true ->
  is_finite (P_new pw sigma cf (inv_exp_of sigma) (basket df ct p)) = true ->
  simulate_shock pw df cf ct p product sigma = Ok df' ->
  exists sim,
    simulation df' = Some sim
    /\ feq (series_sum (map (fun x => fmul (price x) (q_base x)) sim))
           (fmul (P pw sigma (inv_exp_of sigma) (basket df ct p))
                 (series_sum (map Row.value2 (basket df ct p))))
    /\ feq (series_sum (map (fun x => fmul (price x) (q_new x)) sim))
           (fmul (P_new pw sigma cf (inv_exp_of sigma) (basket df ct p))
                 (series_sum (map Row.value2 (basket df ct p)))).
Proof.
  intros Hpos HP HPn H. apply simulate_shock_ok_inv in H.
  destruct H as (_ & _ & _ & _ & Hother & ->).
  destruct (other_suppliers df cf ct p) as [|r0 others] eqn:Ho;
    [discriminate|].
  destruct (other_suppliers_basket df cf ct p r0) as (Hin & Hsrc).
  { rewrite Ho. left. reflexivity. }
  rewrite Forall_forall in Hpos.
  eexists. split; [reflexivity|]. unfold shock_table. rewrite !map_map.
  cbn [price q_base q_new shock_row]. split.
  - apply (baseline_exhausts_expenditure pw sigma _ _ Hpos r0 Hin HP).
  - apply (shock_exhausts_expenditure pw sigma cf _ _ Hpos r0 Hin Hsrc HPn).
Qed.

Lemma simulate_shock_exhausts_expenditure_witness :
  exists sim,
    simulation (mkDataset (data three_suppliers)
                  (Some (shock_table no_libm 2 "A" (inv_exp_of 2)
                           (basket three_suppliers "B" "2020"))))
    = Some sim
    /\ feq (series_sum (map (fun x => fmul (price x) (q_base x)) sim))
           (fmul (P no_libm 2 (inv_exp_of 2)
                    (basket three_suppliers "B" "2020"))
                 (series_sum
                    (map Row.value2 (basket three_suppliers "B" "2020"))))
    /\ feq (series_sum (map (fun x => fmul (price x) (q_new x)) sim))
           (fmul (P_new no_libm 2 "A" (inv_exp_of 2)
                    (basket three_suppliers "B" "2020"))
                 (series_sum
                    (map Row.value2 (basket three_suppliers "B" "2020")))).
Proof.
  apply (simulate_shock_exhausts_expenditure
           no_libm three_suppliers "A" "B" "2020" None 2).
  - repeat constructor.
  - reflexivity.
  - reflexivity.
  - reflexivity.
Defined.

(** C1 (as stated, fails): with unit prices 4, 2 and 1 and sigma = 2, the
    call that removes A returns, and the baseline quantities sum to 11/2 and
    the new ones to 80/9, while Q_total is 4. *)
Lemma quantities_not_conserved :
  let r := simulate_shock no_libm three_suppliers "A" "B" "2020" None 2 in
  is_ok r = true
  /\ feqb (column_sum (fun x => Row.value2 (base x)) r) (Fin 4) = true
  /\ feqb (column_sum q_base r) (Fin (11 # 2)) = true
  /\ feqb (column_sum q_new r) (Fin (80 # 9)) = true
  /\ feqb (column_sum q_base r) (column_sum (fun x => Row.value2 (base x)) r)
     = false
  /\ feqb (column_sum q_new r) (column_sum (fun x => Row.value2 (base x)) r)
     = false.
Proof. repeat split; vm_compute; reflexivity. Qed.

(** The exponent 1 / (1 - 2) is the integer -1, so the table is the same for
    every [pow]. *)
Lemma three_suppliers_any_pow pw :
  simulate_shock pw three_suppliers "A" "B" "2020" None 2
  = simulate_shock no_libm three_suppliers "A" "B" "2020" None 2.
Proof. vm_compute. reflexivity. Qed.

(** * Further properties *)

(** ** When simulate_shock returns *)

(** X1: simulate_shock returns a result exactly when the product argument is
    omitted or empty, sigma is not 1, the table has a value2 column, and some
    row of the period has country_to as target and a source other than
    country_from; in every other case it raises. *)
Theorem simulate_shock_returns_iff pw df cf ct p product sigma :
  is_ok (simulate_shock pw df cf ct p product sigma) = true
  <-> (truthy product = false
       /\ sigma <> 1%Z
       /\ has_column "value2" (data df) = true
       /\ is_empty (other_suppliers df cf ct p) = false).
Proof.
  split.
  - destruct (simulate_shock pw df cf ct p product sigma) as [df'|e] eqn:H;
      [|discriminate].
    intros _. apply simulate_shock_ok_inv in H. tauto.
  - intros (Hprod & Hs & Hcol & Hother).
    rewrite simulate_shock_ok by assumption. reflexivity.
Qed.

(** X2: With the product omitted and rows for the period, the errors of
    simulate_shock come in this order: a table without the value2 column
    raises KeyError for value2 (from the grouped sum of line 177, before the
    supplier check); with the column and another supplier present, sigma = 1
    raises ZeroDivisionError. *)
Theorem simulate_shock_error_order pw df cf ct p product sigma :
  truthy product = false ->
  is_empty (period_rows df p) = false ->
  (has_column "value2" (data df) = false ->
   simulate_shock pw df cf ct p product sigma = Err (KeyError "value2"))
  /\ (has_column "value2" (data df) = true ->
      is_empty (other_suppliers df cf ct p) = false ->
      sigma = 1%Z ->
      simulate_shock pw df cf ct p product sigma
      = Err (ZeroDivisionError "division by zero")).
Proof.
  intros Hprod Hperiod. revert Hperiod.
  unfold simulate_shock, other_suppliers, period_rows, groupby_flow_sum.
  rewrite !empty_select, !has_column_select, Hprod. intros ->. split.
  - intros ->. reflexivity.
  - intros Hcol Hother ->. rewrite Hcol. cbn [bind].
    rewrite empty_select, !rows_select, Hother, !has_column_select, Hcol.
    reflexivity.
Qed.

(** ** Shares of the CES table *)

Lemma Qsum_ext {A : Type} (f g : A -> Q) (l : list A) :
  (forall a, In a l -> f a == g a)%Q ->
  (Qsum (map f l) == Qsum (map g l))%Q.
Proof.
  induction l as [|a l IH]; intros H; cbn [map Qsum]; [reflexivity|].
  rewrite (H a (or_introl eq_refl)), IH; [reflexivity|].
  intros b Hb. apply H. right. exact Hb.
Qed.

Lemma Qsum_le {A : Type} (f g : A -> Q) (l : list A) :
  (forall a, In a l -> f a <= g a)%Q ->
  (Qsum (map f l) <= Qsum (map g l))%Q.
Proof.
  induction l as [|a l IH]; intros H; cbn [map Qsum]; [apply Qle_refl|].
  apply Qplus_le_compat.
  - apply H. left. reflexivity.
  - apply IH. intros b Hb. apply H. right. exact Hb.
Qed.

Lemma Qsum_div {A : Type} (f : A -> Q) (l : list A) (t : Q) :
  (Qsum (map (fun a => f a / t) l) == Qsum (map f l) / t)%Q.
Proof.
  induction l as [|a l IH]; cbn [map Qsum].
  - unfold Qdiv. ring.
  - rewrite IH. unfold Qdiv. ring.
Qed.

(** The parts of a total add up to 1. *)
Lemma parts_sum_to_one {A : Type} (wt : A -> float) (l : list A) (w : Q) :
  (forall a, In a l -> is_finite (wt a) = true) ->
  series_sum (map wt l) = Fin w ->
  ~ (w == 0)%Q ->
  feq (series_sum (map (fun a => fdiv (wt a) (Fin w)) l)) (Fin 1).
Proof.
  intros Hwt Hw Hw0.
  destruct (series_sum_rational wt l Hwt) as (w' & Hw' & Hsum).
  rewrite Hw in Hw'. injection Hw' as <-.
  assert (Hz : Qeq_bool w 0 = false).
  { destruct (Qeq_bool w 0) eqn:Hz; [|reflexivity].
    apply Qeq_bool_eq in Hz. contradiction. }
  rewrite (map_ext_in _ (fun a => Fin (rational (wt a) / w))).
  2:{ intros a Ha. specialize (Hwt a Ha).
      destruct (wt a) as [x| | |]; try discriminate.
      cbn [rational]. unfold fdiv. rewrite Hz. reflexivity. }
  rewrite <- (map_map (fun a => (rational (wt a) / w)%Q) Fin), series_sum_fin.
  destruct (py_sum_fin (map (fun a => (rational (wt a) / w)%Q) l))
    as (s & -> & Hs).
  cbn [feq]. rewrite Hs, Qsum_div, <- Hsum. field. exact Hw0.
Qed.

Section Shares.
Variable pw : float -> float -> float.
Variable sigma : Z.
Variable cf : string.
Variable e : Q.
Variable rs : list Row.t.
Hypothesis sigma_not_one : sigma <> 1%Z.
Hypothesis rows_positive : forall r, In r rs -> positive_row r = true.
Variable r0 : Row.t.
Hypothesis r0_in : In r0 rs.
Hypothesis r0_other : (Row.source r0 =? cf) = false.

Lemma row_values r :
  In r rs ->
  exists v q, Row.value r = Fin v /\ Row.value2 r = Fin q
              /\ (0 < v)%Q /\ (0 < q)%Q.
Proof.
  intros Hr. specialize (rows_positive r Hr). unfold positive_row in *.
  apply andb_true_iff in rows_positive. destruct rows_positive as (Hv & Hq).
  apply positive_double_fpos in Hv, Hq.
  destruct Hv as (v & Hv & Hvpos). destruct Hq as (q & Hq & Hqpos).
  exists v, q. auto.
Qed.

(** The baseline weight of a row is its quantity over the sum of the raw
    alphas: the two powers of the price cancel. *)
Lemma weight_base_value a r :
  series_sum (map (alpha_raw sigma) rs) = Fin a -> (0 < a)%Q ->
  In r rs ->
  exists w, weight_base sigma rs r = Fin w
            /\ (w == rational (Row.value2 r) / a)%Q.
Proof.
  intros Ha Hapos Hr. destruct (row_values r Hr) as (v & q & Hv & Hq & Hvp & Hqp).
  assert (Hp : (0 < v / q)%Q).
  { apply Qmult_lt_0_compat; [exact Hvp|]. apply Qinv_lt_0_compat, Hqp. }
  unfold weight_base, alpha_base. rewrite Ha. unfold alpha_raw, price_of.
  rewrite Hv, Hq, (fdiv_fin v q Hqp). unfold fpowZ.
  assert (H1 : (sigma - 1 =? 0)%Z = false) by (apply Z.eqb_neq; lia).
  assert (H2 : (1 - sigma =? 0)%Z = false) by (apply Z.eqb_neq; lia).
  rewrite H1, H2, (Qpos_neq _ Hp). cbn [fmul].
  rewrite (fdiv_fin _ a Hapos). cbn [fmul rational].
  eexists. split; [reflexivity|].
  assert (Hne : ~ (v / q == 0)%Q).
  { intros Hz. rewrite Hz in Hp. discriminate. }
  assert (Hpow : ((v / q) ^ (sigma - 1) * (v / q) ^ (1 - sigma) == 1)%Q).
  { rewrite <- Qpower_plus by exact Hne.
    replace (sigma - 1 + (1 - sigma))%Z with 0%Z by lia. reflexivity. }
  transitivity (q * ((v / q) ^ (sigma - 1) * (v / q) ^ (1 - sigma)) / a)%Q.
  - field. intros Hz. rewrite Hz in Hapos. discriminate.
  - rewrite Hpow. field. intros Hz. rewrite Hz in Hapos. discriminate.
Qed.

Lemma alpha_total_fpos : fpos (series_sum (map (alpha_raw sigma) rs)).
Proof.
  apply (series_sum_fpos _ rs r0).
  - intros b Hb. apply fpos_fnonneg.
    apply (alpha_raw_fpos sigma rs rows_positive b Hb).
  - exact r0_in.
  - apply (alpha_raw_fpos sigma rs rows_positive r0 r0_in).
Qed.

Lemma share_base_value r :
  In r rs ->
  feq (share_base_of sigma rs r) (fdiv (Row.value2 r) (Q_tot rs)).
Proof.
  intros Hr. destruct alpha_total_fpos as (a & Ha & Hapos).
  destruct (weight_base_value a r Ha Hapos Hr) as (w & Hw & Hweq).
  destruct (series_sum_rational (weight_base sigma rs) rs) as (W & HW & HWsum).
  { intros b Hb. destruct (weight_base_value a b Ha Hapos Hb) as (x & -> & _).
    reflexivity. }
  destruct (series_sum_rational Row.value2 rs) as (qt & Hqt & Hqtsum).
  { intros b Hb. destruct (row_values b Hb) as (v & q & _ & -> & _).
    reflexivity. }
  destruct (Q_tot_fpos rs rows_positive r0 r0_in) as (qt' & Hqt' & Hqtpos).
  unfold Q_tot in *. rewrite Hqt in Hqt'. injection Hqt' as <-.
  assert (HWeq : (W == qt / a)%Q).
  { rewrite HWsum, Hqtsum, <- Qsum_div. apply Qsum_ext. intros b Hb.
    destruct (weight_base_value a b Ha Hapos Hb) as (x & -> & Hx). exact Hx. }
  assert (Hane : ~ (a == 0)%Q).
  { intros Hz. rewrite Hz in Hapos. discriminate. }
  assert (Hqne : ~ (qt == 0)%Q).
  { intros Hz. rewrite Hz in Hqtpos. discriminate. }
  assert (HWpos : (0 < W)%Q).
  { rewrite HWeq. apply Qmult_lt_0_compat; [exact Hqtpos|].
    apply Qinv_lt_0_compat, Hapos. }
  destruct (row_values r Hr) as (v & q & _ & Hq & _ & _).
  unfold share_base_of. rewrite HW, Hw, Hqt, Hq.
  rewrite (fdiv_fin w W HWpos), (fdiv_fin q qt Hqtpos). cbn [feq].
  rewrite Hweq, HWeq, Hq. cbn [rational]. field. split; assumption.
Qed.

Lemma share_base_total :
  feq (series_sum (map (share_base_of sigma rs) rs)) (Fin 1).
Proof.
  destruct (total_weight_base_fpos sigma rs rows_positive r0 r0_in)
    as (w & Hw & Hwpos).
  unfold share_base_of. rewrite Hw. apply parts_sum_to_one.
  - intros r Hr.
    destruct (weight_base_fpos sigma rs rows_positive r0 r0_in r Hr)
      as (x & -> & _).
    reflexivity.
  - exact Hw.
  - intros Hz. rewrite Hz in Hwpos. discriminate.
Qed.

Lemma share_post_total :
  feq (series_sum (map (share_post_of sigma cf rs) rs)) (Fin 1).
Proof.
  destruct (total_weight_post_fpos sigma cf rs rows_positive r0 r0_in r0_other)
    as (w & Hw & Hwpos).
  unfold share_post_of. rewrite Hw.
  rewrite (fne0_fpos (Fin w)) by (exists w; split; [reflexivity|exact Hwpos]).
  apply parts_sum_to_one.
  - intros r Hr.
    destruct (weight_post_fnonneg sigma cf rs rows_positive r0 r0_in r Hr)
      as (x & -> & _).
    reflexivity.
  - exact Hw.
  - intros Hz. rewrite Hz in Hwpos. discriminate.
Qed.

Lemma weight_post_shocked r :
  In r rs -> (Row.source r =? cf) = true ->
  exists y, weight_post sigma cf rs r = Fin (0 * y).
Proof.
  intros Hr Hsrc. unfold weight_post, alpha_post. rewrite Hsrc.
  destruct (fpowZ_fpos (price_of r) (1 - sigma) (price_fpos rs rows_positive r Hr))
    as (y & -> & _).
  exists y. reflexivity.
Qed.

Lemma share_post_shocked r :
  In r rs -> (Row.source r =? cf) = true ->
  feq (share_post_of sigma cf rs r) (Fin 0).
Proof.
  intros Hr Hsrc.
  destruct (total_weight_post_fpos sigma cf rs rows_positive r0 r0_in r0_other)
    as (w & Hw & Hwpos).
  destruct (weight_post_shocked r Hr Hsrc) as (y & Hy).
  unfold share_post_of. rewrite Hw, Hy.
  rewrite (fne0_fpos (Fin w)) by (exists w; split; [reflexivity|exact Hwpos]).
  rewrite (fdiv_fin _ w Hwpos). cbn [feq]. field.
  intros Hz. rewrite Hz in Hwpos. discriminate.
Qed.

Lemma q_new_shocked r :
  is_finite (P_new pw sigma cf (Fin e) rs) = true ->
  In r rs -> (Row.source r =? cf) = true ->
  feq (q_new_of pw sigma cf (Fin e) rs r) (Fin 0).
Proof.
  intros HP Hr Hsrc.
  pose proof (E_new_finite pw sigma cf e rs rows_positive r0 r0_in HP) as HE.
  destruct (E_new pw sigma cf (Fin e) rs) as [x| | |] eqn:HEx;
    try discriminate.
  pose proof (share_post_shocked r Hr Hsrc) as Hs.
  destruct (price_fpos rs rows_positive r Hr) as (pr & Hpr & Hprpos).
  unfold q_new_of. rewrite HEx.
  rewrite (fne0_fpos (price_of r)) by (exists pr; split; assumption).
  destruct (share_post_of sigma cf rs r) as [s| | |]; try contradiction.
  cbn [feq] in Hs. rewrite Hpr. cbn [fmul]. rewrite (fdiv_fin _ pr Hprpos).
  cbn [feq]. rewrite Hs. field.
  intros Hz. rewrite Hz in Hprpos. discriminate.
Qed.

Lemma share_post_other r :
  In r rs -> (Row.source r =? cf) = false ->
  fle (share_base_of sigma rs r) (share_post_of sigma cf rs r).
Proof.
  intros Hr Hsrc.
  destruct (series_sum_rational (weight_base sigma rs) rs) as (W & HW & HWsum).
  { intros b Hb.
    destruct (weight_base_fpos sigma rs rows_positive r0 r0_in b Hb)
      as (x & -> & _).
    reflexivity. }
  destruct (series_sum_rational (weight_post sigma cf rs) rs)
    as (W' & HW' & HWsum').
  { intros b Hb.
    destruct (weight_post_fnonneg sigma cf rs rows_positive r0 r0_in b Hb)
      as (x & -> & _).
    reflexivity. }
  destruct (total_weight_base_fpos sigma rs rows_positive r0 r0_in)
    as (W1 & HW1 & HWpos).
  rewrite HW in HW1. injection HW1 as <-.
  destruct (total_weight_post_fpos sigma cf rs rows_positive r0 r0_in r0_other)
    as (W2 & HW2 & HWpos').
  rewrite HW' in HW2. injection HW2 as <-.
  assert (Hle : (W' <= W)%Q).
  { rewrite HWsum, HWsum'. apply Qsum_le. intros b Hb.
    unfold weight_post, alpha_post.
    destruct (Row.source b =? cf).
    - destruct (fpowZ_fpos (price_of b) (1 - sigma)
                  (price_fpos rs rows_positive b Hb)) as (y & Hy & _).
      rewrite Hy. cbn [fmul rational].
      destruct (weight_base_fpos sigma rs rows_positive r0 r0_in b Hb)
        as (x & -> & Hx).
      cbn [rational]. rewrite Qmult_0_l. apply Qlt_le_weak, Hx.
    - apply Qle_refl. }
  destruct (weight_base_fpos sigma rs rows_positive r0 r0_in r Hr)
    as (wb & Hwb & Hwbpos).
  assert (Hwp : weight_post sigma cf rs r = Fin wb).
  { unfold weight_post, alpha_post. rewrite Hsrc. exact Hwb. }
  unfold share_base_of, share_post_of. rewrite HW, HW', Hwb, Hwp.
  rewrite (fne0_fpos (Fin W')) by (exists W'; split; [reflexivity|exact HWpos']).
  rewrite (fdiv_fin wb W HWpos), (fdiv_fin wb W' HWpos'). cbn [fle].
  apply Qle_shift_div_l; [exact HWpos'|].
  apply Qle_trans with (wb / W * W)%Q.
  - apply Qmult_le_l; [|exact Hle].
    apply Qmult_lt_0_compat; [exact Hwbpos|]. apply Qinv_lt_0_compat, HWpos.
  - apply Qle_lteq. right. field.
    intros Hz. rewrite Hz in HWpos. discriminate.
Qed.
End Shares.

Section ShockTable.
Variable pw : float -> float -> float.

Lemma positive_call df cf ct p product sigma df' :
  Forall (fun r => positive_row r = true) (basket df ct p) ->
  simulate_shock pw df cf ct p product sigma = Ok df' ->
  sigma <> 1%Z
  /\ (forall r, In r (basket df ct p) -> positive_row r = true)
  /\ (exists r0, In r0 (basket df ct p) /\ (Row.source r0 =? cf) = false)
  /\ simulation df'
     = Some (map (shock_row pw sigma cf (inv_exp_of sigma) (basket df ct p))
                 (basket df ct p)).
Proof.
  intros Hpos H. apply simulate_shock_ok_inv in H.
  destruct H as (_ & Hs & _ & _ & Hother & ->).
  split; [exact Hs|]. split; [apply Forall_forall, Hpos|]. split.
  - destruct (other_suppliers df cf ct p) as [|r0 others] eqn:Ho;
      [discriminate|].
    exists r0. apply other_suppliers_basket. rewrite Ho. left. reflexivity.
  - reflexivity.
Qed.

(** X3: On a basket whose value and value2 are finite and positive, every row
    of the simulation table of a successful simulate_shock has share_base
    equal to its value2 divided by the sum of value2 over the basket (exact
    arithmetic): the baseline share is the quantity share, whatever sigma is. *)
Theorem baseline_share_is_quantity_share df cf ct p product sigma df' :
  Forall (fun r => positive_row r = true) (basket df ct p) ->
  simulate_shock pw df cf ct p product sigma = Ok df' ->
  exists sim,
    simulation df' = Some sim
    /\ Forall (fun x =>
                 feq (share_base x)
                     (fdiv (Row.value2 (base x))
                           (series_sum
                              (map Row.value2 (basket df ct p)))))
              sim.
Proof.
  intros Hpos H.
  destruct (positive_call _ _ _ _ _ _ _ Hpos H)
    as (Hs & Hrows & (r0 & Hin & _) & Hsim).
  eexists. split; [exact Hsim|].
  apply Forall_forall. intros x Hx. apply in_map_iff in Hx.
  destruct Hx as (r & <- & Hr). cbn [share_base base shock_row].
  apply (share_base_value sigma _ Hs Hrows r0 Hin r Hr).
Qed.

(** X4: On a basket whose value and value2 are finite and positive, the
    share_base column and the share_post column of the simulation table of a
    successful simulate_shock each sum to 1 (exact arithmetic). *)
Theorem shares_sum_to_one df cf ct p product sigma df' :
  Forall (fun r => positive_row r = true) (basket df ct p) ->
  simulate_shock pw df cf ct p product sigma = Ok df' ->
  exists sim,
    simulation df' = Some sim
    /\ feq (series_sum (map share_base sim)) (Fin 1)
    /\ feq (series_sum (map share_post sim)) (Fin 1).
Proof.
  intros Hpos H.
  destruct (positive_call _ _ _ _ _ _ _ Hpos H)
    as (Hs & Hrows & (r0 & Hin & Hsrc) & Hsim).
  eexists. split; [exact Hsim|]. rewrite !map_map.
  cbn [share_base share_post shock_row]. split.
  - apply (share_base_total sigma _ Hrows r0 Hin).
  - apply (share_post_total sigma cf _ Hrows r0 Hin Hsrc).
Qed.

(** X5: In exact arithmetic (no rounding, overflow or underflow of the
    doubles), on a basket whose value and value2 are finite and positive,
    with a finite post-shock price index, the rows of the removed supplier
    get alpha 0, share_post 0 and q_new 0, and every other row has share_post
    at least share_base. *)
Theorem shock_removes_supplier df cf ct p product sigma df' :
  Forall (fun r => positive_row r = true) (basket df ct p) ->
  is_finite (P_new pw sigma cf (inv_exp_of sigma) (basket df ct p)) = true ->
  simulate_shock pw df cf ct p product sigma = Ok df' ->
  exists sim,
    simulation df' = Some sim
    /\ Forall (fun x =>
                 if Row.source (base x) =? cf
                 then alpha x = Fin 0
                      /\ feq (share_post x) (Fin 0)
                      /\ feq (q_new x) (Fin 0)
                 else fle (share_base x) (share_post x))
              sim.
Proof.
  intros Hpos HP H.
  destruct (positive_call _ _ _ _ _ _ _ Hpos H)
    as (Hs & Hrows & (r0 & Hin & Hsrc) & Hsim).
  eexists. split; [exact Hsim|].
  apply Forall_forall. intros x Hx. apply in_map_iff in Hx.
  destruct Hx as (r & <- & Hr).
  cbn [share_base share_post q_new alpha base shock_row].
  destruct (Row.source r =? cf) eqn:Hr_src.
  - split; [|split].
    + unfold alpha_post. rewrite Hr_src. reflexivity.
    + eapply share_post_shocked with (r0 := r0); eassumption.
    + eapply q_new_shocked with (r0 := r0); eassumption.
  - eapply share_post_other with (r0 := r0); eassumption.
Qed.
End ShockTable.

(** ** analyze_basket: when it returns, and what it sums *)

Lemma keep_if_nil arg col : keep_if arg col [] = [].
Proof. unfold keep_if. destruct (truthy arg); reflexivity. Qed.

Lemma keep_if_select arg col d :
  rows (if truthy arg then select (fun r => col r =? fmt arg) d else d)
  = keep_if arg col (rows d).
Proof. unfold keep_if. destruct (truthy arg); reflexivity. Qed.

Lemma keep_if_columns arg col c d :
  has_column c (if truthy arg then select (fun r => col r =? fmt arg) d else d)
  = has_column c d.
Proof. destruct (truthy arg); reflexivity. Qed.

(** The outcome of lines 100-118 in terms of the rows kept. *)
Lemma basket_of_rows d country partner product var direction :
  is_empty (basket_rows d country partner product) = false ->
  basket_of d country partner product var direction
  = (t <- (if has_column "weight" d
           then Ok (map (fun r => (Row.period r, Row.weight r))
                        (basket_rows d country partner product))
           else Err (KeyError "weight")) ;;
     if var
     then Ok (lag_variation
                (sort_values_period
                   (groupby_period_sum (groupby_period_sum t))))
     else Ok (groupby_period_sum t)).
Proof.
  unfold basket_of, basket_rows, period_weight, empty.
  rewrite !keep_if_select, !keep_if_columns, rows_select, has_column_select.
  intros H.
  destruct (filter (fun r => Row.source r =? country) (rows d)) as [|r l];
    [rewrite !keep_if_nil in H; discriminate|].
  cbn [is_empty].
  destruct (keep_if product Row.product (r :: l)) as [|r' l'];
    [rewrite keep_if_nil in H; discriminate|].
  cbn [is_empty]. rewrite H. reflexivity.
Qed.

Lemma basket_of_no_rows d country partner product var direction :
  is_empty (basket_rows d country partner product) = true ->
  is_value_error (basket_of d country partner product var direction) = true.
Proof.
  unfold basket_of, basket_rows, period_weight, empty.
  rewrite !keep_if_select, rows_select. intros H.
  destruct (is_empty (filter _ (rows d))); [reflexivity|].
  destruct (is_empty (keep_if product _ _)); [reflexivity|].
  rewrite H. reflexivity.
Qed.

Lemma working_frame_state df country partner product var direction :
  existsb (String.eqb direction) ["E"; "I"] = true ->
  analyze_basket df country partner product var direction
  = (basket_of (working_frame df direction) country partner product var
               direction,
     mkDataset (working_frame df direction) (simulation df)).
Proof.
  intros Hdir. unfold analyze_basket, working_frame. rewrite Hdir.
  cbn [negb]. destruct (existsb (String.eqb direction) ["I"]); [reflexivity|].
  destruct df. reflexivity.
Qed.

Lemma working_frame_columns c df direction :
  has_column c (working_frame df direction) = has_column c (data df).
Proof.
  unfold working_frame. destruct (existsb _ _); reflexivity.
Qed.

Lemma analyze_basket_ok_iff df country partner product var direction :
  is_ok (fst (analyze_basket df country partner product var direction)) = true
  <-> (existsb (String.eqb direction) ["E"; "I"] = true
       /\ has_column "weight" (data df) = true
       /\ is_empty (basket_rows (working_frame df direction)
                                country partner product) = false).
Proof.
  destruct (existsb (String.eqb direction) ["E"; "I"]) eqn:Hdir.
  - rewrite (working_frame_state _ _ _ _ _ _ Hdir). cbn [fst].
    destruct (is_empty (basket_rows _ country partner product)) eqn:Hrows.
    + pose proof (basket_of_no_rows _ _ _ _ var direction Hrows) as H.
      destruct (basket_of _ _ _ _ _ _) as [t|[]]; try discriminate.
      split; [discriminate|]. intros (_ & _ & Hf). discriminate.
    + rewrite (basket_of_rows _ _ _ _ _ _ Hrows), working_frame_columns.
      destruct (has_column "weight" (data df)); cbn [bind].
      * destruct var; split; auto.
      * split; [discriminate|]. intros (_ & Hf & _). discriminate.
  - unfold analyze_basket. rewrite Hdir. cbn [negb fst is_ok].
    split; [discriminate|]. intros (Hf & _). discriminate.
Qed.

(** X6: analyze_basket returns a table exactly when direction is 'E' or 'I',
    the table has a weight column, and some row (after the swap for 'I') has
    country as source and passes the product and partner filters that are
    given; in every other case it raises. *)
Theorem analyze_basket_returns_iff df country partner product var direction :
  is_ok (fst (analyze_basket df country partner product var direction)) = true
  <-> (existsb (String.eqb direction) ["E"; "I"] = true
       /\ has_column "weight" (data df) = true
       /\ is_empty (basket_rows (working_frame df direction)
                                country partner product) = false).
Proof. apply analyze_basket_ok_iff. Qed.

Lemma insert_key_mem k x l :
  x = k \/ In x l -> In x (insert_key String.compare k l).
Proof.
  induction l as [|y l IH]; cbn [insert_key].
  - intros [->|[]]. left. reflexivity.
  - destruct (String.compare k y) eqn:Hc.
    + apply String.compare_eq_iff in Hc. subst y.
      intros [->|H]; [left; reflexivity|exact H].
    + intros [->|H]; [left; reflexivity|right; exact H].
    + intros [->|[->|H]].
      * right. apply IH. left. reflexivity.
      * left. reflexivity.
      * right. apply IH. right. exact H.
Qed.

Lemma sorted_unique_in x l :
  In x (sorted_unique String.compare l) <-> In x l.
Proof.
  induction l as [|k l IH]; [reflexivity|].
  cbn [sorted_unique fold_right]. fold (sorted_unique String.compare l).
  split.
  - intros H. apply insert_key_in in H. destruct H as [->|H].
    + left. reflexivity.
    + right. apply IH, H.
  - intros [->|H]; apply insert_key_mem.
    + left. reflexivity.
    + right. apply IH, H.
Qed.

(** X7: When analyze_basket with var=False returns, the table has no period
    twice, its periods are exactly the periods of the rows kept by the
    filters, and each weight is the sum of the weight column over the kept
    rows of that period. *)
Theorem analyze_basket_sums df country partner product direction agg st :
  analyze_basket df country partner product false direction = (Ok agg, st) ->
  NoDup (map fst agg)
  /\ (forall p,
        In p (map fst agg)
        <-> exists r,
              In r (basket_rows (working_frame df direction)
                                country partner product)
              /\ Row.period r = p)
  /\ (forall p w,
        In (p, w) agg ->
        w = series_sum
              (map Row.weight
                 (filter (fun r => Row.period r =? p)
                    (basket_rows (working_frame df direction)
                                 country partner product)))).
Proof.
  intros H.
  assert (Hok : is_ok (fst (analyze_basket df country partner product false
                              direction)) = true) by (rewrite H; reflexivity).
  apply analyze_basket_ok_iff in Hok. destruct Hok as (Hdir & Hcol & Hrows).
  rewrite (working_frame_state _ _ _ _ _ _ Hdir) in H.
  rewrite (basket_of_rows _ _ _ _ _ _ Hrows), working_frame_columns, Hcol in H.
  cbn [bind] in H. injection H as <- _.
  set (kept := basket_rows _ country partner product).
  split; [apply ascending_NoDup, groupby_ascending|]. split.
  - intros p. rewrite groupby_periods, map_map. cbn [fst].
    rewrite sorted_unique_in, in_map_iff.
    split; intros (r & H1 & H2); exists r; split; assumption.
  - intros p w Hin. unfold groupby_period_sum in Hin.
    apply in_map_iff in Hin. destruct Hin as (k & Hk & _).
    injection Hk as -> <-. f_equal.
    rewrite (filter_map_comm (fun r => (Row.period r, Row.weight r))
               (fun pw => fst pw =? p)).
    rewrite map_map. reflexivity.
Qed.

Lemma swap_row_involutive r : swap_row (swap_row r) = r.
Proof. destruct r. reflexivity. Qed.

(** X8: Two analyze_basket calls with direction='I' on the same dataset,
    whatever their other arguments and whether they return or raise, leave the
    dataset exactly as it was before the first: the in-place swap of the
    second call undoes that of the first. *)
Theorem analyze_basket_import_twice
    df country partner product var country' partner' product' var' :
  snd (analyze_basket
         (snd (analyze_basket df country partner product var "I"))
         country' partner' product' var' "I")
  = df.
Proof.
  rewrite !analyze_basket_import_state. cbn [data simulation].
  destruct df as [[cols rs] sim]. unfold swap_source_target.
  cbn [columns rows data simulation]. rewrite map_map.
  rewrite (map_ext _ (fun r => r)) by apply swap_row_involutive.
  rewrite map_id. reflexivity.
Qed.

(** ** The graph built from an edge list *)

Lemma mem_In n l : mem n l = true <-> In n l.
Proof.
  unfold mem. rewrite existsb_exists. split.
  - intros (x & Hx & Heq). apply String.eqb_eq in Heq. subst. exact Hx.
  - intros H. exists n. split; [exact H|apply String.eqb_refl].
Qed.

Lemma add_node_in n x l : In x (add_node n l) <-> x = n \/ In x l.
Proof.
  unfold add_node. destruct (mem n l) eqn:Hm.
  - apply mem_In in Hm. split; [auto|]. intros [->|H]; assumption.
  - rewrite in_app_iff. cbn [In]. intuition.
Qed.

Lemma add_node_NoDup n l : NoDup l -> NoDup (add_node n l).
Proof.
  intros H. unfold add_node. destruct (mem n l) eqn:Hm; [exact H|].
  apply NoDup_app; [exact H| |].
  - constructor; [intros []|constructor].
  - intros x Hx [<-|[]]. apply mem_In in Hx. congruence.
Qed.

Lemma same_edge_key u v e : same_edge u v e = true <-> edge_key e = (u, v).
Proof.
  unfold same_edge, edge_key. rewrite andb_true_iff, !String.eqb_eq.
  split; [intros (-> & ->); reflexivity|intros H; injection H; auto].
Qed.

Lemma add_edge_keys G u v w :
  map edge_key (adj (add_edge G u v w))
  = if existsb (same_edge u v) (adj G)
    then map edge_key (adj G)
    else map edge_key (adj G) ++ [(u, v)].
Proof.
  unfold add_edge. cbn [adj]. destruct (existsb (same_edge u v) (adj G)).
  - rewrite map_map. apply map_ext. intros e.
    destruct (same_edge u v e) eqn:He; [|reflexivity].
    apply same_edge_key in He. rewrite He. reflexivity.
  - rewrite map_app. reflexivity.
Qed.

Lemma existsb_same_edge G u v :
  existsb (same_edge u v) (adj G) = true <-> In (u, v) (map edge_key (adj G)).
Proof.
  rewrite existsb_exists, in_map_iff. split.
  - intros (e & He & Hs). exists e. split; [apply same_edge_key, Hs|exact He].
  - intros (e & Hk & He). exists e. split; [exact He|apply same_edge_key, Hk].
Qed.

Lemma add_edge_key_in G u v w k :
  In k (map edge_key (adj (add_edge G u v w)))
  <-> k = (u, v) \/ In k (map edge_key (adj G)).
Proof.
  rewrite add_edge_keys.
  destruct (existsb (same_edge u v) (adj G)) eqn:Hex.
  - apply existsb_same_edge in Hex. split; [auto|].
    intros [->|H]; assumption.
  - rewrite in_app_iff. cbn [In]. intuition.
Qed.

Lemma add_edge_keys_NoDup G u v w :
  NoDup (map edge_key (adj G)) ->
  NoDup (map edge_key (adj (add_edge G u v w))).
Proof.
  intros H. rewrite add_edge_keys.
  destruct (existsb (same_edge u v) (adj G)) eqn:Hex; [exact H|].
  apply NoDup_app; [exact H| |].
  - constructor; [intros []|constructor].
  - intros k Hk [<-|[]]. apply existsb_same_edge in Hk. congruence.
Qed.

Lemma add_row_built attr G r : built G -> built (add_row attr G r).
Proof.
  intros [Hd Hn Hk He]. unfold add_row. split.
  - exact Hd.
  - cbn [add_edge nodes]. apply add_node_NoDup, add_node_NoDup, Hn.
  - apply add_edge_keys_NoDup, Hk.
  - intros u v Hin. apply add_edge_key_in in Hin. cbn [add_edge nodes].
    rewrite !add_node_in. destruct Hin as [Heq|Hin].
    + injection Heq as -> ->. auto.
    + destruct (He u v Hin). auto.
Qed.

Lemma fold_add_row_built attr l G :
  built G -> built (fold_left (add_row attr) l G).
Proof.
  revert G. induction l as [|r l IH]; intros G H; [exact H|].
  cbn [fold_left]. apply IH, add_row_built, H.
Qed.

Lemma fold_add_row_nodes attr l G n :
  In n (nodes (fold_left (add_row attr) l G))
  <-> In n (nodes G)
      \/ exists r, In r l /\ (Row.source r = n \/ Row.target r = n).
Proof.
  revert G. induction l as [|r l IH]; intros G; cbn [fold_left].
  - split; [auto|]. intros [H|(r & [] & _)]. exact H.
  - rewrite IH. unfold add_row. cbn [add_edge nodes].
    rewrite !add_node_in. split.
    + intros [[->|[->|H]]|(r' & Hr' & H)].
      * right. exists r. split; [left; reflexivity|auto].
      * right. exists r. split; [left; reflexivity|auto].
      * left. exact H.
      * right. exists r'. split; [right; exact Hr'|exact H].
    + intros [H|(r' & [<-|Hr'] & H)].
      * auto.
      * destruct H as [<-|<-]; auto.
      * right. exists r'. auto.
Qed.

Lemma fold_add_row_keys attr l G k :
  In k (map edge_key (adj (fold_left (add_row attr) l G)))
  <-> In k (map edge_key (adj G))
      \/ exists r, In r l /\ k = (Row.source r, Row.target r).
Proof.
  revert G. induction l as [|r l IH]; intros G; cbn [fold_left].
  - split; [auto|]. intros [H|(r & [] & _)]. exact H.
  - rewrite IH. unfold add_row. rewrite add_edge_key_in. split.
    + intros [[->|H]|(r' & Hr' & H)].
      * right. exists r. split; [left; reflexivity|reflexivity].
      * left. exact H.
      * right. exists r'. split; [right; exact Hr'|exact H].
    + intros [H|(r' & [<-|Hr'] & H)].
      * auto.
      * auto.
      * right. exists r'. auto.
Qed.

Lemma empty_graph_built : built (mkGraph true [] []).
Proof.
  split.
  - reflexivity.
  - constructor.
  - constructor.
  - intros a b [].
Qed.

Lemma from_pandas_edgelist_built df_p edge_attr :
  let G := from_pandas_edgelist df_p edge_attr in
  directed G = true
  /\ NoDup (nodes G)
  /\ NoDup (map edge_key (adj G))
  /\ (forall n,
        In n (nodes G)
        <-> exists r, In r (rows df_p)
                      /\ (Row.source r = n \/ Row.target r = n))
  /\ (forall u v,
        In (u, v) (map edge_key (adj G))
        <-> exists r, In r (rows df_p)
                      /\ Row.source r = u /\ Row.target r = v).
Proof.
  cbn zeta. change (from_pandas_edgelist df_p edge_attr)
    with (fold_left (add_row edge_attr) (rows df_p) (mkGraph true [] [])).
  destruct (fold_add_row_built edge_attr (rows df_p) _ empty_graph_built)
    as [Hd Hn Hk _].
  repeat split; try assumption.
  - intros H. apply fold_add_row_nodes in H. destruct H as [[]|H]. exact H.
  - intros H. apply fold_add_row_nodes. right. exact H.
  - intros H. apply fold_add_row_keys in H. destruct H as [[]|(r & Hr & Heq)].
    injection Heq as -> ->. exists r. auto.
  - intros (r & Hr & <- & <-). apply fold_add_row_keys. right.
    exists r. auto.
Qed.

(** X9: The DiGraph that analyze_network builds from the rows of a period has
    each node once and at most one edge per ordered pair; its nodes are
    exactly the sources and targets of the rows and its edges exactly the
    (source, target) pairs of the rows. *)
Theorem from_pandas_edgelist_graph df_p edge_attr :
  let G := from_pandas_edgelist df_p edge_attr in
  directed G = true
  /\ NoDup (nodes G)
  /\ NoDup (map edge_key (adj G))
  /\ (forall n,
        In n (nodes G)
        <-> exists r, In r (rows df_p)
                      /\ (Row.source r = n \/ Row.target r = n))
  /\ (forall u v,
        In (u, v) (map edge_key (adj G))
        <-> exists r, In r (rows df_p)
                      /\ Row.source r = u /\ Row.target r = v).
Proof. apply from_pandas_edgelist_built. Qed.

Lemma find_app_last {A : Type} (q : A -> bool) l a :
  find q (l ++ [a])
  = match find q l with
    | Some x => Some x
    | None => if q a then Some a else None
    end.
Proof.
  induction l as [|b l IH]; cbn [app find]; [reflexivity|].
  destruct (q b); [reflexivity|exact IH].
Qed.

Lemma find_map_same {A : Type} (q : A -> bool) (g : A -> A) l :
  (forall a, q (g a) = q a) ->
  find q (map g l) = option_map g (find q l).
Proof.
  intros H. induction l as [|a l IH]; cbn [map find]; [reflexivity|].
  rewrite H. destruct (q a); [reflexivity|exact IH].
Qed.

Lemma same_edge_other s t u v e :
  same_edge s t e = true -> same_edge u v e = (s =? u) && (t =? v).
Proof.
  unfold same_edge. rewrite andb_true_iff, !String.eqb_eq.
  intros (-> & ->). reflexivity.
Qed.

Lemma find_some_existsb {A : Type} (q : A -> bool) l x :
  find q l = Some x -> existsb q l = true.
Proof.
  intros H. apply find_some in H. apply existsb_exists. exists x. exact H.
Qed.

Lemma add_edge_weight G s t w u v :
  edge_weight (add_edge G s t (Some w)) u v
  = if (s =? u) && (t =? v) then Some w else edge_weight G u v.
Proof.
  unfold edge_weight, add_edge. cbn [adj].
  destruct (existsb (same_edge s t) (adj G)) eqn:Hex.
  - rewrite find_map_same.
    2:{ intros e. destruct (same_edge s t e) eqn:He; [|reflexivity].
        rewrite (same_edge_other s t u v e He).
        unfold same_edge, edge_src, edge_dst. reflexivity. }
    destruct (find (same_edge u v) (adj G)) as [e|] eqn:Hf; cbn [option_map].
    + apply find_some in Hf. destruct Hf as (_ & Huv).
      destruct (same_edge s t e) eqn:He.
      * rewrite (same_edge_other s t u v e He) in Huv. rewrite Huv.
        reflexivity.
      * destruct ((s =? u) && (t =? v)) eqn:Heq; [|reflexivity].
        apply andb_true_iff in Heq. rewrite !String.eqb_eq in Heq.
        destruct Heq as (-> & ->). congruence.
    + destruct ((s =? u) && (t =? v)) eqn:Heq; [|reflexivity].
      apply andb_true_iff in Heq. rewrite !String.eqb_eq in Heq.
      destruct Heq as (-> & ->).
      apply existsb_exists in Hex. destruct Hex as (e & He & Hs).
      pose proof (find_none _ _ Hf e He). congruence.
  - rewrite find_app_last.
    destruct (find (same_edge u v) (adj G)) as [e|] eqn:Hf.
    + destruct ((s =? u) && (t =? v)) eqn:Heq; [|reflexivity].
      apply andb_true_iff in Heq. rewrite !String.eqb_eq in Heq.
      destruct Heq as (-> & ->).
      apply find_some_existsb in Hf. congruence.
    + unfold same_edge at 1, edge_src, edge_dst. cbn [fst snd].
      destruct ((s =? u) && (t =? v)); reflexivity.
Qed.

Lemma add_edge_no_weight G s t u v :
  edge_weight (add_edge G s t None) u v
  = if existsb (same_edge s t) (adj G) then edge_weight G u v
    else if (s =? u) && (t =? v) then None else edge_weight G u v.
Proof.
  unfold edge_weight, add_edge. cbn [adj].
  destruct (existsb (same_edge s t) (adj G)) eqn:Hex.
  - rewrite find_map_same.
    2:{ intros e. destruct (same_edge s t e) eqn:He; [|reflexivity].
        rewrite (same_edge_other s t u v e He).
        unfold same_edge, edge_src, edge_dst. reflexivity. }
    destruct (find (same_edge u v) (adj G)) as [e|]; cbn [option_map];
      [|reflexivity].
    destruct (same_edge s t e); reflexivity.
  - rewrite find_app_last.
    destruct (find (same_edge u v) (adj G)) as [e|] eqn:Hf.
    + destruct ((s =? u) && (t =? v)) eqn:Heq; [|reflexivity].
      apply andb_true_iff in Heq. rewrite !String.eqb_eq in Heq.
      destruct Heq as (-> & ->).
      apply find_some_existsb in Hf. congruence.
    + unfold same_edge at 1, edge_src, edge_dst. cbn [fst snd].
      destruct ((s =? u) && (t =? v)); reflexivity.
Qed.

Lemma fold_add_row_weight l G u v :
  edge_weight (fold_left (add_row true) l G) u v
  = match last_row u v l with
    | Some r => Some (Row.weight r)
    | None => edge_weight G u v
    end.
Proof.
  revert G. induction l as [|r l IH]; intros G; [reflexivity|].
  cbn [fold_left]. rewrite IH. unfold last_row. cbn [rev].
  rewrite find_app_last.
  destruct (find _ (rev l)) as [r'|]; [reflexivity|].
  unfold add_row. rewrite add_edge_weight.
  destruct (_ && _); reflexivity.
Qed.

Lemma fold_add_row_unweighted l G :
  (forall u v, edge_weight G u v = None) ->
  forall u v, edge_weight (fold_left (add_row false) l G) u v = None.
Proof.
  revert G. induction l as [|r l IH]; intros G H u v; [apply H|].
  cbn [fold_left]. apply IH. intros u' v'. unfold add_row.
  rewrite add_edge_no_weight.
  destruct (existsb _ _); [apply H|].
  destruct (_ && _); [reflexivity|apply H].
Qed.

(** X10: When rows of a period repeat a (source, target) pair, the edge
    carries the weight of the last such row (earlier rows are overwritten, not
    summed); without a weight column the edges carry no weight. *)
Theorem from_pandas_edgelist_last_row df_p edge_attr u v :
  edge_weight (from_pandas_edgelist df_p edge_attr) u v
  = if edge_attr
    then option_map Row.weight (last_row u v (rows df_p))
    else None.
Proof.
  change (from_pandas_edgelist df_p edge_attr)
    with (fold_left (add_row edge_attr) (rows df_p) (mkGraph true [] [])).
  destruct edge_attr.
  - rewrite fold_add_row_weight. destruct (last_row u v (rows df_p));
      reflexivity.
  - apply fold_add_row_unweighted. reflexivity.
Qed.

Section NetworkTable.
Variables clos betw dist : Graph -> node -> float.

Lemma calculate_node_metrics_rows G p :
  directed G = true ->
  calculate_node_metrics clos betw dist G p
  = Ok (metrics_rows clos betw dist G p, annotated G).
Proof.
  intros Hd. unfold calculate_node_metrics. rewrite set_weights_ok.
  cbn [bind]. fold (normalized G). cbn [directed nodes normalized].
  rewrite Hd.
  rewrite (map_result_total _
             (fun n => vulnerability_formula (in_degree (normalized G) n))).
  2:{ intros n _. unfold vulnerability_of, vulnerability_formula.
      destruct (fne0 _); reflexivity. }
  cbn [bind]. rewrite set_inv_weights_ok. cbn [bind].
  cbn [nodes]. rewrite zip_with_map_r. reflexivity.
Qed.

Lemma period_graph_directed df p : directed (period_graph df p) = true.
Proof. apply from_pandas_edgelist_shape. Qed.

(** [analyze_network] period by period. *)
Lemma analyze_network_periods df :
  analyze_network clos betw dist df
  = let periods :=
      sorted_unique String.compare (map Row.period (rows (data df))) in
    if is_empty periods
    then Err (ValueError "No objects to concatenate")
    else Ok (flat_map (fun p => metrics_rows clos betw dist (period_graph df p) p) periods).
Proof.
  unfold analyze_network. cbn zeta.
  rewrite (map_result_total _
             (fun p => metrics_rows clos betw dist (period_graph df p) p)).
  2:{ intros p _. fold (period_graph df p).
      rewrite (calculate_node_metrics_rows _ p (period_graph_directed df p)).
      reflexivity. }
  cbn [bind]. rewrite flat_map_concat_map.
  destruct (sorted_unique _ _); reflexivity.
Qed.

Lemma sorted_unique_empty (l : list string) :
  is_empty (sorted_unique String.compare l) = is_empty l.
Proof.
  destruct l as [|k l]; [reflexivity|].
  cbn [sorted_unique fold_right is_empty].
  destruct (fold_right _ _ _) as [|y t]; cbn [insert_key]; [reflexivity|].
  destruct (String.compare k y); reflexivity.
Qed.

Lemma period_graph_has_node df p :
  In p (map Row.period (rows (data df))) ->
  is_empty (nodes (period_graph df p)) = false.
Proof.
  intros Hp. apply in_map_iff in Hp. destruct Hp as (r & Hper & Hr).
  assert (Hn : In (Row.source r) (nodes (period_graph df p))).
  { apply (from_pandas_edgelist_built _ _). exists r. split; [|left; reflexivity].
    rewrite rows_select. apply filter_In. split; [exact Hr|].
    rewrite Hper. apply String.eqb_refl. }
  destruct (nodes (period_graph df p)); [destruct Hn|reflexivity].
Qed.

(** X11: On a dataset whose table has no rows analyze_network raises
    ValueError ('No objects to concatenate', from pd.concat of an empty
    list); whenever it returns, the dataset has rows and the returned table
    has at least one row. *)
Theorem analyze_network_no_rows df :
  (is_empty (rows (data df)) = true ->
   analyze_network clos betw dist df
   = Err (ValueError "No objects to concatenate"))
  /\ (forall table,
        analyze_network clos betw dist df = Ok table ->
        is_empty (rows (data df)) = false /\ is_empty table = false).
Proof.
  rewrite analyze_network_periods. cbn zeta. split.
  - intros H. rewrite sorted_unique_empty.
    destruct (rows (data df)); [reflexivity|discriminate].
  - intros table.
    destruct (sorted_unique String.compare (map Row.period (rows (data df))))
      as [|p ps] eqn:Hps; [discriminate|].
    cbn [is_empty]. intros [= <-]. split.
    + destruct (rows (data df)); [discriminate|reflexivity].
    + assert (Hp : In p (map Row.period (rows (data df)))).
      { apply sorted_unique_in. rewrite Hps. left. reflexivity. }
      apply period_graph_has_node in Hp. cbn [flat_map].
      unfold metrics_rows at 1.
      destruct (nodes (period_graph df p)); [discriminate|reflexivity].
Qed.

(** ** The table of analyze_network *)

Lemma weighted_sum_zero_total G (q : edge -> bool) :
  (forall upd e, q (update_edge upd e) = q e) ->
  fgt0 (total_weight G) = false ->
  feq (py_sum (map (fun e => get_weight (Fin 1) (edge_data e))
                   (filter q (adj (normalized G)))))
      (Fin 0).
Proof.
  intros Hq Hz. unfold normalized. cbn [adj].
  rewrite (in_edges_update (weight_update (total_weight G)) q
             (get_weight (Fin 1))) by apply Hq.
  apply py_sum_zeros. intros e _.
  cbn [weight_update get_weight Edge.weight]. unfold normalize.
  rewrite Hz. reflexivity.
Qed.

Lemma fadd_zero x y : feq x (Fin 0) -> feq y (Fin 0) -> feq (fadd x y) (Fin 0).
Proof.
  destruct x as [a| | |], y as [b| | |]; cbn [feq fadd]; try contradiction.
  intros -> ->. reflexivity.
Qed.

Lemma period_graph_total df p : fgt0 (total_weight (period_graph df p)) = false.
Proof.
  apply no_qty_total; apply from_pandas_edgelist_shape.
Qed.

(** X12: Every row of every table analyze_network returns has Degree, Out
    Degree and In Degree equal to 0 and Vulnerability 0: the graphs are built
    with the attribute 'weight' (or none), never 'qty', so the total of line
    64 of metrics.py is 0. *)
Theorem analyze_network_all_zero df table :
  analyze_network clos betw dist df = Ok table ->
  Forall (fun row =>
            feq (Degree row) (Fin 0)
            /\ (exists o, Out_Degree row = Some o /\ feq o (Fin 0))
            /\ (exists i, In_Degree row = Some i /\ feq i (Fin 0))
            /\ Vulnerability row = Fin 0)
         table.
Proof.
  rewrite analyze_network_periods. cbn zeta.
  destruct (is_empty _); [discriminate|]. intros H. injection H as <-.
  apply Forall_forall. intros row Hrow. apply in_flat_map in Hrow.
  destruct Hrow as (p & _ & Hrow). unfold metrics_rows in Hrow.
  apply in_map_iff in Hrow. destruct Hrow as (n & <- & _).
  cbn [Degree Out_Degree In_Degree Vulnerability].
  pose proof (period_graph_total df p) as Hz.
  pose proof (weighted_sum_zero_total _ (fun e => edge_src e =? n)
                (fun _ _ => eq_refl) Hz) as Hout.
  pose proof (weighted_sum_zero_total _ (fun e => edge_dst e =? n)
                (fun _ _ => eq_refl) Hz) as Hin.
  fold (out_degree (normalized (period_graph df p)) n) in Hout.
  fold (in_degree (normalized (period_graph df p)) n) in Hin.
  split; [|split; [|split]].
  - unfold degree. cbn [directed normalized].
    rewrite period_graph_directed. apply fadd_zero; assumption.
  - eexists. split; [reflexivity|exact Hout].
  - eexists. split; [reflexivity|exact Hin].
  - unfold vulnerability_formula.
    destruct (in_degree _ n) as [x| | |]; try contradiction.
    cbn [feq] in Hin. unfold fne0. apply Qeq_bool_iff in Hin. rewrite Hin.
    reflexivity.
Qed.

Lemma metrics_rows_keys G p :
  table_keys (metrics_rows clos betw dist G p) = map (pair p) (nodes G).
Proof.
  unfold table_keys, metrics_rows. rewrite map_map. reflexivity.
Qed.

Lemma table_keys_flat_map (f : string -> Graph) ps :
  table_keys (flat_map (fun p => metrics_rows clos betw dist (f p) p) ps)
  = flat_map (fun p => map (pair p) (nodes (f p))) ps.
Proof.
  unfold table_keys. induction ps as [|p ps IH]; [reflexivity|].
  cbn [flat_map]. rewrite map_app, IH. f_equal. apply metrics_rows_keys.
Qed.

Lemma NoDup_map_pair (p : string) (l : list node) :
  NoDup l -> NoDup (map (pair p) l).
Proof.
  induction 1 as [|n l Hn _ IH]; cbn [map]; constructor; [|exact IH].
  intros Hin. apply in_map_iff in Hin. destruct Hin as (n' & Heq & Hn').
  injection Heq as ->. contradiction.
Qed.

Lemma NoDup_blocks (f : string -> list node) ps :
  NoDup ps -> (forall p, NoDup (f p)) ->
  NoDup (flat_map (fun p => map (pair p) (f p)) ps).
Proof.
  intros Hps Hf. induction Hps as [|p ps Hp _ IH]; [constructor|].
  cbn [flat_map]. apply NoDup_app.
  - apply NoDup_map_pair, Hf.
  - exact IH.
  - intros k Hk Hk'. apply in_map_iff in Hk. destruct Hk as (n & <- & _).
    apply in_flat_map in Hk'. destruct Hk' as (p' & Hp' & Hin).
    apply in_map_iff in Hin. destruct Hin as (n' & Heq & _).
    injection Heq as -> _. contradiction.
Qed.

Lemma blocks_sorted (f : string -> list MetricsRow) ps :
  ascending ps ->
  (forall p row, In row (f p) -> Period row = p) ->
  StronglySorted period_le (map Period (flat_map f ps)).
Proof.
  intros Hps Hf. induction Hps as [|p ps Hs IH Hp]; [constructor|].
  cbn [flat_map]. rewrite map_app.
  assert (Hrest : Forall (fun q => String_as_OT.lt p q)
                         (map Period (flat_map f ps))).
  { apply Forall_forall. intros q Hq. apply in_map_iff in Hq.
    destruct Hq as (row & <- & Hrow). apply in_flat_map in Hrow.
    destruct Hrow as (p' & Hp' & Hrow). rewrite (Hf p' row Hrow).
    rewrite Forall_forall in Hp. apply Hp, Hp'. }
  assert (Hblock : Forall (fun q => q = p) (map Period (f p))).
  { apply Forall_forall. intros q Hq. apply in_map_iff in Hq.
    destruct Hq as (row & <- & Hrow). apply (Hf p row Hrow). }
  induction Hblock as [|q l Hq Hl IHl]; [exact IH|].
  cbn [app]. constructor; [exact IHl|].
  apply Forall_app. split.
  - clear -Hq Hl. subst q. induction Hl; constructor; auto.
    left. symmetry. assumption.
  - subst q. eapply Forall_impl; [|exact Hrest]. intros a Ha. right. exact Ha.
Qed.

(** X13: The table of analyze_network has exactly one row per (period, node)
    pair such that some row of that period has the node as source or target,
    and its periods appear in ascending order. *)
Theorem analyze_network_keys df table :
  analyze_network clos betw dist df = Ok table ->
  NoDup (table_keys table)
  /\ (forall p n,
        In (p, n) (table_keys table)
        <-> exists r, In r (rows (data df))
                      /\ Row.period r = p
                      /\ (Row.source r = n \/ Row.target r = n))
  /\ StronglySorted period_le (map Period table).
Proof.
  rewrite analyze_network_periods. cbn zeta.
  destruct (is_empty _); [discriminate|]. intros H. injection H as <-.
  rewrite table_keys_flat_map. split; [|split].
  - apply NoDup_blocks.
    + apply ascending_NoDup, sorted_unique_ascending.
    + intros p. apply (from_pandas_edgelist_built _ _).
  - intros p n. rewrite in_flat_map. split.
    + intros (p' & _ & Hin). apply in_map_iff in Hin.
      destruct Hin as (n' & Heq & Hn). injection Heq as -> ->.
      apply (from_pandas_edgelist_built _ _) in Hn.
      destruct Hn as (r & Hr & Hends). rewrite rows_select in Hr.
      apply filter_In in Hr. destruct Hr as (Hr & Hp).
      apply String.eqb_eq in Hp. exists r. auto.
    + intros (r & Hr & <- & Hends). exists (Row.period r). split.
      * apply sorted_unique_in, in_map, Hr.
      * apply in_map. apply (from_pandas_edgelist_built _ _).
        exists r. split; [|exact Hends].
        rewrite rows_select. apply filter_In. split; [exact Hr|].
        apply String.eqb_refl.
  - apply blocks_sorted; [apply sorted_unique_ascending|].
    intros p row Hrow. unfold metrics_rows in Hrow.
    apply in_map_iff in Hrow. destruct Hrow as (n & <- & _). reflexivity.
Qed.
End NetworkTable.

Lemma analyze_network_no_rows_witness :
  analyze_network no_centrality no_centrality no_centrality no_rows
  = Err (ValueError "No objects to concatenate").
Proof.
  apply (proj1 (analyze_network_no_rows
                  no_centrality no_centrality no_centrality no_rows)).
  reflexivity.
Defined.

(** ** What calculate_node_metrics reads *)

Lemma map_result_ext {A B : Type} (f g : A -> result B) l :
  (forall a, f a = g a) -> map_result f l = map_result g l.
Proof.
  intros H. induction l as [|a l IH]; [reflexivity|].
  cbn [map_result]. rewrite H, IH. reflexivity.
Qed.

Lemma zip_with_ext {A B C : Type} (f g : A -> B -> C) l m :
  (forall a b, f a b = g a b) -> zip_with f l m = zip_with g l m.
Proof.
  intros H. revert m. induction l as [|a l IH]; intros [|b m];
    cbn [zip_with]; try reflexivity.
  rewrite H, IH. reflexivity.
Qed.

Section ReadsQty.
Variables clos betw dist : Graph -> node -> float.

(** The call in one expression, directed or not. *)
Lemma calculate_node_metrics_eq G p :
  calculate_node_metrics clos betw dist G p
  = (vulnerability <-
       map_result
         (fun n => vulnerability_of
                     (if directed G
                      then Some (in_degree (normalized G) n) else None))
         (nodes G) ;;
     Ok (zip_with
           (fun n vul =>
              mkMetrics p n (degree (normalized G) n)
                (if directed G
                 then Some (out_degree (normalized G) n) else None)
                (if directed G
                 then Some (in_degree (normalized G) n) else None)
                vul (clos (annotated G) n) (betw (annotated G) n)
                (dist (annotated G) n))
           (nodes G) vulnerability,
         annotated G)).
Proof.
  unfold calculate_node_metrics. rewrite set_weights_ok. cbn [bind].
  fold (normalized G). cbn [directed nodes normalized].
  destruct (map_result _ (nodes G)) as [vul|e]; [|reflexivity].
  cbn [bind]. rewrite set_inv_weights_ok. reflexivity.
Qed.

Variable upd : Edge.t -> Edge.t.
Hypothesis upd_qty : forall d, Edge.qty (upd d) = Edge.qty d.

Lemma total_weight_updated G : total_weight (updated upd G) = total_weight G.
Proof.
  unfold total_weight, updated. rewrite edges_update, map_map. f_equal.
  apply map_ext. intros e. unfold get_qty, update_edge, edge_data.
  cbn [snd]. rewrite upd_qty. reflexivity.
Qed.

Lemma normalize_updated t d : normalize t (upd d) = normalize t d.
Proof. unfold normalize, get_qty. rewrite upd_qty. reflexivity. Qed.

Lemma normalized_updated G :
  adj (normalized (updated upd G))
  = map (update_edge (fun d => weight_update (total_weight G) (upd d)))
        (adj G).
Proof.
  unfold normalized. rewrite total_weight_updated. cbn [adj updated].
  rewrite map_map. reflexivity.
Qed.

Lemma annotated_updated G : annotated (updated upd G) = annotated G.
Proof.
  unfold annotated. rewrite total_weight_updated.
  cbn [updated directed nodes adj].
  f_equal. rewrite !map_map. apply map_ext. intros [[u v] d].
  unfold with_inv_weight, with_weight, update_edge, edge_src, edge_dst,
    edge_data, inv_weight_update, weight_update, invert.
  cbn [fst snd Edge.qty Edge.weight Edge.inv_weight get_weight].
  rewrite upd_qty, normalize_updated. reflexivity.
Qed.

Lemma filtered_weights_updated G (q : edge -> bool) :
  (forall f e, q (update_edge f e) = q e) ->
  map (fun e => get_weight (Fin 1) (edge_data e))
      (filter q (adj (normalized (updated upd G))))
  = map (fun e => get_weight (Fin 1) (edge_data e))
        (filter q (adj (normalized G))).
Proof.
  intros Hq. rewrite normalized_updated. unfold normalized. cbn [adj].
  rewrite (in_edges_update _ q (get_weight (Fin 1))) by apply Hq.
  unfold with_weight.
  rewrite (in_edges_update _ q (get_weight (Fin 1))) by apply Hq.
  apply map_ext. intros e. cbn [weight_update get_weight Edge.weight].
  apply normalize_updated.
Qed.

Lemma in_degree_updated G n :
  in_degree (normalized (updated upd G)) n = in_degree (normalized G) n.
Proof.
  unfold in_degree. f_equal.
  apply (filtered_weights_updated G (fun e => edge_dst e =? n)).
  reflexivity.
Qed.

Lemma out_degree_updated G n :
  out_degree (normalized (updated upd G)) n = out_degree (normalized G) n.
Proof.
  unfold out_degree. f_equal.
  apply (filtered_weights_updated G (fun e => edge_src e =? n)).
  reflexivity.
Qed.

Lemma neighbour_weights_updated G n :
  map (fun nd => (fst nd, get_weight (Fin 1) (snd nd)))
      (flat_map (incident n) (adj (normalized (updated upd G))))
  = map (fun nd => (fst nd, get_weight (Fin 1) (snd nd)))
        (flat_map (incident n) (adj (normalized G))).
Proof.
  rewrite normalized_updated. unfold normalized, with_weight. cbn [adj].
  rewrite !incident_update, !map_map. apply map_ext. intros nd.
  cbn [fst snd weight_update get_weight Edge.weight].
  rewrite normalize_updated. reflexivity.
Qed.

Lemma undirected_degree_updated G n :
  undirected_degree (normalized (updated upd G)) n
  = undirected_degree (normalized G) n.
Proof.
  unfold undirected_degree. cbn zeta.
  pose proof (neighbour_weights_updated G n) as H.
  set (l' := flat_map (incident n) (adj (normalized (updated upd G)))) in *.
  set (l := flat_map (incident n) (adj (normalized G))) in *.
  assert (H1 : map (fun nd => get_weight (Fin 1) (snd nd)) l'
               = map (fun nd => get_weight (Fin 1) (snd nd)) l).
  { apply (f_equal (map snd)) in H. rewrite !map_map in H. exact H. }
  assert (H2 : map (fun nd => get_weight (Fin 1) (snd nd))
                   (filter (fun nd => fst nd =? n) l')
               = map (fun nd => get_weight (Fin 1) (snd nd))
                     (filter (fun nd => fst nd =? n) l)).
  { apply (f_equal (fun m => map snd (filter (fun x => fst x =? n) m))) in H.
    rewrite !(filter_map_comm
                (fun nd : node * Edge.t => (fst nd, get_weight (Fin 1) (snd nd)))
                (fun x : node * float => fst x =? n)) in H.
    rewrite !map_map in H. exact H. }
  rewrite H1, H2. reflexivity.
Qed.

Lemma degree_updated G n :
  degree (normalized (updated upd G)) n = degree (normalized G) n.
Proof.
  unfold degree. cbn [directed normalized updated].
  change (mkGraph (directed G) (nodes G)
            (map (with_weight
                    (total_weight
                       (mkGraph (directed G) (nodes G)
                          (map (update_edge upd) (adj G)))))
                 (map (update_edge upd) (adj G))))
    with (normalized (updated upd G)).
  fold (normalized G).
  rewrite in_degree_updated, out_degree_updated, undirected_degree_updated.
  reflexivity.
Qed.

Lemma calculate_updated G p :
  calculate_node_metrics clos betw dist (updated upd G) p
  = calculate_node_metrics clos betw dist G p.
Proof.
  rewrite !calculate_node_metrics_eq, annotated_updated.
  cbn [directed nodes updated].
  rewrite (map_result_ext _
             (fun n => vulnerability_of
                         (if directed G
                          then Some (in_degree (normalized G) n) else None))).
  2:{ intros n. rewrite in_degree_updated. reflexivity. }
  destruct (map_result _ (nodes G)) as [vul|e]; [|reflexivity].
  cbn [bind]. f_equal. f_equal.
  apply zip_with_ext. intros n v.
  rewrite degree_updated, in_degree_updated, out_degree_updated.
  reflexivity.
Qed.
End ReadsQty.

(** X14: calculate_node_metrics depends on the edge attributes only through
    qty: rewriting the other attributes (weight, inv_weight) of the edges in
    any way before the call changes neither the outcome, nor the table, nor
    the graph the call leaves. *)
Theorem calculate_node_metrics_reads_qty clos betw dist upd G p :
  (forall d, Edge.qty (upd d) = Edge.qty d) ->
  calculate_node_metrics clos betw dist (updated upd G) p
  = calculate_node_metrics clos betw dist G p.
Proof. intros H. apply calculate_updated. exact H. Qed.

(** X15: calculate_node_metrics is idempotent on the graph: a second call on
    the graph left by a successful call returns the same table and leaves the
    same graph. *)
Theorem calculate_node_metrics_again clos betw dist G p rows G2 :
  calculate_node_metrics clos betw dist G p = Ok (rows, G2) ->
  calculate_node_metrics clos betw dist G2 p = Ok (rows, G2).
Proof.
  intros H. pose proof H as H'. apply calculate_node_metrics_inv in H'.
  destruct H' as (-> & _). rewrite <- H.
  change (annotated G)
    with (mkGraph (directed G) (nodes G)
            (map with_inv_weight
                 (map (with_weight (total_weight G)) (adj G)))).
  rewrite map_map.
  apply (calculate_updated clos betw dist
           (fun d => inv_weight_update (weight_update (total_weight G) d))).
  reflexivity.
Qed.

(** ** Degrees of the normalised graph *)

Lemma Qsum_app (l m : list Q) : (Qsum (l ++ m) == Qsum l + Qsum m)%Q.
Proof.
  induction l as [|a l IH]; cbn [app Qsum]; [ring|]. rewrite IH. ring.
Qed.

Lemma Qsum_plus {A : Type} (f h : A -> Q) (l : list A) :
  (Qsum (map (fun a => f a + h a) l) == Qsum (map f l) + Qsum (map h l))%Q.
Proof.
  induction l as [|a l IH]; cbn [map Qsum]; [ring|]. rewrite IH. ring.
Qed.

Lemma Qsum_zero {A : Type} (l : list A) : (Qsum (map (fun _ => 0) l) == 0)%Q.
Proof.
  induction l as [|a l IH]; cbn [map Qsum]; [reflexivity|]. rewrite IH. ring.
Qed.

Lemma Qsum_flat_map {A B : Type} (g : B -> Q) (f : A -> list B) (l : list A) :
  (Qsum (map g (flat_map f l))
   == Qsum (map (fun a => Qsum (map g (f a))) l))%Q.
Proof.
  induction l as [|a l IH]; cbn [flat_map map Qsum]; [reflexivity|].
  rewrite map_app, Qsum_app, IH. reflexivity.
Qed.

Lemma Qsum_indicator (k : node) (x : Q) (ns : list node) :
  NoDup ns -> In k ns ->
  (Qsum (map (fun n => if k =? n then x else 0) ns) == x)%Q.
Proof.
  induction 1 as [|n ns Hn Hnd IH]; intros Hin; [destruct Hin|].
  cbn [map Qsum]. destruct Hin as [->|Hin].
  - rewrite String.eqb_refl.
    rewrite (Qsum_ext _ (fun _ => 0) ns), Qsum_zero; [ring|].
    intros a Ha. destruct (String.eqb_spec k a) as [->|_];
      [contradiction|reflexivity].
  - destruct (String.eqb_spec k n) as [->|_]; [contradiction|].
    rewrite IH by exact Hin. ring.
Qed.

(** Summing node by node over the edges attached to the node by [key]
    counts every edge once. *)
Lemma Qsum_partition (key : edge -> node) (g : edge -> Q) ns es :
  NoDup ns -> (forall e, In e es -> In (key e) ns) ->
  (Qsum (map (fun n => Qsum (map g (filter (fun e => key e =? n) es))) ns)
   == Qsum (map g es))%Q.
Proof.
  intros Hnd. induction es as [|e es IH]; intros Hin.
  - cbn [filter map Qsum]. apply Qsum_zero.
  - rewrite (Qsum_ext _
       (fun n => (if key e =? n then g e else 0)
                 + Qsum (map g (filter (fun e => key e =? n) es)))).
    + rewrite Qsum_plus, Qsum_indicator, IH.
      * reflexivity.
      * intros a Ha. apply Hin. right. exact Ha.
      * exact Hnd.
      * apply Hin. left. reflexivity.
    + intros n _. cbn [filter]. destruct (key e =? n); cbn [map Qsum]; ring.
Qed.

Lemma Qsum_filter_le {A : Type} (g : A -> Q) (f : A -> bool) (l : list A) :
  (forall a, In a l -> 0 <= g a)%Q ->
  (Qsum (map g (filter f l)) <= Qsum (map g l))%Q.
Proof.
  induction l as [|a l IH]; intros H; cbn [filter map Qsum];
    [apply Qle_refl|].
  assert (Hl : (Qsum (map g (filter f l)) <= Qsum (map g l))%Q).
  { apply IH. intros b Hb. apply H. right. exact Hb. }
  assert (Ha : (0 <= g a)%Q) by (apply H; left; reflexivity).
  destruct (f a); cbn [map Qsum].
  - apply Qplus_le_compat; [apply Qle_refl|exact Hl].
  - rewrite <- (Qplus_0_l (Qsum (map g (filter f l)))).
    apply Qplus_le_compat; [exact Ha|exact Hl].
Qed.

Lemma fgt0_pos t : (0 < t)%Q -> fgt0 (Fin t) = true.
Proof.
  intros Hpos. unfold fgt0. destruct (Qle_bool t 0) eqn:E; [|reflexivity].
  apply Qle_bool_iff in E. exfalso. apply (Qlt_not_le _ _ Hpos E).
Qed.

Lemma fnonneg_finite x : fnonneg x -> is_finite x = true.
Proof. intros (q & -> & _). reflexivity. Qed.

Lemma fnonneg_value x : fnonneg x -> x = Fin (rational x) /\ (0 <= rational x)%Q.
Proof. intros (q & -> & Hq). split; [reflexivity|exact Hq]. Qed.

Lemma edge_ends G e :
  built G -> In e (adj G) -> In (edge_src e) (nodes G) /\ In (edge_dst e) (nodes G).
Proof.
  intros HG He. apply (built_ends G HG).
  change (edge_src e, edge_dst e) with (edge_key e).
  apply in_map. exact He.
Qed.

(** The total of line 64 is the sum of the quantities of the edges. *)
Lemma total_weight_value G :
  built G -> quantities G ->
  exists t, total_weight G = Fin t /\ (t == Qsum (map qty_q (adj G)))%Q.
Proof.
  intros HG Hq. unfold total_weight.
  assert (Hfin : Forall (fun x => is_finite x = true)
                        (map (fun e => get_qty (edge_data e)) (edges G))).
  { apply Forall_forall. intros x Hx. apply in_map_iff in Hx.
    destruct Hx as (e & <- & He).
    apply directed_edges_in in He; [|apply (built_directed G HG)].
    apply fnonneg_finite. exact (proj1 (Forall_forall _ _) Hq e He). }
  rewrite (finite_as_rationals _ Hfin).
  destruct (py_sum_fin (map rational
              (map (fun e => get_qty (edge_data e)) (edges G))))
    as (s & Hs & Hsum).
  exists s. split; [exact Hs|]. rewrite Hsum, map_map.
  unfold edges. rewrite (built_directed G HG).
  change (fun x : edge => rational (get_qty (edge_data x))) with qty_q.
  rewrite Qsum_flat_map.
  apply (Qsum_partition edge_src qty_q).
  - apply (built_nodes G HG).
  - intros e He. apply (edge_ends G e HG He).
Qed.

(** The weighted count, at a node, of the edges a degree selects. *)
Lemma selected_weight G (q : edge -> bool) t :
  (forall upd e, q (update_edge upd e) = q e) ->
  quantities G -> total_weight G = Fin t -> (0 < t)%Q ->
  exists s,
    py_sum (map (fun e => get_weight (Fin 1) (edge_data e))
                (filter q (adj (normalized G)))) = Fin s
    /\ (s == Qsum (map (fun e => qty_q e / t) (filter q (adj G))))%Q.
Proof.
  intros Hq HG Ht Hpos. unfold normalized. cbn [adj]. unfold with_weight.
  rewrite (in_edges_update (weight_update (total_weight G)) q
             (get_weight (Fin 1)) (adj G) (Hq _)).
  rewrite Ht.
  assert (Hl : map (fun e => get_weight (Fin 1)
                                (weight_update (Fin t) (edge_data e)))
                   (filter q (adj G))
               = map Fin (map (fun e => qty_q e / t) (filter q (adj G)))).
  { rewrite map_map. apply map_ext_in. intros e He.
    apply filter_In in He. destruct He as (He & _).
    unfold get_weight, weight_update. cbn [Edge.weight].
    unfold normalize.
    rewrite (fgt0_pos t Hpos).
    destruct (fnonneg_value _ (proj1 (Forall_forall _ _) HG e He))
      as (Hv & _).
    unfold qty_q. rewrite Hv at 1. apply fdiv_fin. exact Hpos. }
  rewrite Hl. apply py_sum_fin.
Qed.

Lemma py_sum_values {A : Type} (D : A -> float) (d : A -> Q) (l : list A) :
  (forall a, In a l -> exists s, D a = Fin s /\ (s == d a)%Q) ->
  exists S, py_sum (map D l) = Fin S /\ (S == Qsum (map d l))%Q.
Proof.
  intros H.
  assert (Hl : map D l = map Fin (map (fun a => rational (D a)) l)).
  { rewrite map_map. apply map_ext_in. intros a Ha.
    destruct (H a Ha) as (s & -> & _). reflexivity. }
  rewrite Hl.
  destruct (py_sum_fin (map (fun a => rational (D a)) l)) as (S & HS & HSq).
  exists S. split; [exact HS|]. rewrite HSq. apply Qsum_ext.
  intros a Ha. destruct (H a Ha) as (s & -> & Hs). exact Hs.
Qed.

(** The shares of the edges selected by [key], node by node, add up
    to the whole. *)
Lemma shares_partition G (key : edge -> node) t :
  built G -> (forall e, In e (adj G) -> In (key e) (nodes G)) ->
  (t == Qsum (map qty_q (adj G)))%Q -> (0 < t)%Q ->
  (Qsum (map (fun n => Qsum (map (fun e => qty_q e / t)
                                 (filter (fun e => key e =? n) (adj G))))
             (nodes G)) == 1)%Q.
Proof.
  intros HG Hkey Ht Hpos.
  rewrite (Qsum_partition key (fun e => qty_q e / t) (nodes G) (adj G)
             (built_nodes G HG) Hkey).
  rewrite Qsum_div, <- Ht. field. intros H0. rewrite H0 in Hpos.
  exact (Qlt_irrefl 0 Hpos).
Qed.

Section Degrees.
Variable G : Graph.
Variable t : Q.
Hypothesis G_built : built G.
Hypothesis G_quantities : quantities G.
Hypothesis total_value : total_weight G = Fin t.
Hypothesis total_sum : (t == Qsum (map qty_q (adj G)))%Q.
Hypothesis total_pos : (0 < t)%Q.

Lemma out_degree_value n :
  exists s, out_degree (normalized G) n = Fin s /\ (s == out_share G t n)%Q.
Proof.
  apply (selected_weight G (fun e => edge_src e =? n) t);
    try assumption. intros upd e. reflexivity.
Qed.

Lemma in_degree_value n :
  exists s, in_degree (normalized G) n = Fin s /\ (s == in_share G t n)%Q.
Proof.
  apply (selected_weight G (fun e => edge_dst e =? n) t);
    try assumption. intros upd e. reflexivity.
Qed.

Lemma degree_value_sum n :
  exists s, degree (normalized G) n = Fin s
            /\ (s == out_share G t n + in_share G t n)%Q.
Proof.
  unfold degree. cbn [normalized directed].
  rewrite (built_directed G G_built).
  destruct (out_degree_value n) as (a & -> & Ha).
  destruct (in_degree_value n) as (b & -> & Hb).
  exists (a + b)%Q. split; [reflexivity|]. rewrite Ha, Hb. reflexivity.
Qed.

Lemma out_shares_total : (Qsum (map (out_share G t) (nodes G)) == 1)%Q.
Proof.
  apply (shares_partition G edge_src t); try assumption.
  intros e He. apply (edge_ends G e G_built He).
Qed.

Lemma in_shares_total : (Qsum (map (in_share G t) (nodes G)) == 1)%Q.
Proof.
  apply (shares_partition G edge_dst t); try assumption.
  intros e He. apply (edge_ends G e G_built He).
Qed.

Lemma share_nonneg e : In e (adj G) -> (0 <= qty_q e / t)%Q.
Proof.
  intros He.
  destruct (fnonneg_value _ (proj1 (Forall_forall _ _) G_quantities e He))
    as (_ & Hq).
  unfold qty_q, Qdiv. apply Qmult_le_0_compat; [exact Hq|].
  apply Qlt_le_weak, Qinv_lt_0_compat, total_pos.
Qed.

Lemma in_share_range n : (0 <= in_share G t n)%Q /\ (in_share G t n <= 1)%Q.
Proof.
  unfold in_share. split.
  - apply Qsum_nonneg. intros e He. apply filter_In in He.
    apply share_nonneg, He.
  - eapply Qle_trans; [apply Qsum_filter_le; exact share_nonneg|].
    rewrite Qsum_div, <- total_sum. apply Qle_lteq. right. field.
    intros H0. rewrite H0 in total_pos. exact (Qlt_irrefl 0 total_pos).
Qed.

Lemma degree_columns clos betw dist p :
  let rows := metrics_rows clos betw dist G p in
  feq (py_sum (map (fun r => degree_value (Out_Degree r)) rows)) (Fin 1)
  /\ feq (py_sum (map (fun r => degree_value (In_Degree r)) rows)) (Fin 1)
  /\ feq (py_sum (map Degree rows)) (Fin 2).
Proof.
  cbn zeta. unfold metrics_rows. rewrite !map_map.
  cbn [Out_Degree In_Degree Degree degree_value].
  destruct (py_sum_values (fun n => out_degree (normalized G) n) (out_share G t) (nodes G))
    as (a & -> & Ha); [intros n _; apply out_degree_value|].
  destruct (py_sum_values (fun n => in_degree (normalized G) n) (in_share G t) (nodes G))
    as (b & -> & Hb); [intros n _; apply in_degree_value|].
  destruct (py_sum_values (fun n => degree (normalized G) n)
              (fun n => out_share G t n + in_share G t n)%Q (nodes G))
    as (c & -> & Hc); [intros n _; apply degree_value_sum|].
  cbn [feq]. rewrite Ha, Hb, Hc, Qsum_plus, out_shares_total, in_shares_total.
  repeat split; reflexivity.
Qed.

Lemma vulnerability_range clos betw dist p :
  Forall (fun r =>
            exists i v,
              In_Degree r = Some (Fin i) /\ (0 <= i)%Q /\ (i <= 1)%Q
              /\ Vulnerability r = Fin v /\ (0 <= v)%Q /\ (v < 1)%Q)
         (metrics_rows clos betw dist G p).
Proof.
  unfold metrics_rows. apply Forall_forall. intros r Hr.
  apply in_map_iff in Hr. destruct Hr as (n & <- & _).
  cbn [In_Degree Vulnerability].
  destruct (in_degree_value n) as (i & Hi & Hiq).
  destruct (in_share_range n) as (H0 & H1). rewrite <- Hiq in H0, H1.
  rewrite Hi. unfold vulnerability_formula, fne0.
  destruct (Qeq_bool i 0) eqn:E; cbn [negb].
  - exists i, 0%Q. split; [reflexivity|]. split; [exact H0|].
    split; [exact H1|]. split; [reflexivity|]. split; [apply Qle_refl|].
    reflexivity.
  - exists i, (1 + - i)%Q. split; [reflexivity|]. split; [exact H0|].
    split; [exact H1|]. split; [reflexivity|]. split.
    + rewrite <- (Qplus_opp_r i). apply Qplus_le_compat;
        [exact H1|apply Qle_refl].
    + apply Qeq_bool_neq in E.
      assert (Hpos : (0 < i)%Q).
      { apply Qle_lteq in H0. destruct H0 as [H0|H0]; [exact H0|].
        exfalso. apply E. symmetry. exact H0. }
      rewrite <- (Qplus_0_r 1) at 2.
      apply Qplus_lt_r. rewrite <- (Qplus_lt_r _ _ i).
      rewrite Qplus_opp_r, Qplus_0_r. exact Hpos.
Qed.

End Degrees.

(** X16: In exact arithmetic, for a directed graph (each node once, one
    edge per ordered pair, endpoints among the nodes) whose qty attributes
    are finite and non-negative with a positive total: whenever
    calculate_node_metrics returns, the Out Degree column of its table sums
    to 1, the In Degree column sums to 1 and the Degree column sums to 2. *)
Theorem degree_columns_sum clos betw dist G p rows G2 :
  built G -> quantities G -> fgt0 (total_weight G) = true ->
  calculate_node_metrics clos betw dist G p = Ok (rows, G2) ->
  feq (py_sum (map (fun r => degree_value (Out_Degree r)) rows)) (Fin 1)
  /\ feq (py_sum (map (fun r => degree_value (In_Degree r)) rows)) (Fin 1)
  /\ feq (py_sum (map Degree rows)) (Fin 2).
Proof.
  intros HG Hq Hpos Hcall.
  destruct (total_weight_value G HG Hq) as (t & Ht & Hsum).
  rewrite Ht in Hpos. apply fgt0_fin in Hpos.
  rewrite (calculate_node_metrics_rows clos betw dist G p
             (built_directed G HG)) in Hcall.
  injection Hcall as <- _.
  apply (degree_columns G t); assumption.
Qed.

(** X17: In exact arithmetic (the rounding of the double sums is not
    modelled), for a directed graph (each node once, one edge per ordered
    pair, endpoints among the nodes) whose qty attributes are finite and
    non-negative with a positive total: whenever calculate_node_metrics
    returns, every row of its table has In Degree between 0 and 1 and
    Vulnerability at least 0 and below 1. *)
Theorem in_degree_and_vulnerability_range clos betw dist G p rows G2 :
  built G -> quantities G -> fgt0 (total_weight G) = true ->
  calculate_node_metrics clos betw dist G p = Ok (rows, G2) ->
  Forall (fun r =>
            exists i v,
              In_Degree r = Some (Fin i) /\ (0 <= i)%Q /\ (i <= 1)%Q
              /\ Vulnerability r = Fin v /\ (0 <= v)%Q /\ (v < 1)%Q)
         rows.
Proof.
  intros HG Hq Hpos Hcall.
  destruct (total_weight_value G HG Hq) as (t & Ht & Hsum).
  rewrite Ht in Hpos. apply fgt0_fin in Hpos.
  rewrite (calculate_node_metrics_rows clos betw dist G p
             (built_directed G HG)) in Hcall.
  injection Hcall as <- _.
  apply (vulnerability_range G t); assumption.
Qed.

Lemma three_node_digraph_built : built three_node_digraph.
Proof.
  split.
  - reflexivity.
  - repeat constructor; cbn; intuition discriminate.
  - repeat constructor; cbn; intuition discriminate.
  - intros u v H. cbn in H.
    destruct H as [H|[H|[H|[]]]]; injection H as <- <-; cbn; auto.
Qed.

Lemma three_node_digraph_quantities : quantities three_node_digraph.
Proof.
  repeat constructor; cbn; eexists; (split; [reflexivity|discriminate]).
Qed.

Lemma degree_columns_sum_witness :
  exists rows,
    calculate_node_metrics no_centrality no_centrality no_centrality
      three_node_digraph "2020" = Ok (rows, annotated three_node_digraph)
    /\ map Node rows = ["A"; "B"; "C"]
    /\ feq (py_sum (map (fun r => degree_value (Out_Degree r)) rows)) (Fin 1)
    /\ feq (py_sum (map (fun r => degree_value (In_Degree r)) rows)) (Fin 1)
    /\ feq (py_sum (map Degree rows)) (Fin 2).
Proof.
  eexists. split; [vm_compute; reflexivity|]. split; [reflexivity|].
  apply (degree_columns_sum no_centrality no_centrality no_centrality
           three_node_digraph "2020" _ (annotated three_node_digraph)).
  - exact three_node_digraph_built.
  - exact three_node_digraph_quantities.
  - vm_compute. reflexivity.
  - vm_compute. reflexivity.
Defined.

(** ** Ordered keys *)

Lemma string_order : cmp_order String.compare.
Proof.
  split.
  - intros a b. apply String_as_OT.cmp_eq.
  - intros a b c Hab Hbc. apply compare_lt in Hab, Hbc. apply compare_lt.
    eapply String_as_OT.lt_trans; eassumption.
  - intros a b H. apply compare_lt, compare_gt, H.
Qed.

Lemma pair_order {A B : Type} (cmpA : A -> A -> comparison)
    (cmpB : B -> B -> comparison) :
  cmp_order cmpA -> cmp_order cmpB -> cmp_order (compare_pair cmpA cmpB).
Proof.
  intros HA HB.
  assert (reflA : forall a, cmpA a a = Eq)
    by (intros a; apply (cmp_eq cmpA HA); reflexivity).
  split.
  - intros [a1 a2] [b1 b2]. unfold compare_pair. cbn [fst snd]. split.
    + destruct (cmpA a1 b1) eqn:E; try discriminate.
      intros H. apply (cmp_eq cmpA HA) in E. apply (cmp_eq cmpB HB) in H.
      congruence.
    + intros [= <- <-]. rewrite reflA. apply (cmp_eq cmpB HB). reflexivity.
  - intros [a1 a2] [b1 b2] [c1 c2]. unfold compare_pair. cbn [fst snd].
    destruct (cmpA a1 b1) eqn:Eab; try discriminate;
      destruct (cmpA b1 c1) eqn:Ebc; try discriminate; intros Hab Hbc.
    + apply (cmp_eq cmpA HA) in Eab, Ebc. subst. rewrite reflA.
      eapply (cmp_lt_trans cmpB HB); eassumption.
    + apply (cmp_eq cmpA HA) in Eab. subst. rewrite Ebc. reflexivity.
    + apply (cmp_eq cmpA HA) in Ebc. subst. rewrite Eab. reflexivity.
    + rewrite (cmp_lt_trans cmpA HA _ _ _ Eab Ebc). reflexivity.
  - intros [a1 a2] [b1 b2]. unfold compare_pair. cbn [fst snd].
    destruct (cmpA a1 b1) eqn:Eab; try discriminate; intros H.
    + apply (cmp_eq cmpA HA) in Eab. subst. rewrite reflA.
      apply (cmp_gt_lt cmpB HB), H.
    + rewrite (cmp_gt_lt cmpA HA _ _ Eab). reflexivity.
Qed.

Lemma key_order : cmp_order compare_key.
Proof.
  unfold compare_key. repeat apply pair_order; apply string_order.
Qed.

Section SortedKeys.
Context {K : Type} (cmp : K -> K -> comparison).
Hypothesis order : cmp_order cmp.

Lemma insert_key_elements k x l :
  In x (insert_key cmp k l) <-> x = k \/ In x l.
Proof.
  induction l as [|y l IH]; cbn [insert_key].
  - split; intros [->|[]]; left; reflexivity.
  - destruct (cmp k y) eqn:Hc.
    + apply (cmp_eq cmp order) in Hc. subst y. split.
      * intros H. right. exact H.
      * intros [->|H]; [left; reflexivity|exact H].
    + split.
      * intros [<-|H]; [left; reflexivity|right; exact H].
      * intros [->|H]; [left; reflexivity|right; exact H].
    + split.
      * intros [<-|H]; [right; left; reflexivity|].
        apply IH in H. destruct H as [->|H];
          [left; reflexivity|right; right; exact H].
      * intros [->|[<-|H]].
        -- right. apply IH. left. reflexivity.
        -- left. reflexivity.
        -- right. apply IH. right. exact H.
Qed.

Lemma sorted_unique_elements x l : In x (sorted_unique cmp l) <-> In x l.
Proof.
  induction l as [|k l IH]; [reflexivity|].
  cbn [sorted_unique fold_right]. fold (sorted_unique cmp l).
  rewrite insert_key_elements, IH. cbn [In]. split; intros [H|H]; auto.
Qed.

Lemma insert_key_sorted k l :
  StronglySorted (fun a b => cmp a b = Lt) l ->
  StronglySorted (fun a b => cmp a b = Lt) (insert_key cmp k l).
Proof.
  induction 1 as [|y l Hl IH Hy]; cbn [insert_key].
  - constructor; constructor.
  - destruct (cmp k y) eqn:Hc.
    + constructor; assumption.
    + constructor; [constructor; assumption|].
      constructor; [exact Hc|].
      eapply Forall_impl; [|exact Hy]. intros z Hz. cbn beta.
      eapply (cmp_lt_trans cmp order); eassumption.
    + apply (cmp_gt_lt cmp order) in Hc. constructor; [exact IH|].
      apply Forall_forall. intros z Hz. apply insert_key_elements in Hz.
      destruct Hz as [->|Hz]; [exact Hc|].
      rewrite Forall_forall in Hy. apply Hy. exact Hz.
Qed.

Lemma sorted_unique_sorted l :
  StronglySorted (fun a b => cmp a b = Lt) (sorted_unique cmp l).
Proof.
  induction l as [|k l IH]; [constructor|].
  cbn [sorted_unique fold_right]. apply insert_key_sorted. exact IH.
Qed.

End SortedKeys.

(** ** The rows of the conversion *)

Lemma groupby_mean_keys two l :
  map key_of_trade (groupby_mean two l)
  = sorted_unique compare_key (map key_of_trade l).
Proof.
  unfold groupby_mean. rewrite map_map. rewrite <- (map_id (sorted_unique _ _)) at 2.
  apply map_ext. intros [[[s t] p] prod]. reflexivity.
Qed.

Lemma groupby_mean_values two l :
  Forall (fun r =>
            Row.value (Trade.row r)
            = mean (map (fun x => Row.value (Trade.row x))
                        (group (key_of_trade r) l)))
         (groupby_mean two l).
Proof.
  unfold groupby_mean. apply Forall_forall. intros r Hr.
  apply in_map_iff in Hr. destruct Hr as ([[[s t] p] prod] & <- & _).
  reflexivity.
Qed.

Lemma labelled_swap x l :
  labelled x (map swap_trade l) = map swap_trade (labelled x l).
Proof.
  unfold labelled. induction l as [|r l IH]; [reflexivity|].
  cbn [map filter swap_trade Trade.flow]. rewrite IH.
  destruct (Trade.flow r =? x); reflexivity.
Qed.

Lemma key_of_swap r : key_of_trade (swap_trade r) = reverse_key (key_of_trade r).
Proof. reflexivity. Qed.

Lemma reverse_key_involutive k : reverse_key (reverse_key k) = k.
Proof. destruct k as [[[s t] p] prod]. reflexivity. Qed.

Lemma group_cols_value s : group_cols s = ["source"; "target"; "period"; "product"].
Proof.
  unfold group_cols, required_keys.
  destruct (trade_to_network s), (two_values s); reflexivity.
Qed.

Section ConversionFacts.
Variable not_in_index : list string -> list string -> string.

Lemma flows_of_inv s i df d :
  flows_of not_in_index s i df = Return d ->
  exists x,
    nth_error (imp_exp s) i = Some x
    /\ convertible s df = true
    /\ d = mkTrade (required_keys s) (labelled x (trade_rows df)).
Proof.
  unfold flows_of, getitem, imp_exp_item, getitem_list, convertible.
  destruct (has_trade_column "flow" df); [|discriminate].
  cbn [and_then]. destruct (nth_error (imp_exp s) i) as [x|]; [|discriminate].
  cbn [and_then].
  change (fun k => has_trade_column k
                     (mkTrade (trade_columns df)
                              (labelled x (trade_rows df))))
    with (fun k => has_trade_column k df).
  destruct (forallb (fun k => has_trade_column k df) (required_keys s));
    [|discriminate].
  intros [= <-]. exists x. repeat split.
Qed.

Lemma flows_of_ok s i df x :
  nth_error (imp_exp s) i = Some x -> convertible s df = true ->
  flows_of not_in_index s i df
  = Return (mkTrade (required_keys s) (labelled x (trade_rows df))).
Proof.
  unfold flows_of, getitem, imp_exp_item, getitem_list, convertible.
  intros -> H.
  apply andb_true_iff in H. destruct H as (-> & H). cbn [and_then].
  change (fun k => has_trade_column k
                     (mkTrade (trade_columns df)
                              (labelled x (trade_rows df))))
    with (fun k => has_trade_column k df).
  rewrite H. reflexivity.
Qed.

Lemma both_inv s df d :
  _trade_to_network not_in_index (with_mode "both" s) df = Return d ->
  exists imp exp,
    nth_error (imp_exp s) 0 = Some imp
    /\ nth_error (imp_exp s) 1 = Some exp
    /\ convertible s df = true
    /\ d = mkTrade (network_columns (with_mode "both" s))
                   (groupby_mean (two_values s)
                      (mirrored imp exp (trade_rows df))).
Proof.
  unfold _trade_to_network. cbn [mode with_mode].
  change ("both" =? "import") with false.
  change ("both" =? "export") with false.
  change ("both" =? "both") with true. cbn iota.
  destruct (flows_of not_in_index (with_mode "both" s) 0 df)
    as [df_imp|e] eqn:Himp; [|discriminate].
  cbn [and_then].
  destruct (flows_of not_in_index (with_mode "both" s) 1 (swap_frame df))
    as [df_exp|e] eqn:Hexp; [|discriminate].
  cbn [and_then trade_rows].
  apply flows_of_inv in Himp. destruct Himp as (imp & Hi & Hc & ->).
  apply flows_of_inv in Hexp. destruct Hexp as (exp & He & _ & ->).
  cbn [trade_rows swap_frame with_mode imp_exp two_values] in *.
  rewrite labelled_swap. fold (mirrored imp exp (trade_rows df)).
  destruct (is_empty _); [discriminate|].
  intros [= <-]. exists imp, exp. repeat split; try assumption.
  unfold network_columns. cbn [mode with_mode two_values].
  change ("both" =? "both") with true. cbn iota.
  destruct (trade_to_network s), (two_values s); reflexivity.
Qed.

Lemma import_eq s df imp :
  nth_error (imp_exp s) 0 = Some imp -> convertible s df = true ->
  _trade_to_network not_in_index (with_mode "import" s) df
  = if is_empty (labelled imp (trade_rows df))
    then Raise (Builtin (ValueError
           "The dataframe is empty after trade to network conversion. Check 'mode' and 'imp_exp' parameters."))
    else Return (mkTrade (required_keys s)
                         (map swap_trade (labelled imp (trade_rows df)))).
Proof.
  intros Hi Hc. unfold _trade_to_network. cbn [mode with_mode].
  change ("import" =? "import") with true. cbn iota.
  rewrite (flows_of_ok (with_mode "import" s) 0 df imp Hi Hc).
  cbn [and_then swap_frame trade_rows trade_columns].
  destruct (labelled imp (trade_rows df)); reflexivity.
Qed.

Lemma export_eq s df exp :
  nth_error (imp_exp s) 1 = Some exp -> convertible s df = true ->
  _trade_to_network not_in_index (with_mode "export" s) df
  = if is_empty (labelled exp (trade_rows df))
    then Raise (Builtin (ValueError
           "The dataframe is empty after trade to network conversion. Check 'mode' and 'imp_exp' parameters."))
    else Return (mkTrade (required_keys s) (labelled exp (trade_rows df))).
Proof.
  intros He Hc. unfold _trade_to_network. cbn [mode with_mode].
  change ("export" =? "import") with false.
  change ("export" =? "export") with true. cbn iota.
  rewrite (flows_of_ok (with_mode "export" s) 1 df exp He Hc).
  cbn [and_then trade_rows].
  destruct (labelled exp (trade_rows df)); reflexivity.
Qed.

Lemma nonempty_of_in {A : Type} (a : A) l : In a l -> is_empty l = false.
Proof. destruct l; [intros []|reflexivity]. Qed.

Lemma both_keys s df d :
  _trade_to_network not_in_index (with_mode "both" s) df = Return d ->
  forall k,
    In k (map key_of_trade (trade_rows d))
    <-> exists m d',
          In m ["import"; "export"]
          /\ _trade_to_network not_in_index (with_mode m s) df = Return d'
          /\ In (reverse_key k) (map key_of_trade (trade_rows d')).
Proof.
  intros H k. apply both_inv in H.
  destruct H as (imp & exp & Hi & He & Hc & ->). cbn [trade_rows].
  rewrite groupby_mean_keys.
  rewrite (sorted_unique_elements compare_key key_order).
  unfold mirrored. rewrite map_app, in_app_iff, map_map. split.
  - intros [H|H].
    + apply in_map_iff in H. destruct H as (r & <- & Hr).
      exists "import". eexists. split; [left; reflexivity|].
      rewrite (import_eq s df imp Hi Hc), (nonempty_of_in r _ Hr).
      split; [reflexivity|]. cbn [trade_rows]. rewrite map_map.
      apply in_map_iff. exists r. split; [apply key_of_swap|exact Hr].
    + apply in_map_iff in H. destruct H as (r & <- & Hr).
      exists "export". eexists. split; [right; left; reflexivity|].
      rewrite (export_eq s df exp He Hc), (nonempty_of_in r _ Hr).
      split; [reflexivity|]. cbn [trade_rows].
      apply in_map_iff. exists r. split; [|exact Hr].
      rewrite key_of_swap, reverse_key_involutive. reflexivity.
  - intros (m & d' & [<-|[<-|[]]] & Hcall & Hin).
    + rewrite (import_eq s df imp Hi Hc) in Hcall.
      destruct (is_empty _); [discriminate|]. injection Hcall as <-.
      cbn [trade_rows] in Hin. rewrite map_map in Hin.
      apply in_map_iff in Hin. destruct Hin as (r & Hk & Hr).
      left. apply in_map_iff. exists r. split; [|exact Hr].
      rewrite key_of_swap in Hk. apply (f_equal reverse_key) in Hk.
      rewrite !reverse_key_involutive in Hk. exact Hk.
    + rewrite (export_eq s df exp He Hc) in Hcall.
      destruct (is_empty _); [discriminate|]. injection Hcall as <-.
      cbn [trade_rows] in Hin.
      apply in_map_iff in Hin. destruct Hin as (r & Hk & Hr).
      right. apply in_map_iff. exists r. split; [|exact Hr].
      rewrite key_of_swap, Hk. apply reverse_key_involutive.
Qed.

Lemma both_rows s df d :
  _trade_to_network not_in_index (with_mode "both" s) df = Return d ->
  exists imp exp,
    nth_error (imp_exp s) 0 = Some imp
    /\ nth_error (imp_exp s) 1 = Some exp
    /\ StronglySorted key_lt (map key_of_trade (trade_rows d))
    /\ (forall k, In k (map key_of_trade (trade_rows d))
                  <-> In k (map key_of_trade
                                (mirrored imp exp (trade_rows df))))
    /\ Forall (fun r =>
                 Row.value (Trade.row r)
                 = mean (map (fun x => Row.value (Trade.row x))
                             (group (key_of_trade r)
                                    (mirrored imp exp (trade_rows df)))))
              (trade_rows d).
Proof.
  intros H. apply both_inv in H.
  destruct H as (imp & exp & Hi & He & Hc & ->). cbn [trade_rows].
  exists imp, exp. split; [exact Hi|]. split; [exact He|].
  rewrite groupby_mean_keys. split; [|split].
  - apply (sorted_unique_sorted compare_key key_order).
  - intros k. apply (sorted_unique_elements compare_key key_order).
  - apply groupby_mean_values.
Qed.

Lemma conversion_columns s df d :
  _trade_to_network not_in_index s df = Return d ->
  trade_columns d = network_columns s.
Proof.
  unfold _trade_to_network, network_columns.
  destruct (mode s =? "import") eqn:Emi.
  - apply String.eqb_eq in Emi. rewrite Emi.
    change ("import" =? "both") with false. cbn iota.
    destruct (flows_of not_in_index s 0 df) as [d0|e] eqn:Hf; [|discriminate].
    apply flows_of_inv in Hf. destruct Hf as (x & _ & _ & ->).
    cbn [and_then swap_frame trade_rows trade_columns].
    destruct (is_empty _); [discriminate|]. intros [= <-]. reflexivity.
  - destruct (mode s =? "export") eqn:Eme.
    + apply String.eqb_eq in Eme. rewrite Eme.
      change ("export" =? "both") with false. cbn iota.
      destruct (flows_of not_in_index s 1 df) as [d0|e] eqn:Hf;
        [|discriminate].
      apply flows_of_inv in Hf. destruct Hf as (x & _ & _ & ->).
      cbn [and_then trade_rows].
      destruct (is_empty _); [discriminate|]. intros [= <-]. reflexivity.
    + destruct (mode s =? "both") eqn:Emb; [|discriminate].
      destruct (flows_of not_in_index s 0 df) as [d0|e]; [|discriminate].
      cbn [and_then].
      destruct (flows_of not_in_index s 1 (swap_frame df)) as [d1|e];
        [|discriminate].
      cbn [and_then trade_rows].
      destruct (is_empty _); [discriminate|]. intros [= <-].
      destruct (trade_to_network s), (two_values s); reflexivity.
Qed.

Lemma network_columns_value2 s :
  existsb (String.eqb "value2") (network_columns s) = two_values s.
Proof.
  unfold network_columns, required_keys.
  destruct (mode s =? "both"), (trade_to_network s), (two_values s);
    reflexivity.
Qed.

Lemma network_columns_weight s :
  existsb (String.eqb "weight") (network_columns s) = false.
Proof.
  unfold network_columns, required_keys.
  destruct (mode s =? "both"), (trade_to_network s), (two_values s);
    reflexivity.
Qed.

End ConversionFacts.

(** X18: Mode 'both' gives the edges of modes 'import' and 'export' reversed:
    when the 'both' conversion returns, (s, t, period, product) is a key of
    its table exactly when (t, s, period, product) is a key of the table that
    mode 'import' or mode 'export' returns on the same file (line 174 takes
    the import rows before the swap of line 175, line 176 the export rows
    after it; mode 'import' swaps the import rows and mode 'export' swaps
    nothing). *)
Theorem trade_to_network_both_reversed not_in_index s df d :
  _trade_to_network not_in_index (with_mode "both" s) df = Return d ->
  forall k,
    In k (map key_of_trade (trade_rows d))
    <-> exists m d',
          In m ["import"; "export"]
          /\ _trade_to_network not_in_index (with_mode m s) df = Return d'
          /\ In (reverse_key k) (map key_of_trade (trade_rows d')).
Proof. apply both_keys. Qed.

(** X19: When the mode 'both' conversion returns, its rows are in strictly
    ascending order of (source, target, period, product), their keys are
    exactly those of the import rows as reported and of the export rows with
    source and target exchanged, and each value is the mean of the value
    column over those rows with that key. *)
Theorem trade_to_network_both_means not_in_index s df d :
  _trade_to_network not_in_index (with_mode "both" s) df = Return d ->
  exists imp exp,
    nth_error (imp_exp s) 0 = Some imp
    /\ nth_error (imp_exp s) 1 = Some exp
    /\ StronglySorted key_lt (map key_of_trade (trade_rows d))
    /\ (forall k, In k (map key_of_trade (trade_rows d))
                  <-> In k (map key_of_trade
                                (mirrored imp exp (trade_rows df))))
    /\ Forall (fun r =>
                 Row.value (Trade.row r)
                 = mean (map (fun x => Row.value (Trade.row x))
                             (group (key_of_trade r)
                                    (mirrored imp exp (trade_rows df)))))
              (trade_rows d).
Proof. apply both_rows. Qed.

(** X20: A table returned by _trade_to_network never has a weight column, and
    has a value2 column only when two_values is set; so on a dataset holding
    it analyze_basket raises for every choice of arguments, and simulate_shock
    can return only if two_values is True. *)
Theorem converted_dataset_columns not_in_index s df d sim :
  _trade_to_network not_in_index s df = Return d ->
  (forall country partner product var direction,
     is_ok (fst (analyze_basket (mkDataset (as_data d) sim)
                   country partner product var direction)) = false)
  /\ (forall pw cf ct p product sigma,
        is_ok (simulate_shock pw (mkDataset (as_data d) sim)
                 cf ct p product sigma) = true ->
        two_values s = true).
Proof.
  intros H. apply conversion_columns in H. split.
  - intros country partner product var direction.
    destruct (is_ok _) eqn:E; [|reflexivity].
    apply analyze_basket_ok_iff in E. destruct E as (_ & Hw & _).
    unfold has_column in Hw. cbn [data as_data columns] in Hw.
    rewrite H, network_columns_weight in Hw. discriminate.
  - intros pw cf ct p product sigma Hok.
    destruct (simulate_shock _ _ _ _ _ _ _) as [df'|e] eqn:E;
      [|discriminate].
    apply simulate_shock_ok_inv in E. destruct E as (_ & _ & Hv & _).
    unfold has_column in Hv. cbn [data as_data columns] in Hv.
    rewrite H, network_columns_value2 in Hv. exact Hv.
Qed.

(** ** Examples *)

Lemma simulate_shock_error_order_witness :
  simulate_shock no_libm one_export "A" "B" "2020" None 5
  = Err (KeyError "value2").
Proof.
  apply (proj1 (simulate_shock_error_order
                  no_libm one_export "A" "B" "2020" None 5
                  eq_refl eq_refl)).
  reflexivity.
Defined.

Lemma three_suppliers_positive :
  Forall (fun r => positive_row r = true) (basket three_suppliers "B" "2020").
Proof. repeat constructor. Qed.

Lemma baseline_share_is_quantity_share_witness :
  exists sim,
    simulation three_suppliers_shocked = Some sim
    /\ Forall (fun x =>
                 feq (share_base x)
                     (fdiv (Row.value2 (base x))
                           (series_sum
                              (map Row.value2
                                   (basket three_suppliers "B" "2020")))))
              sim.
Proof.
  apply (baseline_share_is_quantity_share
           no_libm three_suppliers "A" "B" "2020" None 2).
  - exact three_suppliers_positive.
  - vm_compute. reflexivity.
Defined.

Lemma shares_sum_to_one_witness :
  exists sim,
    simulation three_suppliers_shocked = Some sim
    /\ feq (series_sum (map share_base sim)) (Fin 1)
    /\ feq (series_sum (map share_post sim)) (Fin 1).
Proof.
  apply (shares_sum_to_one no_libm three_suppliers "A" "B" "2020" None 2).
  - exact three_suppliers_positive.
  - vm_compute. reflexivity.
Defined.

Lemma shock_removes_supplier_witness :
  exists sim,
    simulation three_suppliers_shocked = Some sim
    /\ Forall (fun x =>
                 if Row.source (base x) =? "A"
                 then alpha x = Fin 0
                      /\ feq (share_post x) (Fin 0)
                      /\ feq (q_new x) (Fin 0)
                 else fle (share_base x) (share_post x))
              sim.
Proof.
  apply (shock_removes_supplier no_libm three_suppliers "A" "B" "2020" None 2).
  - exact three_suppliers_positive.
  - vm_compute. reflexivity.
  - vm_compute. reflexivity.
Defined.

Lemma analyze_basket_sums_witness :
  NoDup ["2020"; "2021"]
  /\ (forall p,
        In p ["2020"; "2021"]
        <-> exists r,
              In r (basket_rows (working_frame two_periods "E")
                                "A" None None)
              /\ Row.period r = p).
Proof.
  destruct (analyze_basket_sums two_periods "A" None None "E"
              [("2020", Fin (0 + 10 + 20)); ("2021", Fin (0 + 45))]
              two_periods eq_refl) as (Hnd & Hp & _).
  split; [exact Hnd|exact Hp].
Defined.

Lemma analyze_network_all_zero_witness :
  exists table,
    analyze_network no_centrality no_centrality no_centrality two_periods
    = Ok table
    /\ Forall (fun row =>
                 feq (Degree row) (Fin 0)
                 /\ (exists o, Out_Degree row = Some o /\ feq o (Fin 0))
                 /\ (exists i, In_Degree row = Some i /\ feq i (Fin 0))
                 /\ Vulnerability row = Fin 0)
              table.
Proof.
  eexists. split; [vm_compute; reflexivity|].
  apply (analyze_network_all_zero no_centrality no_centrality no_centrality
           two_periods).
  vm_compute. reflexivity.
Defined.

Lemma analyze_network_keys_witness :
  exists table,
    analyze_network no_centrality no_centrality no_centrality two_periods
    = Ok table
    /\ NoDup (table_keys table)
    /\ StronglySorted period_le (map Period table).
Proof.
  eexists. split; [vm_compute; reflexivity|].
  destruct (analyze_network_keys no_centrality no_centrality no_centrality
              two_periods _ eq_refl) as (Hnd & _ & Hs).
  split; [exact Hnd|exact Hs].
Defined.

Lemma calculate_node_metrics_reads_qty_witness :
  calculate_node_metrics no_centrality no_centrality no_centrality
    (updated overwrite_weight reciprocal_digraph) "2020"
  = calculate_node_metrics no_centrality no_centrality no_centrality
      reciprocal_digraph "2020".
Proof.
  apply (calculate_node_metrics_reads_qty
           no_centrality no_centrality no_centrality overwrite_weight).
  intros d. reflexivity.
Defined.

Lemma calculate_node_metrics_again_witness :
  exists rows,
    calculate_node_metrics no_centrality no_centrality no_centrality
      (annotated reciprocal_digraph) "2020"
    = Ok (rows, annotated reciprocal_digraph).
Proof.
  eexists.
  apply (calculate_node_metrics_again
           no_centrality no_centrality no_centrality
           reciprocal_digraph "2020").
  vm_compute. reflexivity.
Defined.

Lemma in_degree_and_vulnerability_range_witness :
  exists rows,
    calculate_node_metrics no_centrality no_centrality no_centrality
      three_node_digraph "2020" = Ok (rows, annotated three_node_digraph)
    /\ map Node rows = ["A"; "B"; "C"]
    /\ Forall (fun r =>
                 exists i v,
                   In_Degree r = Some (Fin i) /\ (0 <= i)%Q /\ (i <= 1)%Q
                   /\ Vulnerability r = Fin v /\ (0 <= v)%Q /\ (v < 1)%Q)
              rows.
Proof.
  eexists. split; [vm_compute; reflexivity|]. split; [reflexivity|].
  apply (in_degree_and_vulnerability_range
           no_centrality no_centrality no_centrality
           three_node_digraph "2020" _ (annotated three_node_digraph)).
  - exact three_node_digraph_built.
  - exact three_node_digraph_quantities.
  - vm_compute. reflexivity.
  - vm_compute. reflexivity.
Defined.

Lemma trade_to_network_both_reversed_witness :
  exists d,
    _trade_to_network no_message (network_loader "both") mirror_flows
    = Return d
    /\ map key_of_trade (trade_rows d)
       = [("A", "B", "2020", "P1"); ("C", "A", "2020", "P1")]
    /\ exists m d',
         In m ["import"; "export"]
         /\ _trade_to_network no_message (network_loader m) mirror_flows
            = Return d'
         /\ In ("B", "A", "2020", "P1") (map key_of_trade (trade_rows d')).
Proof.
  eexists. split; [vm_compute; reflexivity|]. split; [reflexivity|].
  apply (trade_to_network_both_reversed
           no_message (network_loader "both") mirror_flows _ eq_refl
           ("A", "B", "2020", "P1")).
  left. reflexivity.
Defined.

Lemma trade_to_network_both_means_witness :
  exists d,
    _trade_to_network no_message (network_loader "both") mirror_flows
    = Return d
    /\ StronglySorted key_lt (map key_of_trade (trade_rows d))
    /\ map (fun r => feqb (Row.value (Trade.row r)) (Fin 12)) (trade_rows d)
       = [true; false].
Proof.
  eexists. split; [vm_compute; reflexivity|].
  destruct (trade_to_network_both_means
              no_message (network_loader "both") mirror_flows _ eq_refl)
    as (imp & exp & _ & _ & Hs & _ & _).
  split; [exact Hs|]. vm_compute. reflexivity.
Defined.

Lemma converted_dataset_columns_witness :
  exists d,
    _trade_to_network no_message (network_loader "both") mirror_flows
    = Return d
    /\ is_ok (fst (analyze_basket (mkDataset (as_data d) None)
                     "A" None None false "E")) = false.
Proof.
  eexists. split; [vm_compute; reflexivity|].
  apply (converted_dataset_columns
           no_message (network_loader "both") mirror_flows _ None eq_refl).
Defined.
